(** * FunCallArchitect: planning, validation and execution core

    A shallow embedding of the Go packages [tools], [parser], [execution] and
    [handler], and the properties established about them.

    Conventions of the embedding
    - A Go [map[string]V] is an association list [gomap V] with pairwise
      distinct keys.  The order of the list stands for the order in which a
      [range] loop visits the entries (Go leaves it unspecified); writes go
      through [mset], reads through [mget].
    - A value of type [interface{}] is a [json] value: the dynamic types
      [encoding/json] decodes to.
    - Fallible functions return [result]; stateful ones thread the state.
    - Library code the repository calls ([crypto/sha256], the scalar encoders
      of [encoding/json], the decoder, the LLM transport) is a field of the
      class [GoRuntime] or a [Variable] of a [Section]. *)

From Stdlib Require Import PrimFloat.
From stdpp Require Import gmap strings list sorting fin_maps.

Set Warnings "-clear-no-such-hyp".

(** ** Results and errors *)

Inductive result (E A : Type) : Type :=
| Ok (a : A)
| Err (e : E).
Arguments Ok {E A} a.
Arguments Err {E A} e.

Definition is_ok {E A} (r : result E A) : bool :=
  match r with Ok _ => true | Err _ => false end.

(** ** Go maps with string keys *)

Module GoMap.

Definition gomap (V : Type) : Type := list (string * V).

Definition keys {V} (m : gomap V) : list string := m.*1.

(** [m[k]] with the comma-ok form: the entry, if any. *)
Fixpoint mget {V} (k : string) (m : gomap V) : option V :=
  match m with
  | [] => None
  | (k', v) :: rest => if String.eqb k k' then Some v else mget k rest
  end.

(** [m[k] = v]: overwrite in place, or add a new entry. *)
Fixpoint mset {V} (k : string) (v : V) (m : gomap V) : gomap V :=
  match m with
  | [] => [(k, v)]
  | (k', v') :: rest =>
      if String.eqb k k' then (k, v) :: rest else (k', v') :: mset k v rest
  end.

(** [mget] in continuation style: [found] is applied to the entry itself,
    so that a recursive function can descend into the value it finds. *)
Section With.
Context {V R : Type}.
Variable k : string.
Variable found : V -> R.
Variable missing : R.

Fixpoint mget_with (m : gomap V) : R :=
  match m with
  | [] => missing
  | (k', v) :: rest => if String.eqb k k' then found v else mget_with rest
  end.
End With.

(** Two maps agree when every key reads the same in both. *)
Definition same_mapping {V} (m1 m2 : gomap V) : Prop :=
  forall k, mget k m1 = mget k m2.

End GoMap.
Export GoMap.

(** ** Values of type [interface{}] *)

Module Json.

Unset Elimination Schemes.
Inductive json : Type :=
| JNull                                   (* nil *)
| JBool (b : bool)                        (* bool *)
| JNum (f : float)                        (* float64 *)
| JStr (s : string)                       (* string *)
| JArr (items : list json)                (* []interface{} *)
| JObj (fields : gomap json).             (* map[string]interface{} *)
Set Elimination Schemes.

Section Induction.
Variable P : json -> Prop.
Hypothesis HNull : P JNull.
Hypothesis HBool : forall b, P (JBool b).
Hypothesis HNum : forall f, P (JNum f).
Hypothesis HStr : forall s, P (JStr s).
Hypothesis HArr : forall items, Forall P items -> P (JArr items).
Hypothesis HObj : forall fields, Forall (fun kv => P kv.2) fields -> P (JObj fields).

Fixpoint json_ind (j : json) : P j :=
  match j with
  | JNull => HNull
  | JBool b => HBool b
  | JNum f => HNum f
  | JStr s => HStr s
  | JArr items =>
      HArr items
        ((fix go (l : list json) : Forall P l :=
            match l with
            | [] => @List.Forall_nil _ P
            | x :: l' => @List.Forall_cons _ P x l' (json_ind x) (go l')
            end) items)
  | JObj fields =>
      HObj fields
        ((fix go (l : gomap json) : Forall (fun kv => P kv.2) l :=
            match l with
            | [] => @List.Forall_nil _ _
            | kv :: l' => @List.Forall_cons _ (fun kv => P kv.2) kv l' (json_ind kv.2) (go l')
            end) fields)
  end.
End Induction.

(** The same value up to the order in which maps list their entries, at any
    depth. *)
Unset Elimination Schemes.
Inductive json_equiv : json -> json -> Prop :=
| equiv_refl j : json_equiv j j
| equiv_arr items1 items2 :
    Forall2 json_equiv items1 items2 -> json_equiv (JArr items1) (JArr items2)
| equiv_obj fields1 fields2 :
    NoDup (keys fields1) -> NoDup (keys fields2) ->
    (forall k, option_Forall2 json_equiv (mget k fields1) (mget k fields2)) ->
    json_equiv (JObj fields1) (JObj fields2).
Set Elimination Schemes.

End Json.
Export Json.

(** ** Package parser *)

Module Parser.

(** The errors of the package: [ErrInvalidJSON] with its context string, and
    the [%w] wrappers added on the way out of a nested call. *)
Inductive Error : Type :=
| ErrInvalidJSON (context : string)
| ErrUnmarshal (message : string)
| ErrWrapped (context : string) (inner : Error).

(** Whether [errors.Is(err, ErrInvalidJSON)] holds. *)
Fixpoint isInvalidJSON (e : Error) : bool :=
  match e with
  | ErrInvalidJSON _ => true
  | ErrUnmarshal _ => false
  | ErrWrapped _ inner => isInvalidJSON inner
  end.

(** [PlannedFuncCall]; an entry of [Args] holds either a decoded JSON value
    or a pointer to a nested [PlannedFuncCall]. *)
Unset Elimination Schemes.
Inductive PlannedFuncCall : Type :=
| mkPlannedFuncCall (Name Purpose : string) (Args : gomap ArgValue)
with ArgValue : Type :=
| Literal (v : json)
| Nested (call : PlannedFuncCall).
Set Elimination Schemes.

Definition Name (c : PlannedFuncCall) : string :=
  let 'mkPlannedFuncCall n _ _ := c in n.
Definition Purpose (c : PlannedFuncCall) : string :=
  let 'mkPlannedFuncCall _ p _ := c in p.
Definition Args (c : PlannedFuncCall) : gomap ArgValue :=
  let 'mkPlannedFuncCall _ _ a := c in a.

(** Induction over a call tree: a property of a call may rely on the same
    property of the calls nested in its arguments. *)
Section CallTree.
Variable P : PlannedFuncCall -> Prop.

Definition onNested (kv : string * ArgValue) : Prop :=
  match kv.2 with
  | Nested call => P call
  | Literal _ => True
  end.

Hypothesis HCall : forall name purpose args,
  Forall onNested args -> P (mkPlannedFuncCall name purpose args).

Fixpoint PlannedFuncCall_ind (c : PlannedFuncCall) : P c :=
  let 'mkPlannedFuncCall name purpose args := c in
  HCall name purpose args
    ((fix go (l : gomap ArgValue) : Forall onNested l :=
        match l with
        | [] => @List.Forall_nil _ _
        | kv :: l' =>
            @List.Forall_cons _ onNested kv l'
              (match kv as kv0 return onNested kv0 with
               | (_, Nested call) => PlannedFuncCall_ind call
               | (_, Literal _) => I
               end)
              (go l')
        end) args).
End CallTree.

Section ArgParsing.
(** [parseArgs] and [parseNestedFunc] call back into [parseFuncDetails]. *)
Variable parseFuncDetails : string -> json -> result Error PlannedFuncCall.

Definition parseNestedFunc (funcCall : gomap json) : result Error PlannedFuncCall :=
  match funcCall with
  | [(funcName, funcDetails)] =>
      match parseFuncDetails funcName funcDetails with
      | Err e => Err (ErrWrapped ("error parsing nested function '" +:+ funcName +:+ "'") e)
      | Ok parsedFunc => Ok parsedFunc
      end
  | _ => Err (ErrInvalidJSON "nested function call should contain exactly one key-value pair")
  end.

(** The body of the loop of [parseArgs], for the entry [key: value]. *)
Definition parseArg (key : string) (value : json) (parsedArgs : gomap ArgValue)
  : result Error (gomap ArgValue) :=
  match value with
  | JObj v =>
      mget_with "func_call"
        (fun fc =>
           match fc with
           | JObj funcCall =>
               match parseNestedFunc funcCall with
               | Err e =>
                   Err (ErrWrapped ("error parsing nested function for arg '" +:+ key +:+ "'") e)
               | Ok nestedFunc => Ok (mset key (Nested nestedFunc) parsedArgs)
               end
           | _ => Ok (mset key (Literal value) parsedArgs)
           end)
        (Ok (mset key (Literal value) parsedArgs))
        v
  | JStr strValue =>
      if String.eqb strValue "" then Ok parsedArgs
      else Ok (mset key (Literal value) parsedArgs)
  | _ => Ok (mset key (Literal value) parsedArgs)
  end.

Fixpoint parseArgsLoop (args : gomap json) (parsedArgs : gomap ArgValue)
  : result Error (gomap ArgValue) :=
  match args with
  | [] => Ok parsedArgs
  | (key, value) :: rest =>
      match parseArg key value parsedArgs with
      | Err e => Err e
      | Ok parsedArgs' => parseArgsLoop rest parsedArgs'
      end
  end.

Definition parseArgs (args : gomap json) : result Error (gomap ArgValue) :=
  parseArgsLoop args [].
End ArgParsing.

Fixpoint parseFuncDetails (funcName : string) (funcDetails : json) {struct funcDetails}
  : result Error PlannedFuncCall :=
  match funcDetails with
  | JObj detailsMap =>
      match mget "purpose" detailsMap with
      | Some (JStr purpose) =>
          mget_with "args"
            (fun a =>
               match a with
               | JObj args =>
                   match parseArgs parseFuncDetails args with
                   | Err e => Err e
                   | Ok parsedArgs => Ok (mkPlannedFuncCall funcName purpose parsedArgs)
                   end
               | _ => Err (ErrInvalidJSON "args not found or not a map")
               end)
            (Err (ErrInvalidJSON "args not found or not a map"))
            detailsMap
      | _ => Err (ErrInvalidJSON "purpose not found or not a string")
      end
  | _ => Err (ErrInvalidJSON "function details not a map")
  end.

(** The loop of [ParseJsonFunctions] over the decoded [main_functions]. *)
Fixpoint parseMainFunctions (MainFunctions : list json) (parsedFunctions : list PlannedFuncCall)
  : result Error (list PlannedFuncCall) :=
  match MainFunctions with
  | [] => Ok parsedFunctions
  | funcInterface :: rest =>
      match funcInterface with
      | JObj [(funcName, funcDetails)] =>
          match parseFuncDetails funcName funcDetails with
          | Err e => Err e
          | Ok parsedFunc => parseMainFunctions rest (parsedFunctions ++ [parsedFunc])
          end
      | JObj _ => Err (ErrInvalidJSON "function map should contain exactly one key-value pair")
      | _ => Err (ErrInvalidJSON "function not a map")
      end
  end.

Section Decoding.
(** [json.Unmarshal(jsonData, &data)], reduced to the one field of [data] the
    parser reads: the decoded [main_functions], or the decoder's error. *)
Variable unmarshalMainFunctions : string -> result string (list json).

Definition ParseJsonFunctions (jsonData : string) : result Error (list PlannedFuncCall) :=
  match unmarshalMainFunctions jsonData with
  | Err e => Err (ErrUnmarshal e)
  | Ok MainFunctions =>
      match MainFunctions with
      | [] => Ok []
      | _ => parseMainFunctions MainFunctions []
      end
  end.
End Decoding.

Fixpoint CollectAllNestedFuncCalls (t : PlannedFuncCall) : list string :=
  match t with
  | mkPlannedFuncCall name _ args =>
      name :: flat_map (fun kv => match kv.2 with
                                  | Nested v => CollectAllNestedFuncCalls v
                                  | Literal _ => []
                                  end) args
  end.

End Parser.

(** ** Package tools *)

Module Tools.

Unset Elimination Schemes.
Inductive TypeInfo : Type :=
| mkTypeInfo (Type_ Description : string) (Items : option TypeInfo)
    (Properties : option (gomap TypeInfo)) (Required Enum : list string) (Pattern : string).
Set Elimination Schemes.

Definition Type_ (t : TypeInfo) : string :=
  let 'mkTypeInfo ty _ _ _ _ _ _ := t in ty.
Definition Description (t : TypeInfo) : string :=
  let 'mkTypeInfo _ d _ _ _ _ _ := t in d.
Definition Items (t : TypeInfo) : option TypeInfo :=
  let 'mkTypeInfo _ _ i _ _ _ _ := t in i.
Definition Properties (t : TypeInfo) : option (gomap TypeInfo) :=
  let 'mkTypeInfo _ _ _ p _ _ _ := t in p.
Definition Required (t : TypeInfo) : list string :=
  let 'mkTypeInfo _ _ _ _ r _ _ := t in r.
Definition Enum (t : TypeInfo) : list string :=
  let 'mkTypeInfo _ _ _ _ _ e _ := t in e.
Definition Pattern (t : TypeInfo) : string :=
  let 'mkTypeInfo _ _ _ _ _ _ p := t in p.

(** [TypeInfo{Type: ty}], every other field at its zero value. *)
Definition typeNamed (ty : string) : TypeInfo := mkTypeInfo ty "" None None [] [] "".

Record FuncDefinition : Type := mkFuncDefinition {
  fdName : string;
  fdDescription : string;
  Parameters : TypeInfo;
  Returns : TypeInfo
}.

Record ToolSet : Type := mkToolSet {
  Functions : list FuncDefinition;
  TypeDefinitions : gomap TypeInfo
}.

Definition FindTool (t : ToolSet) (name : string) : option FuncDefinition :=
  find (fun function => String.eqb (fdName function) name) (Functions t).

Fixpoint isTypeUsedInTypeInfo (typeName : string) (info : TypeInfo) : bool :=
  let 'mkTypeInfo ty _ items properties _ _ _ := info in
  if String.eqb ty typeName then true
  else if String.eqb ty "array"
          && match items with
             | Some it => String.eqb (Type_ it) typeName
             | None => false
             end
       then true
  else match properties with
       | Some props => existsb (fun kv => isTypeUsedInTypeInfo typeName kv.2) props
       | None => false
       end.

Definition isUsedAsArgumentType (t : ToolSet) (typeName : string) : bool :=
  existsb (fun function => isTypeUsedInTypeInfo typeName (Parameters function)) (Functions t).

(** *** The schema generator

    The generator writes JSON text through templates; the embedding gives the
    JSON value that text denotes, an object being the list of its members in
    the order they are written.  The templates put the names and the
    descriptions of the functions, the type names and the [Type] fields
    between double quotes as they are, and the descriptions, patterns and
    property names of a [TypeInfo] through [%q].  The text denotes the value
    given here when the former are [verbatim] and the latter [printable], which
    [plainTools] asks of a tool set; what the generator writes for other
    strings is not described. *)

(** A character from the space to the tilde. *)
Definition visible (c : Ascii.ascii) : bool :=
  let n := Ascii.nat_of_ascii c in (32 <=? n)%nat && (n <=? 126)%nat.

(** A string [%q] writes as JSON writes it: visible characters only. *)
Definition printable (s : string) : bool :=
  forallb visible (String.list_ascii_of_string s).

(** A string that stands for itself between double quotes: visible
    characters, none of them a double quote (34) or a backslash (92). *)
Definition verbatim (s : string) : bool :=
  forallb (fun c => visible c
                    && negb (Ascii.nat_of_ascii c =? 34)%nat
                    && negb (Ascii.nat_of_ascii c =? 92)%nat)
          (String.list_ascii_of_string s).

Fixpoint plainInfo (info : TypeInfo) : bool :=
  let 'mkTypeInfo ty description items properties _ _ pattern := info in
  verbatim ty && printable description && printable pattern
  && match items with
     | Some it => plainInfo it
     | None => true
     end
  && match properties with
     | Some props => forallb (fun kv => printable kv.1 && plainInfo kv.2) props
     | None => true
     end.

Definition plainTools (t : ToolSet) : bool :=
  forallb (fun function => verbatim (fdName function) && verbatim (fdDescription function)
                           && plainInfo (Parameters function)
                           && verbatim (Type_ (Returns function)))
          (Functions t)
  && forallb (fun entry => verbatim entry.1 && plainInfo entry.2) (TypeDefinitions t).

Definition ref (name : string) : json := JObj [("$ref", JStr ("#/$defs/" +:+ name))].

Definition optional (present : bool) (member : string * json) : gomap json :=
  if present then [member] else [].

Definition nonEmpty (s : string) : bool := negb (String.eqb s "").

Definition notNil {A} (l : list A) : bool :=
  match l with [] => false | _ => true end.

Fixpoint transformTypeInfo (typeDefinitions : gomap TypeInfo) (info : TypeInfo) : json :=
  let 'mkTypeInfo ty description items properties required enum pattern := info in
  match mget ty typeDefinitions with
  | Some _ => ref ty
  | None =>
      JObj ([("type", JStr ty)]
            ++ optional (nonEmpty description) ("description", JStr description)
            ++ optional (notNil enum) ("enum", JArr (JStr <$> enum))
            ++ optional (nonEmpty pattern) ("pattern", JStr pattern)
            ++ match items with
               | Some it => [("items", transformTypeInfo typeDefinitions it)]
               | None => []
               end
            ++ match properties with
               | Some props =>
                   match props with
                   | [] => []
                   | _ => [("properties",
                            JObj (map (fun kv => (kv.1, transformTypeInfo typeDefinitions kv.2)) props));
                           ("additionalProperties", JBool false)]
                   end
                   ++ optional (notNil required) ("required", JArr (JStr <$> required))
               | None => []
               end)
  end.

Definition generateFunctionDefinition (t : ToolSet) (function : FuncDefinition) : json :=
  JObj [("type", JStr "object");
        ("additionalProperties", JBool false);
        ("required", JArr [JStr (fdName function)]);
        ("properties",
          JObj [(fdName function,
                 JObj [("type", JStr "object");
                       ("description", JStr (fdDescription function));
                       ("additionalProperties", JBool false);
                       ("required", JArr [JStr "purpose"; JStr "args"]);
                       ("properties",
                         JObj [("purpose", JObj [("type", JStr "string")]);
                               ("args", transformTypeInfo (TypeDefinitions t) (Parameters function))])])])].

Definition funcCallReturningName (typeName : string) : string :=
  "func_call_returning_" +:+ typeName.

(** The first loop of [generateFuncCallReturningDefinitions]. *)
Fixpoint collectTypeToFunctions (t : ToolSet) (functions : list FuncDefinition)
    (typeToFunctions : gomap (list string)) : gomap (list string) :=
  match functions with
  | [] => typeToFunctions
  | function :: rest =>
      let returnType := Type_ (Returns function) in
      collectTypeToFunctions t rest
        (if isUsedAsArgumentType t returnType
         then mset returnType (default [] (mget returnType typeToFunctions) ++ [fdName function])
                typeToFunctions
         else typeToFunctions)
  end.

Definition funcCallReturningDefinition (functionNames : list string) : json :=
  JObj [("type", JStr "object");
        ("required", JArr [JStr "func_call"]);
        ("additionalProperties", JBool false);
        ("properties", JObj [("func_call", JObj [("oneOf", JArr (ref <$> functionNames))])])].

Definition generateFuncCallReturningDefinitions (t : ToolSet) : gomap json :=
  foldl (fun definitions entry =>
           mset (funcCallReturningName entry.1) (funcCallReturningDefinition entry.2) definitions)
        [] (collectTypeToFunctions t (Functions t) []).

Definition generateTypeDefinition (t : ToolSet) (typeName : string) (typeInfo : TypeInfo) : json :=
  let baseDef := transformTypeInfo (TypeDefinitions t) typeInfo in
  if isUsedAsArgumentType t typeName
  then JObj [("oneOf", JArr [baseDef; ref (funcCallReturningName typeName)])]
  else baseDef.

(** The members written under ["$defs"] after ["func_call"]. *)
Definition schemaDefs (t : ToolSet) : gomap json :=
  map (fun function => (fdName function, generateFunctionDefinition t function)) (Functions t)
  ++ map (fun entry => (entry.1, generateTypeDefinition t entry.1 entry.2)) (TypeDefinitions t)
  ++ generateFuncCallReturningDefinitions t.

(** [toJSONSchema]; with nothing to define the template leaves a comma
    before the closing brace and [json.Compact] rejects the text. *)
Definition toJSONSchema (t : ToolSet) : result string json :=
  match schemaDefs t with
  | [] => Err "error compacting schema"
  | defs =>
      Ok (JObj [("$schema", JStr "http://json-schema.org/draft-07/schema#");
                ("type", JStr "object");
                ("properties",
                  JObj [("understanding", JObj [("type", JStr "string")]);
                        ("main_functions",
                          JObj [("type", JStr "array"); ("items", ref "func_call")])]);
                ("required", JArr [JStr "understanding"; JStr "main_functions"]);
                ("additionalProperties", JBool false);
                ("$defs",
                  JObj (("func_call", JObj [("oneOf", JArr (ref <$> (fdName <$> Functions t)))])
                        :: defs))])
  end.

(** Every name a [{"$ref": "#/$defs/<name>"}] inside [j] points to. *)
Fixpoint refTargets (j : json) : list string :=
  match j with
  | JArr items => flat_map refTargets items
  | JObj fields =>
      flat_map (fun kv =>
                  match kv with
                  | ("$ref", JStr target) =>
                      match String.index 0 "#/$defs/" target with
                      | Some 0 => [String.substring 8 (String.length target - 8) target]
                      | _ => []
                      end
                  | (_, v) => refTargets v
                  end) fields
  | _ => []
  end.

(** The definitions of the schema, when it is generated. *)
Definition defsOf (schema : result string json) : gomap json :=
  match schema with
  | Ok (JObj members) =>
      match mget "$defs" members with
      | Some (JObj defs) => defs
      | _ => []
      end
  | _ => []
  end.

End Tools.

(** ** Library code and the outside world *)

(** What the orchestrator and the handler take from outside the repository:
    the hash and the scalar encoders behind [generateFingerprint], and a
    [World] standing for everything an executor or the LLM can observe or
    change (network, clock).  Executors and the LLM are functions of the
    world they run in. *)
Class GoRuntime : Type := {
  World : Type;
  (** [fmt.Sprintf("%x", sha256.Sum256(data))] *)
  sha256Hex : string -> string;
  (** the JSON encoding of a Go string, quotes and escapes included *)
  quoteString : string -> string;
  (** the JSON encoding of a float64 *)
  formatFloat : float -> string
}.

(** ** Go [error] values

    The errors that [FormatFunc] returns and [Format] hands on.  An error
    made by [errors.New], or by [fmt.Errorf] with a format that has no [%w],
    carries its message and nothing else; [fmt.Errorf] with one [%w] also
    keeps the operand, which [Unwrap] gives back. *)

Module Errors.

Inductive error : Type :=
| errorString (message : string)
| wrapError (message : string) (err : error).

(** The method [Error()]. *)
Definition Error (e : error) : string :=
  match e with
  | errorString message => message
  | wrapError message _ => message
  end.

(** [errors.Unwrap] *)
Definition Unwrap (e : error) : option error :=
  match e with
  | errorString _ => None
  | wrapError _ err => Some err
  end.

(** [fmt.Errorf(prefix + "%v", err)]: the verb [%v] prints [err.Error()]. *)
Definition Errorf_v (prefix : string) (err : error) : error :=
  errorString (prefix +:+ Error err).

(** [fmt.Errorf(prefix + "%w", err)]: the same text, and [err] kept. *)
Definition Errorf_w (prefix : string) (err : error) : error :=
  wrapError (prefix +:+ Error err) err.

(** The errors that [errors.Is] and [errors.As] visit after [e] itself. *)
Fixpoint chain (e : error) : list error :=
  match e with
  | errorString _ => []
  | wrapError _ err => err :: chain err
  end.

(** [e] wraps [target]: [target] is met by following [Unwrap] from [e]. *)
Definition wraps (e target : error) : Prop := target ∈ chain e.

End Errors.

(** ** Package execution *)

Module Execution.

(** [FormatFunc]: a closure without arguments returning a string and an
    error; [None] is the nil error. *)
Definition FormatFunc : Type := unit -> string * option Errors.error.

Record FuncResult : Type := mkFuncResult {
  Present : bool;
  Value : json;
  FormatFn : option FormatFunc;     (* the field FormatFunc; [None] is nil *)
  Metadata : json
}.

Unset Elimination Schemes.
Inductive ExecutedFuncCall : Type :=
| mkExecutedFuncCall (Name Purpose : string) (Args : gomap Arg) (Result : FuncResult)
with Arg : Type :=
| ValueArg (Value : json)
| FuncArg (Func : ExecutedFuncCall).
Set Elimination Schemes.

Definition Name (c : ExecutedFuncCall) : string :=
  let 'mkExecutedFuncCall n _ _ _ := c in n.
Definition Purpose (c : ExecutedFuncCall) : string :=
  let 'mkExecutedFuncCall _ p _ _ := c in p.
Definition Args (c : ExecutedFuncCall) : gomap Arg :=
  let 'mkExecutedFuncCall _ _ a _ := c in a.
Definition Result_ (c : ExecutedFuncCall) : FuncResult :=
  let 'mkExecutedFuncCall _ _ _ r := c in r.

Definition GetFuncCall (arg : Arg) : option ExecutedFuncCall :=
  match arg with
  | FuncArg f => Some f
  | ValueArg _ => None
  end.

Definition GetValue (arg : Arg) : option json :=
  match arg with
  | ValueArg v => Some v
  | FuncArg _ => None
  end.

(** The error values of the package: [fmt.Errorf] without [%w], [*Error]
    and [*FormattableError]. *)
Inductive Error : Type :=
| ErrString (message : string)
| ErrCall (FuncName ArgName : string) (Err : Error)
| ErrFormattable (ff : FormatFunc).

(** [AsFormattableError]: [errors.As] looks at the error itself and then
    follows [Unwrap].  [*Error] declares [Error()] only, no [Unwrap], and an
    [fmt.Errorf] without [%w] has none either: the search ends at the first
    error of the chain. *)
Definition AsFormattableError (err : Error) : option FormatFunc :=
  match err with
  | ErrFormattable ff => Some ff
  | ErrString _ => None
  | ErrCall _ _ _ => None
  end.

Section Runtime.
Context `{GoRuntime}.

(** How the [select] of [executeFunc] ends: the executor sent a result, sent
    an error, or the context was done first. *)
Inductive Outcome : Type :=
| Returned (result : FuncResult)
| Failed (err : Error)
| TimedOut.

Definition FuncExecutor : Type := gomap json -> World -> Outcome * World.

Record Orchestrator : Type := mkOrchestrator {
  Functions : gmap string FuncExecutor;
  Timeout : nat;
  EnableConcurrentExec : bool;
  ToolSet : Tools.ToolSet
}.

(** What an execution leaves behind, for the statements below. *)
Inductive Event : Type :=
| EvFingerprint (name : string) (args : gomap json)
| EvInvoke (name : string) (args : gomap json).

(** The mutable part: the field [Memo] of the orchestrator, the world, and
    the events so far. *)
Record State : Type := mkState {
  Memo : gmap string FuncResult;
  world : World;
  trace : list Event
}.

Definition NewState (w : World) : State := mkState ∅ w [].

Definition RegisterFunction (o : Orchestrator) (name : string) (executor : FuncExecutor)
  : Orchestrator :=
  mkOrchestrator (<[name := executor]> (Functions o)) (Timeout o)
    (EnableConcurrentExec o) (ToolSet o).

(** *** Fingerprints *)

Definition key_le {V} : relation (string * V) := fun a b => String.le a.1 b.1.

#[global] Instance key_le_dec {V} : RelDecision (@key_le V).
Proof. intros a b. unfold key_le. apply _. Defined.

(** [encoding/json] writes a map with its keys sorted. *)
Definition sortByKey {V} (m : gomap V) : gomap V := merge_sort key_le m.

Definition object (members : gomap string) : string :=
  "{" +:+ String.concat "," (sortByKey members).*2 +:+ "}".

(** [json.Marshal] on a value of type [interface{}]. *)
Fixpoint marshal (v : json) : string :=
  match v with
  | JNull => "null"
  | JBool b => if b then "true" else "false"
  | JNum f => formatFloat f
  | JStr s => quoteString s
  | JArr items => "[" +:+ String.concat "," (map marshal items) +:+ "]"
  | JObj fields =>
      object (map (fun kv => (kv.1, quoteString kv.1 +:+ ":" +:+ marshal kv.2)) fields)
  end.

(** [json.Marshal(struct{ Name string; Args map[string]interface{} })] *)
Definition marshalCall (functionName : string) (args : gomap json) : string :=
  "{" +:+ quoteString "Name" +:+ ":" +:+ quoteString functionName +:+ ","
      +:+ quoteString "Args" +:+ ":" +:+ marshal (JObj args) +:+ "}".

Definition generateFingerprint (functionName : string) (args : gomap json) : string :=
  sha256Hex (marshalCall functionName args).

(** *** Arguments *)

Fixpoint createProcessedArgsLoop (argsExecution : gomap Arg) (processedArgs : gomap json)
  : gomap json :=
  match argsExecution with
  | [] => processedArgs
  | (key, arg) :: rest =>
      createProcessedArgsLoop rest
        match arg with
        | FuncArg f =>
            if Present (Result_ f) then mset key (Value (Result_ f)) processedArgs
            else processedArgs
        | ValueArg v => mset key v processedArgs
        end
  end.

Definition createProcessedArgs (argsExecution : gomap Arg) : gomap json :=
  createProcessedArgsLoop argsExecution [].

Definition checkRequiredArg (paramName : string) (args : gomap Arg) : option Error :=
  match mget paramName args with
  | None => Some (ErrString ("missing argument for required parameter " +:+ paramName))
  | Some arg =>
      match GetFuncCall arg with
      | None => None
      | Some funcCall =>
          if Present (Result_ funcCall) then None
          else match FormatFn (Result_ funcCall) with
               | Some ff => Some (ErrFormattable ff)
               | None =>
                   Some (ErrString ("missing argument for required parameter " +:+ paramName
                                    +:+ ": func call result is blank and has no FormatFunc"))
               end
      end
  end.

Fixpoint checkRequiredLoop (funcName : string) (required : list string) (args : gomap Arg)
  : option Error :=
  match required with
  | [] => None
  | paramName :: rest =>
      match checkRequiredArg paramName args with
      | Some err => Some (ErrCall funcName paramName err)
      | None => checkRequiredLoop funcName rest args
      end
  end.

Definition checkRequiredArgs (o : Orchestrator) (function : Parser.PlannedFuncCall)
    (args : gomap Arg) : option Error :=
  match Tools.FindTool (ToolSet o) (Parser.Name function) with
  | None => Some (ErrString ("function schema not found for " +:+ Parser.Name function))
  | Some functionSchema =>
      checkRequiredLoop (Parser.Name function)
        (Tools.Required (Tools.Parameters functionSchema)) args
  end.

Definition handleMissingRequiredArgsError (err : Error) (function : Parser.PlannedFuncCall)
    (argsExecution : gomap Arg) : result Error ExecutedFuncCall :=
  match AsFormattableError err with
  | None => Err err
  | Some ff =>
      Ok (mkExecutedFuncCall (Parser.Name function) (Parser.Purpose function) argsExecution
            (mkFuncResult false JNull (Some ff) JNull))
  end.

Definition record (e : Event) (st : State) : State :=
  mkState (Memo st) (world st) (trace st ++ [e]).

(** The second half of [executeFunc], from the fingerprint on: the memo
    lookup, then the executor under the timeout. *)
Definition lookupOrInvoke (executor : FuncExecutor) (function : Parser.PlannedFuncCall)
    (argsExecution : gomap Arg) (st : State) : result Error ExecutedFuncCall * State :=
  let processedArgs := createProcessedArgs argsExecution in
  let fingerprint := generateFingerprint (Parser.Name function) processedArgs in
  let st := record (EvFingerprint (Parser.Name function) processedArgs) st in
  match Memo st !! fingerprint with
  | Some result =>
      (Ok (mkExecutedFuncCall (Parser.Name function) (Parser.Purpose function)
             argsExecution result), st)
  | None =>
      let st := record (EvInvoke (Parser.Name function) processedArgs) st in
      match executor processedArgs (world st) with
      | (Returned result, w) =>
          (Ok (mkExecutedFuncCall (Parser.Name function) (Parser.Purpose function)
                 argsExecution result),
           mkState (<[fingerprint := result]> (Memo st)) w (trace st))
      | (Failed err, w) =>
          (Err (ErrCall (Parser.Name function) "" err), mkState (Memo st) w (trace st))
      | (TimedOut, w) =>
          (Err (ErrCall (Parser.Name function) "" (ErrString "function execution timed out")),
           mkState (Memo st) w (trace st))
      end
  end.

Section Arguments_.
Variable executeFunc : Parser.PlannedFuncCall -> State -> result Error ExecutedFuncCall * State.

(** The loop of [processArgs] over [function.Args].  [function.Args] is a Go
    map: the list [fargs] gives its entries in the order in which this
    iteration of [range] meets them, and another execution of the same call
    may meet them in another order ([Runs.relisted]). *)
Fixpoint processArgsLoop (funcName : string) (fargs : gomap Parser.ArgValue)
    (args : gomap Arg) (st : State) : result Error (gomap Arg) * State :=
  match fargs with
  | [] => (Ok args, st)
  | (key, value) :: rest =>
      match value with
      | Parser.Nested v =>
          match executeFunc v st with
          | (Err err, st') => (Err (ErrCall funcName key err), st')
          | (Ok funcExe, st') => processArgsLoop funcName rest (mset key (FuncArg funcExe) args) st'
          end
      | Parser.Literal v => processArgsLoop funcName rest (mset key (ValueArg v) args) st
      end
  end.
End Arguments_.

Fixpoint executeFunc (o : Orchestrator) (function : Parser.PlannedFuncCall) (st : State)
    {struct function} : result Error ExecutedFuncCall * State :=
  match Functions o !! Parser.Name function with
  | None => (Err (ErrCall (Parser.Name function) "" (ErrString "unknown function")), st)
  | Some executor =>
      match
        (let 'Parser.mkPlannedFuncCall name _ fargs := function in
         processArgsLoop (executeFunc o) name fargs [] st)
      with
      | (Err err, st') => (Err err, st')
      | (Ok argsExecution, st') =>
          match checkRequiredArgs o function argsExecution with
          | Some err => (handleMissingRequiredArgsError err function argsExecution, st')
          | None => lookupOrInvoke executor function argsExecution st'
          end
      end
  end.

Definition processArgs (o : Orchestrator) (function : Parser.PlannedFuncCall) (st : State)
  : result Error (gomap Arg) * State :=
  processArgsLoop (executeFunc o) (Parser.Name function) (Parser.Args function) [] st.

Record Result : Type := mkResult { FuncCalls : list ExecutedFuncCall }.

(** The loop of [executeSeq]; the slice [functionsExecution] is filled from
    the left. *)
Fixpoint executeSeqLoop (o : Orchestrator) (functions : list Parser.PlannedFuncCall)
    (functionsExecution : list ExecutedFuncCall) (st : State) : result Error Result * State :=
  match functions with
  | [] => (Ok (mkResult functionsExecution), st)
  | function :: rest =>
      match executeFunc o function st with
      | (Err err, st') => (Err (ErrCall (Parser.Name function) "" err), st')
      | (Ok funcExe, st') => executeSeqLoop o rest (functionsExecution ++ [funcExe]) st'
      end
  end.

Definition executeSeq (o : Orchestrator) (functions : list Parser.PlannedFuncCall) (st : State)
  : result Error Result * State :=
  executeSeqLoop o functions [] st.

(** *** What a run leaves in the state *)

(** The calls whose executor ran, in order, and their fingerprints. *)
Definition invoked (tr : list Event) : list (string * gomap json) :=
  omap (fun ev => match ev with
                  | EvInvoke name args => Some (name, args)
                  | EvFingerprint _ _ => None
                  end) tr.

Definition fingerprintOf (call : string * gomap json) : string :=
  generateFingerprint call.1 call.2.

Definition invokedFingerprints (tr : list Event) : list string :=
  fingerprintOf <$> invoked tr.

(** [fp] is the fingerprint of a call whose executor ran during [tr] and
    returned [r]. *)
Definition storedBy (o : Orchestrator) (tr : list Event) (fp : string) (r : FuncResult)
  : Prop :=
  exists name args executor w,
    (name, args) ∈ invoked tr /\ fp = generateFingerprint name args /\
    Functions o !! name = Some executor /\ (executor args w).1 = Returned r.

(** An executor whose outcome is a function of its arguments alone. *)
Definition deterministic (executor : FuncExecutor) : Prop :=
  forall args w1 w2, (executor args w1).1 = (executor args w2).1.

Definition allDeterministic (o : Orchestrator) : Prop :=
  forall name executor, Functions o !! name = Some executor -> deterministic executor.

(** From [st] to [st'] through the events [tr]: the memo only grows, what it
    gained an executor returned, and an executor ran only for a fingerprint
    the memo did not hold, once. *)
Record advances (o : Orchestrator) (st st' : State) (tr : list Event) : Prop := {
  adv_trace : trace st' = trace st ++ tr;
  adv_memo : Memo st ⊆ Memo st';
  adv_stored : forall fp r, Memo st' !! fp = Some r ->
                            Memo st !! fp = Some r \/ storedBy o tr fp r;
  adv_fresh : forall fp, fp ∈ invokedFingerprints tr -> Memo st !! fp = None;
  adv_once : NoDup (invokedFingerprints tr)
}.

(** Every executor that ran during [tr] left its result in the memo. *)
Definition kept (st' : State) (tr : list Event) : Prop :=
  forall fp, fp ∈ invokedFingerprints tr -> is_Some (Memo st' !! fp).

(** A run from [st] that ended in [r]: it advances the state, and keeps what
    it invoked when it ends well. *)
Definition tracked {A} (o : Orchestrator) (st : State) (r : result Error A * State) : Prop :=
  exists tr, advances o st r.2 tr /\ (is_ok r.1 -> kept r.2 tr).

(** [st] after the events [tr], memo and world as they were. *)
Definition after (st : State) (tr : list Event) : State :=
  mkState (Memo st) (world st) (trace st ++ tr).

(** Running [m] again on a memo that holds what the first run left gives the
    same value, through memo hits alone. *)
Definition replaysOk {A} (m : State -> result Error A * State) (a : A) (st' : State)
  : Prop :=
  forall st2, Memo st' ⊆ Memo st2 ->
    exists tr2, m st2 = (Ok a, after st2 tr2) /\ invoked tr2 = [].

End Runtime.

(** *** Results and their formatting *)

Definition MainFuncResults (e : Result) : list FuncResult := Result_ <$> FuncCalls e.

Definition newline : string := String (Ascii.ascii_of_nat 10) "".

Definition DefaultSeparator : string := newline +:+ newline +:+ "---" +:+ newline.

(** The first loop of [Format]. *)
Fixpoint formatLoop (r : list FuncResult) (formatted : list string)
  : result Errors.error (list string) :=
  match r with
  | [] => Ok formatted
  | result :: rest =>
      match FormatFn result with
      | None => formatLoop rest formatted
      | Some ff =>
          match ff () with
          | (_, Some err) => Err (Errors.Errorf_v "error formatting result: " err)
          | (buf, None) => formatLoop rest (formatted ++ [buf])
          end
      end
  end.

(** The second loop of [Format]. *)
Fixpoint uniqueLoop (formatted : list string) (seen : gset string) (unique : list string)
  : list string :=
  match formatted with
  | [] => unique
  | s :: rest =>
      if decide (s ∈ seen) then uniqueLoop rest seen unique
      else uniqueLoop rest ({[s]} ∪ seen) (unique ++ [s])
  end.

(** [strings.Join] *)
Definition Join (elems : list string) (sep : string) : string := String.concat sep elems.

Definition Format (r : list FuncResult) (separator : string)
  : string * option Errors.error :=
  let separator := if String.eqb separator "" then DefaultSeparator else separator in
  match formatLoop r [] with
  | Err err => ("", Some err)
  | Ok formatted => (Join (uniqueLoop formatted ∅ []) separator, None)
  end.

(** *** [Format], as the specification words it

    The strings of the results that have a [FormatFunc], in input order; of
    equal strings only the first is kept. *)

Definition formattedStrings (r : list FuncResult) : list string :=
  omap (fun result => (fun ff : FormatFunc => (ff ()).1) <$> FormatFn result) r.

Fixpoint withoutRepeats (l : list string) : list string :=
  match l with
  | [] => []
  | s :: rest => s :: filter (fun s' => s' ≠ s) (withoutRepeats rest)
  end.

(** The separator the specification names for an empty [sep]: two line
    feeds, three hyphens, a line feed; written out here, not taken from
    [DefaultSeparator]. *)
Definition specSeparator : string :=
  String (Ascii.ascii_of_nat 10) (String (Ascii.ascii_of_nat 10)
    (String (Ascii.ascii_of_nat 45) (String (Ascii.ascii_of_nat 45)
      (String (Ascii.ascii_of_nat 45) (String (Ascii.ascii_of_nat 10) ""))))).

Definition formatSpec (r : list FuncResult) (separator : string) : string :=
  Join (withoutRepeats (formattedStrings r))
       (if decide (separator = "") then specSeparator else separator).

End Execution.

(** ** Package handler *)

Module Handler.

Definition UnprocessableRequestPrompt : string :=
  "Unable to process this request. Please rephrase or provide a different query.".

Definition UnprocessableRequestExecutions : Execution.Result :=
  Execution.mkResult
    [Execution.mkExecutedFuncCall
       "__builtin__.unprocessable_request"
       "Return a response for an unprocessable request"
       []
       (Execution.mkFuncResult false JNull
          (Some (fun _ => (UnprocessableRequestPrompt, None))) JNull)].

Record ProcessingResult : Type := mkProcessingResult { Execution_ : Execution.Result }.

(** The errors [ProcessUserRequest] can return: those of the packages it
    calls, wrapped with [%w] in a context string. *)
Inductive Error : Type :=
| ErrMessage (message : string)
| ErrParser (e : Parser.Error)
| ErrExecution (e : Execution.Error)
| ErrWrapped (context : string) (inner : Error).

Section Runtime.
Context `{GoRuntime}.

(** An [llm.Message] is a role and a content. *)
Definition Message : Type := string * string.

Record RequestHandlerConfig : Type := mkRequestHandlerConfig {
  (** [LLMClient.Complete(messages, schema)] *)
  Complete : list Message -> string -> World -> result string string * World;
  (** [Tools.AvailableTools()] *)
  AvailableTools : Tools.ToolSet;
  AlterUserRequest : option (string -> string);
  (** [AlterResult] gets a pointer to the result and may change it in place. *)
  AlterResult : option (ProcessingResult -> result string ProcessingResult)
}.

Record RequestHandler : Type := mkRequestHandler {
  config : RequestHandlerConfig;
  orchestrator : Execution.Orchestrator
}.

(** The message after the [AlterUserRequest] hook, if there is one. *)
Definition altered (a : RequestHandler) (message : string) : string :=
  match AlterUserRequest (config a) with
  | Some alter => alter message
  | None => message
  end.

(** Text the handler only passes on: the rendered prompts and schemas, the
    decoder of the plan and of the verdict, and [executeConcurrent], whose
    outcome depends on how the goroutines are scheduled. *)
Variable CreatePromptForFuncCalls : Tools.ToolSet -> result string string.
Variable renderSchema : json -> string.
Variable unmarshalMainFunctions : string -> result string (list json).
Variable evaluationPrompt : string -> Parser.PlannedFuncCall -> Tools.ToolSet -> result string string.
Variable evaluationSchema : string.
Variable unmarshalSuccess : string -> result string bool.
Variable executeConcurrent :
  Execution.Orchestrator -> list Parser.PlannedFuncCall -> Execution.State ->
  result Execution.Error Execution.Result * Execution.State.

Definition Execute (o : Execution.Orchestrator) (functions : list Parser.PlannedFuncCall)
    (st : Execution.State) : result Execution.Error Execution.Result * Execution.State :=
  if Execution.EnableConcurrentExec o then executeConcurrent o functions st
  else Execution.executeSeq o functions st.

Definition withWorld (st : Execution.State) (w : World) : Execution.State :=
  Execution.mkState (Execution.Memo st) w (Execution.trace st).

Definition generateFunctionCalls (a : RequestHandler) (message : string) (st : Execution.State)
  : result Error (list Parser.PlannedFuncCall) * Execution.State :=
  match CreatePromptForFuncCalls (AvailableTools (config a)) with
  | Err e => (Err (ErrWrapped "error generating system prompt" (ErrMessage e)), st)
  | Ok systemPrompt =>
      match Tools.toJSONSchema (AvailableTools (config a)) with
      | Err e => (Err (ErrWrapped "failed to generate JSON schema" (ErrMessage e)), st)
      | Ok jsonSchema =>
          match Complete (config a) [("system", systemPrompt); ("user", message)]
                  (renderSchema jsonSchema) (Execution.world st) with
          | (Err e, w) => (Err (ErrWrapped "error calling LLM" (ErrMessage e)), withWorld st w)
          | (Ok funcCallsCompletion, w) =>
              (match Parser.ParseJsonFunctions unmarshalMainFunctions funcCallsCompletion with
               | Err e => Err (ErrParser e)
               | Ok calls => Ok calls
               end, withWorld st w)
          end
      end
  end.

Definition evaluateSingleFunctionCall (a : RequestHandler) (message : string)
    (function : Parser.PlannedFuncCall) (usedTools : Tools.ToolSet) (st : Execution.State)
  : result Error bool * Execution.State :=
  match evaluationPrompt message function usedTools with
  | Err e => (Err (ErrMessage e), st)
  | Ok userPrompt =>
      match Complete (config a) [("user", userPrompt)] evaluationSchema (Execution.world st) with
      | (Err e, w) =>
          (Err (ErrWrapped "error generating response for self-validation" (ErrMessage e)),
           withWorld st w)
      | (Ok body, w) =>
          (match unmarshalSuccess body with
           | Err e => Err (ErrWrapped "error unmarshaling JSON" (ErrMessage e))
           | Ok success => Ok success
           end, withWorld st w)
      end
  end.

(** The inner loop of [evaluateFuncCallsConsistency]: the definitions of the
    tools a plan entry names. *)
Fixpoint collectUsedTools (at_ : Tools.ToolSet) (usedToolsName : list string)
    (usedTools : list Tools.FuncDefinition) : result Error (list Tools.FuncDefinition) :=
  match usedToolsName with
  | [] => Ok usedTools
  | toolName :: rest =>
      match Tools.FindTool at_ toolName with
      | Some tool => collectUsedTools at_ rest (usedTools ++ [tool])
      | None => Err (ErrMessage ("tool " +:+ toolName +:+ " not found"))
      end
  end.

(** The outer loop of [evaluateFuncCallsConsistency]. *)
Fixpoint evaluateLoop (a : RequestHandler) (message : string)
    (funcCalls : list Parser.PlannedFuncCall) (kept : list Parser.PlannedFuncCall)
    (st : Execution.State) : result Error (list Parser.PlannedFuncCall) * Execution.State :=
  match funcCalls with
  | [] => (Ok kept, st)
  | function :: rest =>
      let at_ := AvailableTools (config a) in
      match collectUsedTools at_ (Parser.CollectAllNestedFuncCalls function) [] with
      | Err e => (Err e, st)
      | Ok usedTools =>
          let usedToolSet := Tools.mkToolSet usedTools (Tools.TypeDefinitions at_) in
          match evaluateSingleFunctionCall a message function usedToolSet st with
          | (Err e, st') => (Err e, st')
          | (Ok isConsistent, st') =>
              evaluateLoop a message rest (if isConsistent then kept ++ [function] else kept) st'
          end
      end
  end.

Definition evaluateFuncCallsConsistency (a : RequestHandler) (message : string)
    (funcCalls : list Parser.PlannedFuncCall) (st : Execution.State)
  : result Error (list Parser.PlannedFuncCall) * Execution.State :=
  match funcCalls with
  | [] => (Ok [], st)
  | _ => evaluateLoop a message funcCalls [] st
  end.

Definition executeFunctionCalls (a : RequestHandler) (funcCalls : list Parser.PlannedFuncCall)
    (st : Execution.State) : result Error Execution.Result * Execution.State :=
  match funcCalls with
  | [] => (Err (ErrMessage "no function calls to execute"), st)
  | _ =>
      match Execute (orchestrator a) funcCalls st with
      | (Err e, st') => (Err (ErrExecution e), st')
      | (Ok exec, st') => (Ok exec, st')
      end
  end.

Definition ProcessUserRequest (a : RequestHandler) (message : string) (st : Execution.State)
  : result Error ProcessingResult * Execution.State :=
  let message := altered a message in
  match generateFunctionCalls a message st with
  | (Err e, st1) => (Err (ErrWrapped "error generating function calls" e), st1)
  | (Ok funcCalls, st1) =>
      match evaluateFuncCallsConsistency a message funcCalls st1 with
      | (Err e, st2) =>
          (Err (ErrWrapped "error evaluating function calls consistency" e), st2)
      | (Ok funcCalls, st2) =>
          match funcCalls with
          | [] => (Ok (mkProcessingResult UnprocessableRequestExecutions), st2)
          | _ =>
              match executeFunctionCalls a funcCalls st2 with
              | (Err e, st3) => (Err (ErrWrapped "error executing functions" e), st3)
              | (Ok exec, st3) =>
                  match AlterResult (config a) with
                  | Some alter =>
                      match alter (mkProcessingResult exec) with
                      | Err e => (Err (ErrWrapped "error on altering result" (ErrMessage e)), st3)
                      | Ok altered => (Ok altered, st3)
                      end
                  | None => (Ok (mkProcessingResult exec), st3)
                  end
              end
          end
      end
  end.

End Runtime.

End Handler.

(** ** The example tools of the repository

    [examples/eolo]: [get_coordinates] and [get_weather_forecast], the plan of
    scenario E1, and executors that answer as the example's do. *)

Module Eolo.

Definition plain (ty description : string) : Tools.TypeInfo :=
  Tools.mkTypeInfo ty description None None [] [] "".

Definition coordinates_value : Tools.TypeInfo :=
  Tools.mkTypeInfo "object" "" None
    (Some [("lat", plain "number" "Latitude of the location");
           ("lon", plain "number" "Longitude of the location")])
    [] [] "".

Definition weather_forecast_value : Tools.TypeInfo :=
  Tools.mkTypeInfo "object" "" None
    (Some [("temperature",
            Tools.mkTypeInfo "array" "List of hourly temperatures." (Some (plain "number" ""))
              None [] [] "");
           ("windspeed",
            Tools.mkTypeInfo "array" "List of hourly wind speeds (km/h)." (Some (plain "number" ""))
              None [] [] "")])
    [] [] "".

Definition get_coordinates : Tools.FuncDefinition :=
  Tools.mkFuncDefinition "get_coordinates"
    "Retrieve the latitude and longitude for a given location (city name)."
    (Tools.mkTypeInfo "object" "" None
       (Some [("city", plain "string" "The city name, e.g. Berlin, London, New York City")])
       ["city"] [] "")
    (Tools.typeNamed "coordinates_value").

Definition get_weather_forecast : Tools.FuncDefinition :=
  Tools.mkFuncDefinition "get_weather_forecast"
    "Retrieve the weather forecast for a given location (latitude and longitude)."
    (Tools.mkTypeInfo "object" "" None
       (Some [("coordinates",
               plain "coordinates_value" "The latitude and longitude of the location.")])
       ["coordinates"] [] "")
    (Tools.typeNamed "weather_forecast_value").

Definition typeDefinitions : gomap Tools.TypeInfo :=
  [("coordinates_value", coordinates_value);
   ("weather_forecast_value", weather_forecast_value)].

Definition AvailableTools : Tools.ToolSet :=
  Tools.mkToolSet [get_coordinates; get_weather_forecast] typeDefinitions.

(** The tool set with [get_weather_forecast] alone, as the handler scopes it
    for a plan that names no other tool: [coordinates_value] is still an
    argument type, and no function returns it. *)
Definition forecastOnly : Tools.ToolSet :=
  Tools.mkToolSet [get_weather_forecast] typeDefinitions.

(** The decoded plan of scenario E1, from the [func_call] member inwards. *)
Definition e1_nested : json :=
  JObj [("get_coordinates",
         JObj [("purpose", JStr "locate the city");
               ("args", JObj [("city", JStr "Turin")])])].

Definition e1_args : gomap json :=
  [("coordinates", JObj [("func_call", e1_nested)])].

(** Decoded arguments with empty strings at the top and further inside. *)
Definition mixed_args : gomap json :=
  [("city", JStr "");
   ("tags", JArr [JStr ""; JStr "x"]);
   ("filter", JObj [("name", JStr "")])].

(** [get_coordinates(city = "Turin")] *)
Definition coordinatesOfTurin : Parser.PlannedFuncCall :=
  Parser.mkPlannedFuncCall "get_coordinates" "locate the city"
    [("city", Parser.Literal (JStr "Turin"))].

(** Scenario E1: [get_weather_forecast(coordinates = get_coordinates(city = "Turin"))] *)
Definition forecastForTurin : Parser.PlannedFuncCall :=
  Parser.mkPlannedFuncCall "get_weather_forecast" "forecast for the city"
    [("coordinates", Parser.Nested coordinatesOfTurin)].

(** [get_coordinates(city = "Turin", country = "Italy")], and the forecast
    for it, with the arguments listed in the two possible orders. *)
Definition coordinatesInItaly (cityFirst : bool) : Parser.PlannedFuncCall :=
  Parser.mkPlannedFuncCall "get_coordinates" "locate the city"
    (if cityFirst
     then [("city", Parser.Literal (JStr "Turin")); ("country", Parser.Literal (JStr "Italy"))]
     else [("country", Parser.Literal (JStr "Italy")); ("city", Parser.Literal (JStr "Turin"))]).

Definition forecastInItaly (cityFirst : bool) : Parser.PlannedFuncCall :=
  Parser.mkPlannedFuncCall "get_weather_forecast" "forecast for the city"
    [("coordinates", Parser.Nested (coordinatesInItaly cityFirst))].

(** Scenario E4: [get_coordinates] without its [city]. *)
Definition coordinatesOfNothing : Parser.PlannedFuncCall :=
  Parser.mkPlannedFuncCall "get_coordinates" "locate the city" [].

Definition turin : json :=
  JObj [("Lat", JNum 45%float); ("Lon", JNum 7.5%float)].

Definition found : Execution.FuncResult :=
  Execution.mkFuncResult true turin
    (Some (fun _ => ("Latitude: 45.000000, Longitude: 7.500000", None))) JNull.

(** What [GetCoordinates] returns when the geocoder knows no such place. *)
Definition locationNotFound : Execution.FormatFunc := fun _ => ("Location not found", None).

Definition notFound : Execution.FuncResult :=
  Execution.mkFuncResult false JNull (Some locationNotFound) JNull.

(** A result without data and without a [FormatFunc]. *)
Definition blank : Execution.FuncResult :=
  Execution.mkFuncResult false JNull None JNull.

Definition forecast : Execution.FuncResult :=
  Execution.mkFuncResult true (JObj [("temperature", JArr [JNum 21%float])])
    (Some (fun _ => ("Sunny, 21 degrees", None))) JNull.

Section Runtime.
Context `{GoRuntime}.

Definition answering (result : Execution.FuncResult) : Execution.FuncExecutor :=
  fun _ w => (Execution.Returned result, w).

(** A geocoder that cannot be reached. *)
Definition unavailable : Execution.FuncExecutor :=
  fun _ w => (Execution.Failed (Execution.ErrString "geocoder unavailable"), w).

Definition orchestratorWith (coordinates : Execution.FuncExecutor) : Execution.Orchestrator :=
  Execution.RegisterFunction
    (Execution.RegisterFunction
       (Execution.mkOrchestrator ∅ 30 false AvailableTools)
       "get_coordinates" coordinates)
    "get_weather_forecast" (answering forecast).

(** A handler over the example tools whose LLM always answers [completion]. *)
Definition handlerAnswering (completion : string) : Handler.RequestHandler :=
  Handler.mkRequestHandler
    (Handler.mkRequestHandlerConfig (fun _ _ w => (Ok completion, w)) AvailableTools None None)
    (orchestratorWith (answering found)).

End Runtime.

(** Scenario E2, decoded: a forecast for coordinates the request never gave. *)
Definition e2_main_functions : list json :=
  [JObj [("get_weather_forecast",
          JObj [("purpose", JStr "forecast");
                ("args", JObj [("coordinates",
                                JObj [("lat", JNum 0%float); ("lon", JNum 0%float)])])])]].

(** Results for [Format]: two that narrate, one silent, one whose
    [FormatFunc] fails. *)
Definition silent : Execution.FuncResult :=
  Execution.mkFuncResult true JNull None JNull.

(** The error of a template that cannot be rendered. *)
Definition templateError : Errors.error := Errors.errorString "template error".

Definition failing : Execution.FuncResult :=
  Execution.mkFuncResult true JNull (Some (fun _ => ("", Some templateError))) JNull.

(** A runtime to evaluate with: no outside world, and stand-ins for the hash
    and the encoders that keep their input readable. *)
Definition plainRuntime : GoRuntime :=
  {| World := unit;
     sha256Hex := fun data => data;
     quoteString := fun s => s;
     formatFloat := fun _ => "0" |}.

End Eolo.

(** ** Measures and shapes used by the statements below *)

Module Shapes.

(** The number of constructors of a decoded value. *)
Fixpoint json_size (j : json) : nat :=
  match j with
  | JArr items => S (sum_list (map json_size items))
  | JObj fields => S (sum_list (map (fun kv => json_size kv.2) fields))
  | _ => 1
  end.

(** A call tree whose argument maps have distinct keys at every depth. *)
Inductive wellKeyed : Parser.PlannedFuncCall -> Prop :=
| wellKeyed_call name purpose args :
    NoDup (keys args) ->
    (forall key call, (key, Parser.Nested call) ∈ args -> wellKeyed call) ->
    wellKeyed (Parser.mkPlannedFuncCall name purpose args).

(** An entry of [main_functions] and the call parsed from it. *)
Definition parsedFrom (entry : json) (call : Parser.PlannedFuncCall) : Prop :=
  exists details,
    entry = JObj [(Parser.Name call, details)] /\
    Parser.parseFuncDetails (Parser.Name call) details = Ok call.

End Shapes.

(** ** Relations between a plan and its execution *)

Module Runs.
Import Execution.

(** What the executor of a call receives for an argument of its map. *)
Definition materialized (arg : option Arg) : option json :=
  match arg with
  | Some (ValueArg v) => Some v
  | Some (FuncArg f) => if Present (Result_ f) then Some (Value (Result_ f)) else None
  | None => None
  end.

(** The executed call has the name, the purpose and the arguments of the
    planned call: a literal where the plan has a literal, an executed call
    that mirrors the nested call where the plan nests one. *)
Unset Elimination Schemes.
Inductive mirrors : Parser.PlannedFuncCall -> ExecutedFuncCall -> Prop :=
| mirrors_call name purpose fargs args result :
    (forall key, mget key fargs = None -> mget key args = None) ->
    (forall key v, mget key fargs = Some (Parser.Literal v) ->
                   mget key args = Some (ValueArg v)) ->
    (forall key call, mget key fargs = Some (Parser.Nested call) ->
                      exists child, mget key args = Some (FuncArg child) /\ mirrors call child) ->
    mirrors (Parser.mkPlannedFuncCall name purpose fargs)
            (mkExecutedFuncCall name purpose args result).
Set Elimination Schemes.

(** [function.Args] is a Go map, and [processArgs] ranges over it: two
    executions of one plan may meet the arguments of a call in two orders.
    [relisted call1 call2]: the calls have the same name and purpose, and
    their argument maps, each with distinct keys, hold the same literals and,
    under the same keys, nested calls that are relisted in turn: one planned
    call, as two executions may list it. *)
Unset Elimination Schemes.
Inductive relisted : Parser.PlannedFuncCall -> Parser.PlannedFuncCall -> Prop :=
| relisted_call name purpose fargs1 fargs2 :
    NoDup (keys fargs1) -> NoDup (keys fargs2) ->
    (forall key, mget key fargs1 = None -> mget key fargs2 = None) ->
    (forall key v, mget key fargs1 = Some (Parser.Literal v) ->
                   mget key fargs2 = Some (Parser.Literal v)) ->
    (forall key call1, mget key fargs1 = Some (Parser.Nested call1) ->
                       exists call2, mget key fargs2 = Some (Parser.Nested call2)
                                     /\ relisted call1 call2) ->
    relisted (Parser.mkPlannedFuncCall name purpose fargs1)
             (Parser.mkPlannedFuncCall name purpose fargs2).

(** Two executed calls with the same name, purpose and result, whose
    argument maps hold the same values and, under the same keys, executed
    calls that are the same in this sense: equal up to the order in which
    the argument maps were filled. *)
Inductive sameExecution : ExecutedFuncCall -> ExecutedFuncCall -> Prop :=
| sameExecution_call name purpose args1 args2 result :
    (forall key, mget key args1 = None -> mget key args2 = None) ->
    (forall key v, mget key args1 = Some (ValueArg v) -> mget key args2 = Some (ValueArg v)) ->
    (forall key child1, mget key args1 = Some (FuncArg child1) ->
                        exists child2, mget key args2 = Some (FuncArg child2)
                                       /\ sameExecution child1 child2) ->
    sameExecution (mkExecutedFuncCall name purpose args1 result)
                  (mkExecutedFuncCall name purpose args2 result).
Set Elimination Schemes.

(** The argument maps of two executions of one call. *)
Definition sameArgs (args1 args2 : gomap Arg) : Prop :=
  (forall key, mget key args1 = None -> mget key args2 = None)
  /\ (forall key v, mget key args1 = Some (ValueArg v) -> mget key args2 = Some (ValueArg v))
  /\ (forall key child1, mget key args1 = Some (FuncArg child1) ->
                         exists child2, mget key args2 = Some (FuncArg child2)
                                        /\ sameExecution child1 child2).

Section Runtime.
Context `{GoRuntime}.

(** From [st] to [st'] the memo only grew, and every call whose executor
    ran in between and returns a result on its arguments has that result in
    the memo of [st'], under its fingerprint. *)
Definition answersKept (o : Orchestrator) (st st' : State) : Prop :=
  exists tr,
    trace st' = trace st ++ tr
    /\ Memo st ⊆ Memo st'
    /\ forall name args (executor : FuncExecutor) w r,
         (name, args) ∈ invoked tr ->
         Functions o !! name = Some executor ->
         (executor args w).1 = Returned r ->
         Memo st' !! generateFingerprint name args = Some r.

(** A name with an executor and a schema. *)
Definition registered (o : Orchestrator) (name : string) : Prop :=
  is_Some (Functions o !! name) /\ is_Some (Tools.FindTool (ToolSet o) name).

(** A call to a registered function that gives a value to every parameter
    its schema requires. *)
Definition wellFormedInvocation (o : Orchestrator) (call : string * gomap json) : Prop :=
  exists functionSchema,
    registered o call.1 /\
    Tools.FindTool (ToolSet o) call.1 = Some functionSchema /\
    forall paramName,
      paramName ∈ Tools.Required (Tools.Parameters functionSchema) ->
      is_Some (mget paramName call.2).

(** From [st] to [st'] the executors ran on well-formed invocations only. *)
Definition wellInvoked (o : Orchestrator) (st st' : State) : Prop :=
  exists tr, trace st' = trace st ++ tr /\ Forall (wellFormedInvocation o) (invoked tr).

(** [o2] has the tool set of [o] and an executor, the same or another, for
    every name [o] has one for: [o] after calls of [RegisterFunction]. *)
Definition reregistered (o o2 : Orchestrator) : Prop :=
  ToolSet o2 = ToolSet o
  /\ forall name, is_Some (Functions o !! name) -> is_Some (Functions o2 !! name).

(** The state [lookupOrInvoke] leaves when the executor, run on a memo
    miss, gave no result and ended in the world [w]. *)
Definition unanswered (function : Parser.PlannedFuncCall) (args : gomap Arg) (st : State)
    (w : World) : State :=
  let processedArgs := createProcessedArgs args in
  mkState (Memo st) w
    (trace (record (EvInvoke (Parser.Name function) processedArgs)
              (record (EvFingerprint (Parser.Name function) processedArgs) st))).

(** Why the run of [executeFunc] on [function] from [st] failed with the
    error [e] in the state [st'].  Every cause is a fact of that run:
    - the name has no executor;
    - the arguments listed before [key] were processed, and the nested call
      of [key], run from the state they left, failed with [inner];
    - all arguments were processed and the tool set has no schema;
    - all arguments were processed, and [paramName] is the first parameter
      of [Required] that [checkRequiredArg] rejects, with [inner];
    - all arguments were processed, no required parameter was rejected, the
      memo had no entry for the fingerprint, and the executor, run on the
      materialized arguments in the world of that state, failed with
      [inner], or timed out. *)
Inductive failure (o : Orchestrator) (function : Parser.PlannedFuncCall) (st : State)
  : Error -> State -> Prop :=
| unknown_function :
    Functions o !! Parser.Name function = None ->
    failure o function st
      (ErrCall (Parser.Name function) "" (ErrString "unknown function")) st
| nested_failure before key call after args sta inner st' :
    is_Some (Functions o !! Parser.Name function) ->
    Parser.Args function = before ++ (key, Parser.Nested call) :: after ->
    processArgsLoop (executeFunc o) (Parser.Name function) before [] st = (Ok args, sta) ->
    executeFunc o call sta = (Err inner, st') ->
    failure o function st (ErrCall (Parser.Name function) key inner) st'
| schema_not_found args st' :
    is_Some (Functions o !! Parser.Name function) ->
    processArgs o function st = (Ok args, st') ->
    Tools.FindTool (ToolSet o) (Parser.Name function) = None ->
    failure o function st
      (ErrString ("function schema not found for " +:+ Parser.Name function)) st'
| required_missing functionSchema args passed paramName rest inner st' :
    is_Some (Functions o !! Parser.Name function) ->
    processArgs o function st = (Ok args, st') ->
    Tools.FindTool (ToolSet o) (Parser.Name function) = Some functionSchema ->
    Tools.Required (Tools.Parameters functionSchema) = passed ++ paramName :: rest ->
    (forall p, p ∈ passed -> checkRequiredArg p args = None) ->
    checkRequiredArg paramName args = Some inner ->
    failure o function st (ErrCall (Parser.Name function) paramName inner) st'
| executor_failed (executor : FuncExecutor) args st1 inner w :
    Functions o !! Parser.Name function = Some executor ->
    processArgs o function st = (Ok args, st1) ->
    checkRequiredArgs o function args = None ->
    Memo st1 !! generateFingerprint (Parser.Name function) (createProcessedArgs args) = None ->
    executor (createProcessedArgs args) (world st1) = (Failed inner, w) ->
    failure o function st (ErrCall (Parser.Name function) "" inner)
      (unanswered function args st1 w)
| executor_timed_out (executor : FuncExecutor) args st1 w :
    Functions o !! Parser.Name function = Some executor ->
    processArgs o function st = (Ok args, st1) ->
    checkRequiredArgs o function args = None ->
    Memo st1 !! generateFingerprint (Parser.Name function) (createProcessedArgs args) = None ->
    executor (createProcessedArgs args) (world st1) = (TimedOut, w) ->
    failure o function st
      (ErrCall (Parser.Name function) "" (ErrString "function execution timed out"))
      (unanswered function args st1 w).

End Runtime.
End Runs.

(** ** The generated schema as a whole *)

Module Schemas.
Import Tools.

(** Induction over a type description: a property of a type may rely on the
    same property of its items and of its properties. *)
Section TypeTree.
Variable P : TypeInfo -> Prop.

Definition onItems (items : option TypeInfo) : Prop :=
  match items with
  | Some it => P it
  | None => True
  end.

Definition onProperties (properties : option (gomap TypeInfo)) : Prop :=
  match properties with
  | Some props => Forall (fun kv => P kv.2) props
  | None => True
  end.

Hypothesis HInfo : forall ty description items properties required enum pattern,
  onItems items -> onProperties properties ->
  P (mkTypeInfo ty description items properties required enum pattern).

Fixpoint TypeInfo_ind (t : TypeInfo) : P t :=
  let 'mkTypeInfo ty description items properties required enum pattern := t in
  HInfo ty description items properties required enum pattern
    (match items as i return onItems i with
     | Some it => TypeInfo_ind it
     | None => I
     end)
    (match properties as p return onProperties p with
     | Some props =>
         (fix go (l : gomap TypeInfo) : Forall (fun kv => P kv.2) l :=
            match l with
            | [] => @List.Forall_nil _ _
            | kv :: l' =>
                @List.Forall_cons _ (fun kv => P kv.2) kv l'
                  (match kv as kv0 return P kv0.2 with
                   | (_, info) => TypeInfo_ind info
                   end)
                  (go l')
            end) props
     | None => I
     end).
End TypeTree.

(** Every reference inside [schema] points to a member of [defs]. *)
Definition closed (schema : json) (defs : gomap json) : Prop :=
  forall target, target ∈ refTargets schema -> is_Some (mget target defs).

(** Every type of the dictionary that the parameters of some function use
    is the return type of some function. *)
Definition argumentTypesReturned (t : ToolSet) : Prop :=
  forall typeName,
    is_Some (mget typeName (TypeDefinitions t)) ->
    isUsedAsArgumentType t typeName = true ->
    exists function, function ∈ Functions t /\ Type_ (Returns function) = typeName.

(** The names of the functions of [t] that return [typeName], in the order
    of [t.Functions]. *)
Definition returning (t : ToolSet) (typeName : string) : list string :=
  fdName <$> filter (fun function => Type_ (Returns function) = typeName) (Functions t).

End Schemas.

(** ** Package [utils/orderedmap] *)

Module OrderedMap.

(** The values the package tells apart: an ordered map, a slice of values, a
    string, a slice of strings (not nil), and anything else, which goes to
    [json.Marshal].  A [Pair] is a key with its value; [Type] is the slice
    [Items]. *)
Unset Elimination Schemes.
Inductive Value : Type :=
| VMap (Items : list (string * Value))
| VArr (items : list Value)
| VStr (s : string)
| VStrs (l : list string)
| VOther (j : json).
Set Elimination Schemes.

Definition Map (pairs : list (string * Value)) : Value := VMap pairs.

(** Induction over a value: a property of a map or of a slice may rely on
    the same property of what it holds. *)
Section ValueTree.
Variable P : Value -> Prop.
Hypothesis HMap : forall Items, Forall (fun pair => P pair.2) Items -> P (VMap Items).
Hypothesis HArr : forall items, Forall P items -> P (VArr items).
Hypothesis HStr : forall s, P (VStr s).
Hypothesis HStrs : forall l, P (VStrs l).
Hypothesis HOther : forall j, P (VOther j).

Fixpoint Value_ind (v : Value) : P v :=
  match v with
  | VMap Items =>
      HMap Items
        ((fix go (l : list (string * Value)) : Forall (fun pair => P pair.2) l :=
            match l with
            | [] => @List.Forall_nil _ _
            | member :: l' =>
                @List.Forall_cons _ (fun pair => P pair.2) member l'
                  (match member as p return P p.2 with
                   | (_, value) => Value_ind value
                   end)
                  (go l')
            end) Items)
  | VArr items =>
      HArr items
        ((fix go (l : list Value) : Forall P l :=
            match l with
            | [] => @List.Forall_nil _ _
            | item :: l' => @List.Forall_cons _ P item l' (Value_ind item) (go l')
            end) items)
  | VStr s => HStr s
  | VStrs l => HStrs l
  | VOther j => HOther j
  end.
End ValueTree.

(** [strings.Repeat] *)
Fixpoint Repeat (s : string) (count : nat) : string :=
  match count with
  | 0 => ""
  | S n => s +:+ Repeat s n
  end.

Definition lf : string := String (Ascii.ascii_of_nat 10) "".

Section Runtime.
Context `{GoRuntime}.

Section Loops.
(** The loops of [MarshalJSONIndent] and of [marshalJSONArray] call back
    into [marshalJSONValue]; each appends to [buf], and writes the comma
    from the second round on. *)
Variable marshalJSONValue : Value -> nat -> string.
Variable nextIndentStr : string.
Variable indent : nat.

Fixpoint writePairs (i : nat) (pairs : list (string * Value)) (buf : string) : string :=
  match pairs with
  | [] => buf
  | (Key, value) :: rest =>
      let buf := if 0 <? i then buf +:+ "," +:+ lf else buf in
      let buf := buf +:+ nextIndentStr in
      let buf := buf +:+ quoteString Key in
      let buf := buf +:+ ": " in
      let buf := buf +:+ marshalJSONValue value (indent + 1) in
      writePairs (S i) rest buf
  end.

Fixpoint writeItems (i : nat) (arr : list Value) (buf : string) : string :=
  match arr with
  | [] => buf
  | item :: rest =>
      let buf := if 0 <? i then buf +:+ "," +:+ lf else buf in
      let buf := buf +:+ nextIndentStr in
      let buf := buf +:+ marshalJSONValue item (indent + 1) in
      writeItems (S i) rest buf
  end.
End Loops.

(** [marshalJSONValue], with [MarshalJSONIndent] and [marshalJSONArray] as
    its first two cases.  [json.Marshal] does not fail on a string, a slice
    of strings or a decoded JSON value, so no error is returned. *)
Fixpoint marshalJSONValue (v : Value) (indent : nat) : string :=
  match v with
  | VMap Items =>
      let indentStr := Repeat "    " indent in
      let nextIndentStr := Repeat "    " (indent + 1) in
      let buf := writePairs marshalJSONValue nextIndentStr indent 0 Items ("{" +:+ lf) in
      ((buf +:+ lf) +:+ indentStr) +:+ "}"
  | VArr arr =>
      let indentStr := Repeat "    " indent in
      let nextIndentStr := Repeat "    " (indent + 1) in
      let buf := writeItems marshalJSONValue nextIndentStr indent 0 arr ("[" +:+ lf) in
      ((buf +:+ lf) +:+ indentStr) +:+ "]"
  | VStr s => quoteString s
  | VStrs l => Execution.marshal (JArr (JStr <$> l))
  | VOther j => Execution.marshal j
  end.

Definition MarshalJSONIndent (om : list (string * Value)) (indent : nat) : string :=
  marshalJSONValue (VMap om) indent.

Definition MarshalJSON (om : list (string * Value)) : string := MarshalJSONIndent om 0.

End Runtime.

(** The three getters return the value of the first pair that has the key
    and a value of the type asked for. *)
Fixpoint getOrderedMapProperty (om : list (string * Value)) (key : string)
  : option (list (string * Value)) :=
  match om with
  | [] => None
  | (Key, value) :: rest =>
      if String.eqb Key key
      then match value with
           | VMap items => Some items
           | _ => getOrderedMapProperty rest key
           end
      else getOrderedMapProperty rest key
  end.

Fixpoint getStringProperty (om : list (string * Value)) (key : string) : option string :=
  match om with
  | [] => None
  | (Key, value) :: rest =>
      if String.eqb Key key
      then match value with
           | VStr s => Some s
           | _ => getStringProperty rest key
           end
      else getStringProperty rest key
  end.

Fixpoint getStringArrayProperty (om : list (string * Value)) (key : string)
  : option (list string) :=
  match om with
  | [] => None
  | (Key, value) :: rest =>
      if String.eqb Key key
      then match value with
           | VStrs l => Some l
           | _ => getStringArrayProperty rest key
           end
      else getStringArrayProperty rest key
  end.

(** *** The text, as a layout

    The members one per line, in the order of [Items], each one level
    deeper than the braces around them. *)
Section Layout.
Context `{GoRuntime}.

Definition block (open close : string) (indent : nat) (lines : list string) : string :=
  open +:+ lf
  +:+ String.concat ("," +:+ lf) ((fun line => Repeat "    " (indent + 1) +:+ line) <$> lines)
  +:+ lf +:+ Repeat "    " indent +:+ close.

Fixpoint layout (v : Value) (indent : nat) : string :=
  match v with
  | VMap Items =>
      block "{" "}" indent
        (map (fun pair => quoteString pair.1 +:+ ": " +:+ layout pair.2 (indent + 1)) Items)
  | VArr arr => block "[" "]" indent (map (fun item => layout item (indent + 1)) arr)
  | VStr s => quoteString s
  | VStrs l => Execution.marshal (JArr (JStr <$> l))
  | VOther j => Execution.marshal j
  end.
End Layout.

End OrderedMap.

(** ** Package [tools]: the definitions shown in the prompt *)

Module FuncDefs.
Import Tools.
Import OrderedMap.

(** [getType] calls itself on what the dictionary holds for a name; nothing
    bounds the number of these calls.  [fuel] bounds the depth of the calls;
    [None] is a call that has not returned within it. *)
Fixpoint getType (fuel : nat) (typeDefinitions : gomap TypeInfo) (typeInfo : TypeInfo)
  : option string :=
  match fuel with
  | 0 => None
  | S fuel =>
      match mget (Type_ typeInfo) typeDefinitions with
      | Some definition =>
          if String.eqb (Type_ definition) "object" then Some (Type_ typeInfo)
          else getType fuel typeDefinitions definition
      | None =>
          if String.eqb (Type_ typeInfo) "array"
          then match Items typeInfo with
               | Some items =>
                   match getType fuel typeDefinitions items with
                   | Some itemType => Some ("array of " +:+ itemType)
                   | None => None
                   end
               | None => Some (Type_ typeInfo)
               end
          else Some (Type_ typeInfo)
      end
  end.

Section PropertiesLoop.
(** The loop of [getTypeInfo] over [info.Properties] calls back into
    [getTypeInfo]. *)
Variable getTypeInfo : TypeInfo -> option (list (string * Value)).

Fixpoint propertiesLoop (properties : gomap TypeInfo) (props : list (string * Value))
  : option (list (string * Value)) :=
  match properties with
  | [] => Some props
  | (propName, propInfo) :: rest =>
      match getTypeInfo propInfo with
      | None => None
      | Some value => propertiesLoop rest (props ++ [(propName, VMap value)])
      end
  end.
End PropertiesLoop.

Fixpoint getTypeInfo (fuel : nat) (typeDefinitions : gomap TypeInfo) (info : TypeInfo)
  : option (list (string * Value)) :=
  let 'mkTypeInfo _ description _ properties required _ _ := info in
  match getType fuel typeDefinitions info with
  | None => None
  | Some type =>
      let simplifiedType := [("type", VStr type); ("description", VStr description)] in
      let simplifiedType :=
        match properties with
        | Some properties =>
            match propertiesLoop (getTypeInfo fuel typeDefinitions) properties [] with
            | None => None
            | Some props => Some (simplifiedType ++ [("properties", VMap props)])
            end
        | None => Some simplifiedType
        end in
      match simplifiedType with
      | None => None
      | Some simplifiedType =>
          Some (if notNil required
                then simplifiedType ++ [("required", VStrs required)]
                else simplifiedType)
      end
  end.

(** The loop of [generateToolsDefinition]: the slice under [Items[0]] is
    read with a type assertion, extended and written back.  [None] is a call
    that has not returned, or a failed assertion. *)
Fixpoint generateToolsLoop (fuel : nat) (t : ToolSet) (functions : list FuncDefinition)
    (simplifiedSchema : list (string * Value)) : option (list (string * Value)) :=
  match functions with
  | [] => Some simplifiedSchema
  | function :: rest =>
      match getTypeInfo fuel (TypeDefinitions t) (Parameters function) with
      | None => None
      | Some args =>
          let simplifiedFunction :=
            Map [("name", VStr (fdName function));
                 ("description", VStr (fdDescription function));
                 ("args", VMap args)] in
          match simplifiedSchema with
          | (Key, VArr functions) :: others =>
              generateToolsLoop fuel t rest
                ((Key, VArr (functions ++ [simplifiedFunction])) :: others)
          | _ => None
          end
      end
  end.

Definition generateToolsDefinition (fuel : nat) (t : ToolSet)
  : option (list (string * Value)) :=
  generateToolsLoop fuel t (Functions t) [("functions", VArr [])].

Section Runtime.
Context `{GoRuntime}.

Definition ToJSONDefinitions (fuel : nat) (t : ToolSet) : option string :=
  MarshalJSON <$> generateToolsDefinition fuel t.

End Runtime.

(** [ListTools] *)
Definition ListTools (t : ToolSet) : string :=
  foldl (fun result function =>
           result +:+ (fdName function +:+ ": " +:+ fdDescription function +:+ lf))
        "" (Functions t).

(** *** Aliases

    A name of the dictionary whose definition is not an object stands for
    the type of its definition. *)
Definition aliasOf (typeDefinitions : gomap TypeInfo) (name target : string) : Prop :=
  exists definition,
    mget name typeDefinitions = Some definition
    /\ Type_ definition = target /\ target ≠ "object".

(** A name that leads back to itself through aliases. *)
Definition cyclic (typeDefinitions : gomap TypeInfo) (name : string) : Prop :=
  tc (aliasOf typeDefinitions) name name.

(** The nesting of [Items] inside a type. *)
Fixpoint itemsDepth (info : TypeInfo) : nat :=
  let 'mkTypeInfo _ _ items _ _ _ _ := info in
  match items with
  | Some it => S (itemsDepth it)
  | None => 0
  end.

(** The entry of [functions] written for a function. *)
Definition describes (fuel : nat) (t : ToolSet) (function : FuncDefinition) (entry : Value)
  : Prop :=
  exists args,
    getTypeInfo fuel (TypeDefinitions t) (Parameters function) = Some args
    /\ entry = Map [("name", VStr (fdName function));
                    ("description", VStr (fdDescription function));
                    ("args", VMap args)].

(** A dictionary without aliases: every name stands for an object. *)
Definition objectsOnly (typeDefinitions : gomap TypeInfo) : Prop :=
  forall name definition,
    mget name typeDefinitions = Some definition -> Type_ definition = "object".

End FuncDefs.

(** ** Package [llamacpp] *)

Module LlamaCpp.

(** How a call ends: it returns a value, returns an error, ends the process
    through [log.Fatalf], or panics. *)
Inductive Outcome (A : Type) : Type :=
| Return (a : A)
| Fail (err : string)
| Fatal (message : string)
| Panic (message : string).
Arguments Return {A} a.
Arguments Fail {A} err.
Arguments Fatal {A} message.
Arguments Panic {A} message.

Record Config : Type := mkConfig {
  Endpoint : string;
  APIKey : string;
  Model : string;
  Temperature : float;
  TopP : float;
  MaxTokens : nat;
  UseGrammar : bool
}.

Record Message : Type := mkMessage { Role : string; Content : string }.

(** [CompletionRequest]; [Grammar] is left out of the body when empty. *)
Record CompletionRequest : Type := mkCompletionRequest {
  rqModel : string;
  rqMessages : list Message;
  rqTemperature : float;
  rqTopP : float;
  rqMaxTokens : nat;
  rqSeed : nat;
  rqGrammar : string
}.

(** What the HTTP exchange comes to: the request could not be built, it was
    sent and no response came, the body could not be read, or a status with
    a body. *)
Inductive HttpResult : Type :=
| RequestError (err : string)
| TransportError (err : string)
| BodyError (err : string)
| Response (StatusCode : nat) (body : string).

Section Runtime.
Context `{GoRuntime}.

Inductive Event : Type :=
| EvPython (input : string)
| EvRequest (request : CompletionRequest).

(** The global [grammarCache], the world, and the events so far. *)
Record State : Type := mkState {
  grammarCache : gmap string string;
  world : World;
  trace : list Event
}.

Section Ordering.
Variable orderJSON : json -> json.

(** The second loop of the map case of [orderJSON], over the sorted keys. *)
Fixpoint orderLoop (v : gomap json) (keys : list string) (newMap : gomap json) : gomap json :=
  match keys with
  | [] => newMap
  | k :: rest =>
      orderLoop v rest
        (mget_with k (fun item => mset k (orderJSON item) newMap) (mset k JNull newMap) v)
  end.
End Ordering.

Fixpoint orderJSON (data : json) : json :=
  match data with
  | JObj v => JObj (orderLoop orderJSON v (merge_sort String.le (keys v)) [])
  | JArr v => JArr (map orderJSON v)
  | _ => data
  end.

(** The library and the outside: [json.Unmarshal] into an [interface{}],
    the python script, the HTTP exchange, the decoder of the response (the
    contents of its choices), and the regular expression of
    [removeControlTokens]. *)
Variable unmarshal : string -> result string json.
Variable runPythonCommand : string -> World -> result string string * World.
Variable Do : Config -> CompletionRequest -> World -> HttpResult * World.
Variable unmarshalChoices : string -> result string (list string).
Variable removeControlTokens : string -> string.

Definition calculateFingerprint (str : string) : result string string :=
  match unmarshal str with
  | Err err => Err ("failed to unmarshal JSON: " +:+ err)
  | Ok data => Ok (sha256Hex (Execution.marshal (orderJSON data)))
  end.

Definition jsonSchemaToGrammar (jsonSchema : string) (st : State)
  : result string string * State :=
  match calculateFingerprint jsonSchema with
  | Err err => (Err ("failed to calculate fingerprint: " +:+ err), st)
  | Ok hash =>
      match grammarCache st !! hash with
      | Some grammar => (Ok grammar, st)
      | None =>
          let st := mkState (grammarCache st) (world st) (trace st ++ [EvPython jsonSchema]) in
          match runPythonCommand jsonSchema (world st) with
          | (Err err, w) =>
              (Err ("failed to run Python command: " +:+ err),
               mkState (grammarCache st) w (trace st))
          | (Ok grammar, w) =>
              (Ok grammar, mkState (<[hash := grammar]> (grammarCache st)) w (trace st))
          end
      end
  end.

Definition getCompletionResponse (c : Config) (messages : list Message) (grammar : string)
    (st : State) : Outcome (list string) * State :=
  let requestBody :=
    mkCompletionRequest (Model c) messages (Temperature c) (TopP c) (MaxTokens c) 42
      (if UseGrammar c && negb (String.eqb grammar "") then grammar else "") in
  let sent := trace st ++ [EvRequest requestBody] in
  match Do c requestBody (world st) with
  | (RequestError err, w) =>
      (Fail ("error creating request: " +:+ err), mkState (grammarCache st) w (trace st))
  | (TransportError err, w) =>
      (Fail ("error making API request: " +:+ err), mkState (grammarCache st) w sent)
  | (BodyError err, w) =>
      (Fail ("error reading response body: " +:+ err), mkState (grammarCache st) w sent)
  | (Response StatusCode body, w) =>
      let st := mkState (grammarCache st) w sent in
      if negb (StatusCode =? 200) then (Fatal ("Error response: " +:+ body), st)
      else match unmarshalChoices body with
           | Err err => (Fail ("error unmarshalling JSON: " +:+ err), st)
           | Ok choices => (Return choices, st)
           end
  end.

Definition complete (c : Config) (messages : list Message) (grammar : string) (st : State)
  : Outcome string * State :=
  match getCompletionResponse c messages grammar st with
  | (Return choices, st) =>
      match choices with
      | first :: _ => (Return (removeControlTokens first), st)
      | [] => (Panic "index out of range [0] with length 0", st)
      end
  | (Fail err, st) => (Fatal ("Error getting completion response: " +:+ err), st)
  | (Fatal message, st) => (Fatal message, st)
  | (Panic message, st) => (Panic message, st)
  end.

Definition Complete (c : Config) (messages : list (string * string)) (jsonSchema : string)
    (st : State) : Outcome string * State :=
  let conversation := map (fun m => mkMessage m.1 m.2) messages in
  if String.eqb jsonSchema "" || negb (UseGrammar c) then complete c conversation "" st
  else
    match jsonSchemaToGrammar jsonSchema st with
    | (Err err, st) => (Fail ("error converting JSON schema to grammar: " +:+ err), st)
    | (Ok grammar, st) => complete c conversation grammar st
    end.

(** The events of one call of [complete]: nothing, or one request with the
    given messages and grammar. *)
Definition atMostOneRequest (tr : list Event) (messages : list Message) (grammar : string)
  : Prop :=
  tr = []
  \/ exists request,
       tr = [EvRequest request] /\ rqMessages request = messages
       /\ rqGrammar request = grammar /\ rqSeed request = 42.

(** The inputs the python script ran on, and the requests sent. *)
Definition pythonRuns (tr : list Event) : list string :=
  omap (fun ev => match ev with EvPython input => Some input | EvRequest _ => None end) tr.

Definition requests (tr : list Event) : list CompletionRequest :=
  omap (fun ev => match ev with EvRequest r => Some r | EvPython _ => None end) tr.

End Runtime.
End LlamaCpp.

(** * Properties *)


(** ** Go maps *)

Module GoMapFacts.

Lemma mget_with_mget {V R} (k : string) (found : V -> R) (missing : R) (m : gomap V) :
  mget_with k found missing m =
  match mget k m with
  | Some v => found v
  | None => missing
  end.
Proof.
  induction m as [|[k' v] m IH]; simpl; [done|].
  by destruct (String.eqb k k').
Qed.

Lemma mget_mset_eq {V} (k : string) (v : V) (m : gomap V) :
  mget k (mset k v m) = Some v.
Proof.
  induction m as [|[k' v'] m IH]; simpl.
  - by rewrite String.eqb_refl.
  - destruct (String.eqb k k') eqn:E; simpl.
    + by rewrite String.eqb_refl.
    + by rewrite E.
Qed.

Lemma mget_mset_ne {V} (k k' : string) (v : V) (m : gomap V) :
  k ≠ k' -> mget k' (mset k v m) = mget k' m.
Proof.
  intros Hne. induction m as [|[k0 v0] m IH]; simpl.
  - destruct (String.eqb_spec k' k); [congruence|done].
  - destruct (String.eqb_spec k k0) as [->|Hk]; simpl.
    + destruct (String.eqb_spec k' k0); [congruence|done].
    + destruct (String.eqb_spec k' k0); [done|apply IH].
Qed.

Lemma mget_None {V} (k : string) (m : gomap V) :
  mget k m = None <-> k ∉ keys m.
Proof.
  unfold keys. induction m as [|[k' v] m IH]; simpl.
  - split; [intros _; apply not_elem_of_nil|done].
  - rewrite not_elem_of_cons.
    destruct (String.eqb_spec k k') as [->|Hk].
    + split; [done|]. by intros [? _].
    + rewrite IH. split; [done|]. by intros [_ ?].
Qed.

Lemma mget_Some_elem {V} (k : string) (v : V) (m : gomap V) :
  mget k m = Some v -> (k, v) ∈ m.
Proof.
  induction m as [|[k' v'] m IH]; simpl; [done|].
  destruct (String.eqb_spec k k') as [->|Hk].
  - intros [= ->]. apply elem_of_cons. by left.
  - intros Hm. apply elem_of_cons. right. by apply IH.
Qed.

Lemma elem_mget_Some {V} (k : string) (v : V) (m : gomap V) :
  NoDup (keys m) -> (k, v) ∈ m -> mget k m = Some v.
Proof.
  unfold keys. induction m as [|[k' v'] m IH]; simpl.
  - intros _ Hin. by apply elem_of_nil in Hin.
  - rewrite NoDup_cons. intros [Hk' Hnd] Hin.
    apply elem_of_cons in Hin as [[= -> ->]|Hin].
    + by rewrite String.eqb_refl.
    + destruct (String.eqb_spec k k') as [->|Hk]; [|by apply IH].
      exfalso. apply Hk'. apply list_elem_of_fmap. by exists (k', v).
Qed.

End GoMapFacts.

(** ** The plan parser *)

Module ParserFacts.
Import GoMapFacts.
Import Parser.
Import Eolo.

Section Entries.
Variable pfd : string -> json -> result Error PlannedFuncCall.

(** An entry of [args] touches no other key of the parsed mapping. *)
Lemma parseArg_other (key key' : string) (value : json) (acc acc' : gomap ArgValue) :
  parseArg pfd key value acc = Ok acc' -> key ≠ key' -> mget key' acc' = mget key' acc.
Proof.
  intros Hp Hne. destruct value as [| | |s| |v]; simpl in Hp;
    try (injection Hp as <-; by apply mget_mset_ne).
  - destruct (String.eqb s ""); injection Hp as <-; [done|by apply mget_mset_ne].
  - rewrite mget_with_mget in Hp.
    destruct (mget "func_call" v) as [[| | | | |funcCall]|];
      try (injection Hp as <-; by apply mget_mset_ne).
    destruct (parseNestedFunc pfd funcCall); [|done].
    injection Hp as <-. by apply mget_mset_ne.
Qed.

Lemma parseArgsLoop_absent (args : gomap json) (acc parsed : gomap ArgValue) (key : string) :
  parseArgsLoop pfd args acc = Ok parsed -> key ∉ keys args ->
  mget key parsed = mget key acc.
Proof.
  unfold keys. revert acc. induction args as [|[k v] args IH]; simpl; intros acc Hp Hk.
  - by injection Hp as <-.
  - apply not_elem_of_cons in Hk as [Hne Hk].
    destruct (parseArg pfd k v acc) as [acc1|] eqn:E; [|done].
    rewrite (IH _ Hp Hk). eapply parseArg_other; eauto.
Qed.

(** What the loop leaves under [key] is what the loop body stored there. *)
Lemma parseArgsLoop_entry (args : gomap json) (acc parsed : gomap ArgValue)
    (key : string) (value : json) :
  NoDup (keys args) -> (key, value) ∈ args -> parseArgsLoop pfd args acc = Ok parsed ->
  exists acc1 acc2,
    mget key acc1 = mget key acc /\
    parseArg pfd key value acc1 = Ok acc2 /\
    mget key parsed = mget key acc2.
Proof.
  unfold keys. revert acc. induction args as [|[k v] args IH]; simpl; intros acc Hnd Hin Hp.
  - by apply elem_of_nil in Hin.
  - apply NoDup_cons in Hnd as [Hk Hnd].
    destruct (parseArg pfd k v acc) as [acc1|] eqn:E; [|done].
    apply elem_of_cons in Hin as [[= -> ->]|Hin].
    + exists acc, acc1. split_and!; [done..|].
      by apply parseArgsLoop_absent with (args := args).
    + destruct (IH acc1 Hnd Hin Hp) as (a1 & a2 & H1 & H2 & H3).
      exists a1, a2. split_and!; [|done..].
      rewrite H1. eapply parseArg_other; [done|].
      intros ->. apply Hk. apply list_elem_of_fmap. by exists (key, value).
Qed.

(** An entry on which the loop body fails makes the whole loop fail. *)
Lemma parseArgsLoop_entry_fails (args : gomap json) (acc : gomap ArgValue)
    (key : string) (value : json) :
  (key, value) ∈ args -> (forall acc1, is_ok (parseArg pfd key value acc1) = false) ->
  is_ok (parseArgsLoop pfd args acc) = false.
Proof.
  revert acc. induction args as [|[k v] args IH]; simpl; intros acc Hin Hf.
  - by apply elem_of_nil in Hin.
  - apply elem_of_cons in Hin as [[= <- <-]|Hin].
    + specialize (Hf acc). by destruct (parseArg pfd key value acc).
    + destruct (parseArg pfd k v acc); [by apply IH|done].
Qed.

End Entries.

(** [parseFuncDetails] with the lookups of the source written as lookups. *)
Lemma parseFuncDetails_eq (funcName : string) (funcDetails : json) :
  parseFuncDetails funcName funcDetails =
  match funcDetails with
  | JObj detailsMap =>
      match mget "purpose" detailsMap with
      | Some (JStr purpose) =>
          match mget "args" detailsMap with
          | Some (JObj args) =>
              match parseArgs parseFuncDetails args with
              | Err e => Err e
              | Ok parsedArgs => Ok (mkPlannedFuncCall funcName purpose parsedArgs)
              end
          | _ => Err (ErrInvalidJSON "args not found or not a map")
          end
      | _ => Err (ErrInvalidJSON "purpose not found or not a string")
      end
  | _ => Err (ErrInvalidJSON "function details not a map")
  end.
Proof.
  destruct funcDetails as [| | | | |detailsMap]; try reflexivity.
  cbn [parseFuncDetails].
  destruct (mget "purpose" detailsMap) as [[| | |purpose| |]|]; try reflexivity.
  rewrite mget_with_mget.
  by destruct (mget "args" detailsMap) as [[| | | | |args]|].
Qed.

(** Scenario E1 from the decoded plan to the call tree. *)
Lemma parse_forecast_for_turin :
  parseMainFunctions
    [JObj [("get_weather_forecast",
            JObj [("purpose", JStr "forecast for the city");
                  ("args", JObj e1_args)])]] []
  = Ok [forecastForTurin].
Proof. reflexivity. Qed.

(** The loop body on an object that carries a [func_call] member. *)
Lemma parseArg_func_call (pfd : string -> json -> result Error PlannedFuncCall)
    (key : string) (v : gomap json) (fc : json) (acc : gomap ArgValue) :
  mget "func_call" v = Some fc ->
  parseArg pfd key (JObj v) acc =
  match fc with
  | JObj funcCall =>
      match parseNestedFunc pfd funcCall with
      | Err e => Err (ErrWrapped ("error parsing nested function for arg '" +:+ key +:+ "'") e)
      | Ok nestedFunc => Ok (mset key (Nested nestedFunc) acc)
      end
  | _ => Ok (mset key (Literal (JObj v)) acc)
  end.
Proof. intros Hfc. simpl. rewrite mget_with_mget, Hfc. by destruct fc. Qed.

(** C4, as the code has it.  For an argument [key] whose value is an object
    with a member [func_call]: when that member is a one-entry mapping the
    parser recurses into it, stores the nested call it obtains under [key],
    and fails when the entry itself does not parse; when it is a mapping with
    no entry or with several, parsing fails with the invalid-JSON error of
    [parseNestedFunc]; only when it is not a mapping at all is the object
    stored as it is, as a literal. *)
Theorem parseArgs_func_call_policy (args : gomap json) (key : string) (v : gomap json)
    (fc : json) :
  NoDup (keys args) ->
  mget key args = Some (JObj v) ->
  mget "func_call" v = Some fc ->
  match fc with
  | JObj [(funcName, funcDetails)] =>
      match parseFuncDetails funcName funcDetails with
      | Ok call =>
          (forall acc, parseArg parseFuncDetails key (JObj v) acc = Ok (mset key (Nested call) acc))
          /\ (forall parsed, parseArgs parseFuncDetails args = Ok parsed ->
                             mget key parsed = Some (Nested call))
      | Err e =>
          (forall acc, parseArg parseFuncDetails key (JObj v) acc =
             Err (ErrWrapped ("error parsing nested function for arg '" +:+ key +:+ "'")
                    (ErrWrapped ("error parsing nested function '" +:+ funcName +:+ "'") e)))
          /\ is_ok (parseArgs parseFuncDetails args) = false
      end
  | JObj _ =>
      (forall acc, parseArg parseFuncDetails key (JObj v) acc =
         Err (ErrWrapped ("error parsing nested function for arg '" +:+ key +:+ "'")
                (ErrInvalidJSON "nested function call should contain exactly one key-value pair")))
      /\ is_ok (parseArgs parseFuncDetails args) = false
  | _ =>
      (forall acc, parseArg parseFuncDetails key (JObj v) acc = Ok (mset key (Literal (JObj v)) acc))
      /\ (forall parsed, parseArgs parseFuncDetails args = Ok parsed ->
                         mget key parsed = Some (Literal (JObj v)))
  end.
Proof.
  intros Hnd Hkey Hfc.
  pose proof (mget_Some_elem _ _ _ Hkey) as Hin.
  assert (Hstored : forall x,
             (forall acc, parseArg parseFuncDetails key (JObj v) acc = Ok (mset key x acc)) ->
             forall parsed, parseArgs parseFuncDetails args = Ok parsed ->
                            mget key parsed = Some x).
  { intros x Hx parsed Hp.
    destruct (parseArgsLoop_entry _ _ _ _ _ _ Hnd Hin Hp) as (a1 & a2 & _ & H2 & ->).
    rewrite Hx in H2. injection H2 as <-. apply mget_mset_eq. }
  assert (Hfails : forall e,
             (forall acc, parseArg parseFuncDetails key (JObj v) acc = Err e) ->
             is_ok (parseArgs parseFuncDetails args) = false).
  { intros e He. eapply parseArgsLoop_entry_fails; [exact Hin|].
    intros acc1. by rewrite He. }
  pose proof (fun acc => parseArg_func_call parseFuncDetails key v fc acc Hfc) as Hbody.
  destruct fc as [| | | | |funcCall]; try (split; [exact Hbody|exact (Hstored _ Hbody)]).
  destruct funcCall as [|[funcName funcDetails] [|second rest]].
  - split; [exact Hbody|exact (Hfails _ Hbody)].
  - simpl in Hbody. destruct (parseFuncDetails funcName funcDetails) as [call|e].
    + split; [exact Hbody|exact (Hstored _ Hbody)].
    + split; [exact Hbody|exact (Hfails _ Hbody)].
  - split; [exact Hbody|exact (Hfails _ Hbody)].
Qed.

(** C10.  Of the entries of [args], the parser leaves out exactly those whose
    value is the empty string; an array, and an object that carries no
    [func_call] mapping, is stored whole, whatever strings it holds inside. *)
Theorem parseArgs_drops_only_empty_strings (args : gomap json) (parsed : gomap ArgValue) :
  NoDup (keys args) ->
  parseArgs parseFuncDetails args = Ok parsed ->
  forall key,
    (mget key parsed = None <-> mget key args = None \/ mget key args = Some (JStr ""))
    /\ (forall items, mget key args = Some (JArr items) ->
                      mget key parsed = Some (Literal (JArr items)))
    /\ (forall fields, mget key args = Some (JObj fields) ->
                       (forall funcCall, mget "func_call" fields <> Some (JObj funcCall)) ->
                       mget key parsed = Some (Literal (JObj fields))).
Proof.
  intros Hnd Hp key.
  assert (Hentry : forall value, mget key args = Some value ->
            exists acc1 acc2, mget key acc1 = None /\
              parseArg parseFuncDetails key value acc1 = Ok acc2 /\
              mget key parsed = mget key acc2).
  { intros value Hv. apply mget_Some_elem in Hv.
    destruct (parseArgsLoop_entry _ _ _ _ _ _ Hnd Hv Hp) as (a1 & a2 & H1 & H2 & H3).
    by exists a1, a2. }
  split_and!.
  - split.
    + intros Hnone. destruct (mget key args) as [value|] eqn:Hv; [right|by left].
      destruct (Hentry value eq_refl) as (a1 & a2 & H1 & H2 & H3).
      rewrite Hnone in H3.
      destruct value as [| | |s| |v]; simpl in H2;
        try (injection H2 as <-; by rewrite mget_mset_eq in H3).
      * destruct (String.eqb_spec s "") as [->|Hs]; [done|].
        injection H2 as <-. by rewrite mget_mset_eq in H3.
      * rewrite mget_with_mget in H2.
        destruct (mget "func_call" v) as [[| | | | |funcCall]|];
          try (injection H2 as <-; by rewrite mget_mset_eq in H3).
        destruct (parseNestedFunc parseFuncDetails funcCall); [|done].
        injection H2 as <-. by rewrite mget_mset_eq in H3.
    + intros [Hnone|Hempty].
      * apply mget_None in Hnone.
        by rewrite (parseArgsLoop_absent _ _ _ _ _ Hp Hnone).
      * destruct (Hentry _ Hempty) as (a1 & a2 & H1 & H2 & H3).
        simpl in H2. injection H2 as <-. by rewrite H3.
  - intros items Hv. destruct (Hentry _ Hv) as (a1 & a2 & H1 & H2 & H3).
    simpl in H2. injection H2 as <-. rewrite H3. apply mget_mset_eq.
  - intros fields Hv Hno. destruct (Hentry _ Hv) as (a1 & a2 & H1 & H2 & H3).
    simpl in H2. rewrite mget_with_mget in H2.
    destruct (mget "func_call" fields) as [[| | | | |funcCall]|];
      try (injection H2 as <-; rewrite H3; apply mget_mset_eq).
    by destruct (Hno funcCall).
Qed.

Lemma parseArgs_func_call_policy_witness :
  NoDup (keys e1_args)
  /\ mget "coordinates" e1_args = Some (JObj [("func_call", e1_nested)])
  /\ mget "func_call" [("func_call", e1_nested)] = Some e1_nested
  /\ forall parsed, parseArgs parseFuncDetails e1_args = Ok parsed ->
                    mget "coordinates" parsed = Some (Nested Eolo.coordinatesOfTurin).
Proof.
  assert (Hnd : NoDup (keys e1_args)) by apply NoDup_singleton.
  split_and!; [exact Hnd|reflexivity..|].
  exact (proj2 (parseArgs_func_call_policy e1_args "coordinates"
                  [("func_call", e1_nested)] e1_nested Hnd eq_refl eq_refl)).
Defined.

(** A [func_call] member that is a mapping without entries is not kept as a
    literal: the parser rejects the whole argument list. *)
Lemma parseArgs_rejects_empty_func_call :
  parseArgs parseFuncDetails [("a", JObj [("func_call", JObj [])])]
  = Err (ErrWrapped "error parsing nested function for arg 'a'"
           (ErrInvalidJSON "nested function call should contain exactly one key-value pair"))
  /\ parseArgs parseFuncDetails [("a", JObj [("func_call", JObj [])])]
     <> Ok [("a", Literal (JObj [("func_call", JObj [])]))].
Proof. split; [reflexivity|discriminate]. Qed.

(** The rejection is an [ErrInvalidJSON] for [errors.Is]. *)
Lemma rejected_func_call_is_invalid_json :
  match parseArgs parseFuncDetails [("a", JObj [("func_call", JObj [])])] with
  | Err e => isInvalidJSON e = true
  | Ok _ => False
  end.
Proof. reflexivity. Qed.

(** The same with two entries under [func_call]. *)
Lemma parseArgs_rejects_double_func_call :
  is_ok (parseArgs parseFuncDetails
           [("a", JObj [("func_call", JObj [("f", e1_nested); ("g", e1_nested)])])]) = false.
Proof. reflexivity. Qed.

Lemma parseArgs_drops_only_empty_strings_witness :
  NoDup (keys mixed_args)
  /\ parseArgs parseFuncDetails mixed_args
     = Ok [("tags", Literal (JArr [JStr ""; JStr "x"]));
           ("filter", Literal (JObj [("name", JStr "")]))]
  /\ mget "city" [("tags", Literal (JArr [JStr ""; JStr "x"]));
                  ("filter", Literal (JObj [("name", JStr "")]))] = None
  /\ mget "tags" [("tags", Literal (JArr [JStr ""; JStr "x"]));
                  ("filter", Literal (JObj [("name", JStr "")]))]
     = Some (Literal (JArr [JStr ""; JStr "x"])).
Proof.
  assert (Hnd : NoDup (keys mixed_args)) by compute_done.
  pose proof (parseArgs_drops_only_empty_strings mixed_args _ Hnd eq_refl) as Hthm.
  split_and!; [exact Hnd|reflexivity| |].
  - apply (proj1 (Hthm "city")). by right.
  - by apply (proj1 (proj2 (Hthm "tags"))).
Defined.

End ParserFacts.

(** ** Formatting of results *)

Module FormatFacts.
Import Execution.

Lemma formatLoop_ok (r : list FuncResult) (acc : list string) :
  (forall result ff, result ∈ r -> FormatFn result = Some ff -> (ff ()).2 = None) ->
  formatLoop r acc = Ok (acc ++ formattedStrings r).
Proof.
  revert acc. induction r as [|result r IH]; simpl; intros acc Hok.
  - by rewrite app_nil_r.
  - assert (Hrest : forall result' ff, result' ∈ r -> FormatFn result' = Some ff ->
                                       (ff ()).2 = None).
    { intros result' ff Hin. apply Hok. apply elem_of_cons. by right. }
    unfold formattedStrings. simpl.
    destruct (FormatFn result) as [ff|] eqn:Hff; simpl.
    + assert (Hnone : (ff ()).2 = None).
      { apply (Hok result); [apply elem_of_cons; by left|done]. }
      destruct (ff ()) as [buf err]. simpl in Hnone. subst err.
      rewrite IH by done. simpl. by rewrite <- app_assoc.
    + by apply IH.
Qed.

Lemma filter_seen_cons (seen : gset string) (s : string) (l : list string) :
  filter (fun s' => s' ∉ {[s]} ∪ seen) l
  = filter (fun s' => s' ∉ seen) (filter (fun s' => s' ≠ s) l).
Proof.
  induction l as [|x l IH]; [done|].
  rewrite !filter_cons. destruct (decide (x ≠ s)) as [Hx|Hx].
  - rewrite filter_cons. destruct (decide (x ∉ seen)) as [Hs|Hs].
    + rewrite decide_True by set_solver. by rewrite IH.
    + rewrite decide_False by set_solver. done.
  - rewrite decide_False by set_solver. done.
Qed.

Lemma filter_seen_elem (seen : gset string) (s : string) (l : list string) :
  s ∈ seen ->
  filter (fun s' => s' ∉ seen) (filter (fun s' => s' ≠ s) l) = filter (fun s' => s' ∉ seen) l.
Proof.
  intros Hs. induction l as [|x l IH]; [done|].
  rewrite !filter_cons. destruct (decide (x ≠ s)) as [Hx|Hx].
  - rewrite filter_cons. by rewrite IH.
  - apply dec_stable in Hx. subst x. by rewrite decide_False by (intros Hn; by apply Hn).
Qed.

(** The loop over [seen] and [unique] computes [withoutRepeats]. *)
Lemma uniqueLoop_spec (l : list string) (seen : gset string) (unique : list string) :
  uniqueLoop l seen unique = unique ++ filter (fun s => s ∉ seen) (withoutRepeats l).
Proof.
  revert seen unique. induction l as [|s l IH]; simpl; intros seen unique.
  - by rewrite app_nil_r.
  - rewrite filter_cons. destruct (decide (s ∈ seen)) as [Hs|Hs].
    + rewrite decide_False by (intros Hn; by apply Hn).
      rewrite IH. by rewrite filter_seen_elem.
    + rewrite decide_True by done.
      rewrite IH, <- app_assoc. simpl. by rewrite filter_seen_cons.
Qed.

Lemma filter_all {A} (P : A -> Prop) `{forall x, Decision (P x)} (l : list A) :
  (forall x, P x) -> filter P l = l.
Proof.
  intros HP. induction l as [|x l IH]; [done|].
  rewrite filter_cons, decide_True by done. by rewrite IH.
Qed.

(** [withoutRepeats] keeps every string once, and adds none. *)
Lemma withoutRepeats_elem (l : list string) (s : string) :
  s ∈ withoutRepeats l <-> s ∈ l.
Proof.
  induction l as [|x l IH]; simpl; [done|].
  rewrite !elem_of_cons, list_elem_of_filter, IH.
  destruct (decide (s = x)); naive_solver.
Qed.

Lemma withoutRepeats_NoDup (l : list string) : NoDup (withoutRepeats l).
Proof.
  induction l as [|x l IH]; simpl; [apply NoDup_nil_2|].
  apply NoDup_cons. split.
  - rewrite list_elem_of_filter. naive_solver.
  - by apply NoDup_filter.
Qed.

(** The default separator of the code is the one the specification names. *)
Lemma DefaultSeparator_specSeparator : DefaultSeparator = specSeparator.
Proof. reflexivity. Qed.

(** C7, amended.  When no [FormatFunc] returns an error, [Format] returns,
    without error, the strings of the results that have a [FormatFunc], in
    input order and with every string equal to an earlier one removed,
    joined by the separator, or by two line feeds, three hyphens and a line
    feed when the separator given is empty. *)
Theorem Format_refines_spec (r : list FuncResult) (separator : string) :
  (forall result ff, result ∈ r -> FormatFn result = Some ff -> (ff ()).2 = None) ->
  Format r separator = (formatSpec r separator, None).
Proof.
  intros Hok. unfold Format, formatSpec.
  rewrite formatLoop_ok by done. simpl.
  rewrite uniqueLoop_spec. simpl.
  rewrite filter_all by set_solver.
  destruct (String.eqb_spec separator "") as [->|Hsep].
  - rewrite decide_True by done. by rewrite DefaultSeparator_specSeparator.
  - by rewrite decide_False.
Qed.

(** C7 as worded fails: with a [FormatFunc] that returns an error, [Format]
    gives the empty string, not the join of the formatted strings. *)
Lemma Format_is_no_join_when_formatting_fails :
  let r := [Eolo.found; Eolo.failing] in
  (Format r ", ").1 = ""
  /\ formattedStrings r = ["Latitude: 45.000000, Longitude: 7.500000"; ""]
  /\ formatSpec r ", " = "Latitude: 45.000000, Longitude: 7.500000, "
  /\ (Format r ", ").1 ≠ formatSpec r ", ".
Proof. cbv zeta. split_and!; [reflexivity..|]. vm_compute. discriminate. Qed.

(** The first failure of a [FormatFunc] ends [formatLoop] with an error made
    of the text of that failure. *)
Lemma formatLoop_err (r : list FuncResult) (acc : list string) :
  (exists result ff, result ∈ r /\ FormatFn result = Some ff /\ is_Some (ff ()).2) ->
  exists before result after ff err,
    r = before ++ result :: after /\
    (forall earlier f, earlier ∈ before -> FormatFn earlier = Some f -> (f ()).2 = None) /\
    FormatFn result = Some ff /\ (ff ()).2 = Some err /\
    formatLoop r acc = Err (Errors.errorString ("error formatting result: " +:+ Errors.Error err)).
Proof.
  revert acc. induction r as [|x r IH]; intros acc Hfail.
  - destruct Hfail as (result & ff & Hin & _). by apply elem_of_nil in Hin.
  - simpl. destruct (FormatFn x) as [ffx|] eqn:Hx.
    + destruct (ffx ()) as [buf [err|]] eqn:Hrun.
      * exists [], x, r, ffx, err. split_and!; [done| |done| |done].
        -- intros earlier f Hin. by apply elem_of_nil in Hin.
        -- by rewrite Hrun.
      * destruct IH with (acc := acc ++ [buf])
          as (before & result & after & ff & err & -> & Hbefore & H1 & H2 & H3).
        { destruct Hfail as (result & ff & Hin & Hff & Herr).
          apply elem_of_cons in Hin as [->|Hin].
          - rewrite Hx in Hff. injection Hff as <-. rewrite Hrun in Herr.
            by destruct Herr.
          - by exists result, ff. }
        exists (x :: before), result, after, ff, err. split_and!; [done| |done..].
        intros earlier f Hin Hf. apply elem_of_cons in Hin as [->|Hin]; [|by eapply Hbefore].
        rewrite Hx in Hf. injection Hf as <-. by rewrite Hrun.
    + destruct IH with (acc := acc)
        as (before & result & after & ff & err & -> & Hbefore & H1 & H2 & H3).
      { destruct Hfail as (result & ff & Hin & Hff & Herr).
        apply elem_of_cons in Hin as [->|Hin]; [congruence|].
        by exists result, ff. }
      exists (x :: before), result, after, ff, err. split_and!; [done| |done..].
      intros earlier f Hin Hf. apply elem_of_cons in Hin as [->|Hin]; [congruence|].
      by eapply Hbefore.
Qed.

(** C9, amended.  When some result has a [FormatFunc] that returns an error,
    [Format] returns the empty string and a new error whose message is
    "error formatting result: " followed by the message of the first error a
    [FormatFunc] returned; the new error wraps nothing ([Unwrap] gives nil),
    and nothing of what was formatted before the failure is returned. *)
Theorem Format_error_no_partial_output (r : list FuncResult) (separator : string) :
  (exists result ff, result ∈ r /\ FormatFn result = Some ff /\ is_Some (ff ()).2) ->
  exists before result after ff err returned,
    r = before ++ result :: after /\
    (forall earlier f, earlier ∈ before -> FormatFn earlier = Some f -> (f ()).2 = None) /\
    FormatFn result = Some ff /\ (ff ()).2 = Some err /\
    Format r separator = ("", Some returned) /\
    Errors.Error returned = "error formatting result: " +:+ Errors.Error err /\
    Errors.Unwrap returned = None /\
    (forall target, ~ Errors.wraps returned target).
Proof.
  intros Hfail. unfold Format.
  destruct (formatLoop_err r [] Hfail)
    as (before & result & after & ff & err & Hr & Hb & H1 & H2 & H3).
  exists before, result, after, ff, err. eexists.
  rewrite H3. split_and!; [done..|].
  intros target Hin. by apply elem_of_nil in Hin.
Qed.

(** C9 as worded fails: the error [Format] returns does not wrap the error
    of the [FormatFunc]; it only repeats its text. *)
Lemma Format_error_wraps_nothing :
  let r := [Eolo.found; Eolo.failing; Eolo.forecast] in
  FormatFn Eolo.failing = Some (fun _ => ("", Some Eolo.templateError))
  /\ exists returned,
       Format r ", " = ("", Some returned)
       /\ returned = Errors.errorString "error formatting result: template error"
       /\ Errors.Unwrap returned = None
       /\ ~ Errors.wraps returned Eolo.templateError.
Proof.
  cbv zeta. split; [reflexivity|]. eexists. split_and!; [reflexivity..|].
  intros Hin. by apply elem_of_nil in Hin.
Qed.

(** Scenario E5 at the top level: two calls narrate the same coordinates,
    one result is silent. *)
Lemma Format_refines_spec_witness :
  let r := [Eolo.found; Eolo.silent; Eolo.forecast; Eolo.found] in
  (forall result ff, result ∈ r -> FormatFn result = Some ff -> (ff ()).2 = None)
  /\ Format r "" = (formatSpec r "", None)
  /\ formatSpec r ""
     = "Latitude: 45.000000, Longitude: 7.500000" +:+ specSeparator +:+ "Sunny, 21 degrees".
Proof.
  cbv zeta.
  assert (Hok : forall result ff,
             result ∈ [Eolo.found; Eolo.silent; Eolo.forecast; Eolo.found] ->
             FormatFn result = Some ff -> (ff ()).2 = None).
  { intros result ff Hin Hff.
    repeat (apply elem_of_cons in Hin as [->|Hin];
            [simpl in Hff; first [discriminate Hff|by injection Hff as <-]|]).
    by apply elem_of_nil in Hin. }
  split_and!; [exact Hok| |reflexivity].
  exact (Format_refines_spec _ "" Hok).
Defined.

Lemma Format_error_no_partial_output_witness :
  let r := [Eolo.found; Eolo.failing; Eolo.forecast] in
  (exists result ff, result ∈ r /\ FormatFn result = Some ff /\ is_Some (ff ()).2)
  /\ Format r ", "
     = ("", Some (Errors.errorString "error formatting result: template error"))
  /\ exists before result after ff err returned,
       r = before ++ result :: after /\
       (forall earlier f, earlier ∈ before -> FormatFn earlier = Some f -> (f ()).2 = None) /\
       FormatFn result = Some ff /\ (ff ()).2 = Some err /\
       Format r ", " = ("", Some returned) /\
       Errors.Error returned = "error formatting result: " +:+ Errors.Error err /\
       Errors.Unwrap returned = None /\
       (forall target, ~ Errors.wraps returned target).
Proof.
  cbv zeta.
  assert (Hfail : exists result ff,
             result ∈ [Eolo.found; Eolo.failing; Eolo.forecast] /\
             FormatFn result = Some ff /\ is_Some (ff ()).2).
  { exists Eolo.failing. eexists. split_and!; [|reflexivity|by eexists].
    apply elem_of_cons. right. apply elem_of_cons. by left. }
  split_and!; [exact Hfail|reflexivity|].
  exact (Format_error_no_partial_output _ ", " Hfail).
Defined.

End FormatFacts.

(** ** Fingerprints *)

Module FingerprintFacts.
Import GoMapFacts.
Import Execution.

#[local] Instance key_le_trans {V} : Transitive (@key_le V).
Proof. intros a b c. unfold key_le. apply transitivity. Qed.

#[local] Instance key_le_total {V} : Total (@key_le V).
Proof. intros a b. unfold key_le. apply total, _. Qed.

Lemma NoDup_keys_entries {V} (m : gomap V) : NoDup (keys m) -> NoDup m.
Proof. apply NoDup_fmap_1. Qed.

(** Two maps with the same entries are the same list up to the order of
    iteration. *)
Lemma same_mapping_Permutation {V} (m1 m2 : gomap V) :
  NoDup (keys m1) -> NoDup (keys m2) -> same_mapping m1 m2 -> m1 ≡ₚ m2.
Proof.
  intros Hnd1 Hnd2 Hsame.
  apply NoDup_Permutation; [by apply NoDup_keys_entries..|].
  intros [k v]. split; intros Hin.
  - apply mget_Some_elem. rewrite <- Hsame. by apply elem_mget_Some.
  - apply mget_Some_elem. rewrite Hsame. by apply elem_mget_Some.
Qed.

Lemma sortByKey_Permutation {V} (m1 m2 : gomap V) :
  NoDup (keys m1) -> m1 ≡ₚ m2 -> sortByKey m1 = sortByKey m2.
Proof.
  intros Hnd Hperm. unfold sortByKey.
  apply (Sorted_unique_strong key_le).
  - intros [k1 v1] [k2 v2] Hin1 Hin2 Hle1 Hle2.
    rewrite merge_sort_Permutation in Hin1, Hin2. rewrite <- Hperm in Hin2.
    unfold key_le in Hle1, Hle2. simpl in *.
    assert (k1 = k2) as -> by (by apply (anti_symm String.le)).
    apply (elem_mget_Some _ _ _ Hnd) in Hin1, Hin2. congruence.
  - apply Sorted_merge_sort, _.
  - apply Sorted_merge_sort, _.
  - by rewrite !merge_sort_Permutation.
Qed.

Lemma keys_rendered {V W} (f : string * V -> W) (m : gomap V) :
  keys (map (fun kv => (kv.1, f kv)) m) = keys m.
Proof.
  unfold keys. induction m as [|[k v] m IH]; [done|].
  cbn [map fmap list_fmap fst]. f_equal. exact IH.
Qed.

Section Runtime.
Context `{GoRuntime}.

Lemma marshal_JObj (fields : gomap json) :
  marshal (JObj fields)
  = object (map (fun kv => (kv.1, quoteString kv.1 +:+ ":" +:+ marshal kv.2)) fields).
Proof. reflexivity. Qed.

Lemma marshal_object_stable (m1 m2 : gomap json) :
  NoDup (keys m1) -> NoDup (keys m2) -> same_mapping m1 m2 ->
  marshal (JObj m1) = marshal (JObj m2).
Proof.
  intros Hnd1 Hnd2 Hsame. rewrite !marshal_JObj. unfold object. do 4 f_equal.
  apply sortByKey_Permutation.
  - by rewrite keys_rendered.
  - apply Permutation_map. by apply same_mapping_Permutation.
Qed.

Lemma createProcessedArgsLoop_app (l1 l2 : gomap Arg) (acc : gomap json) :
  createProcessedArgsLoop (l1 ++ l2) acc
  = createProcessedArgsLoop l2 (createProcessedArgsLoop l1 acc).
Proof.
  revert acc. induction l1 as [|[k a] l1 IH]; simpl; intros acc; [done|apply IH].
Qed.

(** An argument whose nested call produced no data leaves no entry. *)
Lemma createProcessedArgs_absent (before after : gomap Arg) (key : string)
    (child : ExecutedFuncCall) :
  Present (Result_ child) = false ->
  createProcessedArgs (before ++ (key, FuncArg child) :: after)
  = createProcessedArgs (before ++ after).
Proof.
  intros Habs. unfold createProcessedArgs.
  rewrite !createProcessedArgsLoop_app. simpl. by rewrite Habs.
Qed.

Lemma mget_rendered {V W} (g : string -> V -> W) (k : string) (m : gomap V) :
  mget k (map (fun kv => (kv.1, g kv.1 kv.2)) m) = g k <$> mget k m.
Proof.
  induction m as [|[k' v] m IH]; [done|]. cbn [map mget fst snd].
  destruct (String.eqb_spec k k') as [->|Hne]; [done|exact IH].
Qed.

(** [json.Marshal] does not see the order in which maps list their entries. *)
Lemma marshal_equiv (j1 j2 : json) : json_equiv j1 j2 -> marshal j1 = marshal j2.
Proof.
  revert j2. induction j1 as [| | | |items IH|fields IH] using json_ind;
    intros j2 Hequiv; inversion Hequiv as [|? items2 Hitems|? fields2 Hnd1 Hnd2 Hfields];
    subst; try reflexivity.
  - cbn [marshal]. do 3 f_equal.
    clear Hequiv. revert IH. induction Hitems as [|x y l1 l2 Hxy _ IHl]; [done|].
    intros IH. apply Forall_cons in IH as [IHx IHrest]. cbn [map]. f_equal; auto.
  - rewrite !marshal_JObj. unfold object. do 4 f_equal.
    apply sortByKey_Permutation; [by rewrite keys_rendered|].
    apply same_mapping_Permutation; [by rewrite keys_rendered..|].
    intros k.
    rewrite (mget_rendered (fun k v => quoteString k +:+ ":" +:+ marshal v) k fields),
            (mget_rendered (fun k v => quoteString k +:+ ":" +:+ marshal v) k fields2).
    specialize (Hfields k).
    destruct (mget k fields) as [v1|] eqn:Hv1; inversion Hfields as [? v2 Hv|]; subst;
      [|done].
    simpl. do 3 f_equal.
    apply mget_Some_elem in Hv1. rewrite Forall_forall in IH.
    exact (IH (k, v1) Hv1 v2 Hv).
Qed.

(** Coordinates listed as [Lat, Lon] or as [Lon, Lat]: one fingerprint. *)
Lemma fingerprint_nested_order :
  generateFingerprint "get_weather_forecast"
    [("coordinates", JObj [("Lat", JNum 45%float); ("Lon", JNum 7.5%float)])]
  = generateFingerprint "get_weather_forecast"
      [("coordinates", JObj [("Lon", JNum 7.5%float); ("Lat", JNum 45%float)])].
Proof. reflexivity. Qed.

(** C5.  The fingerprint of a call depends on its materialized arguments as
    a mapping only: two argument maps with the same keys and values give the
    same fingerprint whatever the order of their entries, also when maps
    nested in the values list their entries in different orders.  And an
    argument whose nested call returned [Present = false] is left out of the
    materialized arguments, so that a call with such an argument and the
    call without it have the same fingerprint. *)
Theorem fingerprint_stable (functionName : string) :
  (forall m1 m2 : gomap json,
      NoDup (keys m1) -> NoDup (keys m2) -> same_mapping m1 m2 ->
      generateFingerprint functionName m1 = generateFingerprint functionName m2)
  /\ (forall m1 m2 : gomap json,
         json_equiv (JObj m1) (JObj m2) ->
         generateFingerprint functionName m1 = generateFingerprint functionName m2)
  /\ (forall (before after : gomap Arg) (key : string) (child : ExecutedFuncCall),
         Present (Result_ child) = false ->
         generateFingerprint functionName
           (createProcessedArgs (before ++ (key, FuncArg child) :: after))
         = generateFingerprint functionName (createProcessedArgs (before ++ after))).
Proof.
  split_and!.
  - intros m1 m2 Hnd1 Hnd2 Hsame. unfold generateFingerprint, marshalCall.
    by rewrite (marshal_object_stable m1 m2).
  - intros m1 m2 Hequiv. unfold generateFingerprint, marshalCall.
    by rewrite (marshal_equiv _ _ Hequiv).
  - intros before after key child Habs. by rewrite createProcessedArgs_absent.
Qed.

End Runtime.

Lemma fingerprint_stable_witness :
  let m1 := [("city", JStr "Turin"); ("days", JNum 3%float)] in
  let m2 := [("days", JNum 3%float); ("city", JStr "Turin")] in
  let child := mkExecutedFuncCall "get_coordinates" "locate" [] Eolo.notFound in
  (NoDup (keys m1) /\ NoDup (keys m2) /\ same_mapping m1 m2)
  /\ generateFingerprint (H := Eolo.plainRuntime) "f" m1
     = generateFingerprint (H := Eolo.plainRuntime) "f" m2
  /\ Present (Result_ child) = false
  /\ generateFingerprint (H := Eolo.plainRuntime) "f"
       (createProcessedArgs [("city", ValueArg (JStr "Turin")); ("at", FuncArg child)])
     = generateFingerprint (H := Eolo.plainRuntime) "f"
         (createProcessedArgs [("city", ValueArg (JStr "Turin"))]).
Proof.
  cbv zeta.
  assert (Hnd1 : NoDup (keys [("city", JStr "Turin"); ("days", JNum 3%float)]))
    by compute_done.
  assert (Hnd2 : NoDup (keys [("days", JNum 3%float); ("city", JStr "Turin")]))
    by compute_done.
  assert (Hsame : same_mapping [("city", JStr "Turin"); ("days", JNum 3%float)]
                               [("days", JNum 3%float); ("city", JStr "Turin")]).
  { intros k. simpl.
    destruct (String.eqb_spec k "city") as [->|?]; [done|].
    by destruct (String.eqb_spec k "days"). }
  split_and!; [done..| |done|].
  - exact (proj1 (fingerprint_stable (H := Eolo.plainRuntime) "f") _ _ Hnd1 Hnd2 Hsame).
  - exact (proj2 (proj2 (fingerprint_stable (H := Eolo.plainRuntime) "f"))
             [("city", ValueArg (JStr "Turin"))] [] "at"
             (mkExecutedFuncCall "get_coordinates" "locate" [] Eolo.notFound) eq_refl).
Defined.

End FingerprintFacts.

(** ** Required arguments *)

Module RequiredFacts.
Import GoMapFacts.
Import Execution.

Section Runtime.
Context `{GoRuntime}.

(** [executeFunc], one level unfolded. *)
Lemma executeFunc_eq (o : Orchestrator) (function : Parser.PlannedFuncCall) (st : State) :
  executeFunc o function st =
  match Functions o !! Parser.Name function with
  | None => (Err (ErrCall (Parser.Name function) "" (ErrString "unknown function")), st)
  | Some executor =>
      match processArgs o function st with
      | (Err err, st') => (Err err, st')
      | (Ok argsExecution, st') =>
          match checkRequiredArgs o function argsExecution with
          | Some err => (handleMissingRequiredArgsError err function argsExecution, st')
          | None => lookupOrInvoke executor function argsExecution st'
          end
      end
  end.
Proof. by destruct function. Qed.

Section OneRequired.
Variable o : Orchestrator.
Variable function : Parser.PlannedFuncCall.
Variable functionSchema : Tools.FuncDefinition.
Variable k : string.
Variable args : gomap Arg.
Hypothesis HSchema : Tools.FindTool (ToolSet o) (Parser.Name function) = Some functionSchema.
Hypothesis HRequired : Tools.Required (Tools.Parameters functionSchema) = [k].

Lemma checkRequiredArgs_one :
  checkRequiredArgs o function args =
  match checkRequiredArg k args with
  | Some err => Some (ErrCall (Parser.Name function) k err)
  | None => None
  end.
Proof. unfold checkRequiredArgs. rewrite HSchema, HRequired. simpl. by destruct checkRequiredArg. Qed.

(** (a) The argument is not there. *)
Lemma required_omitted :
  mget k args = None ->
  exists err,
    err = ErrCall (Parser.Name function) k
            (ErrString ("missing argument for required parameter " +:+ k)) /\
    checkRequiredArgs o function args = Some err /\
    handleMissingRequiredArgsError err function args = Err err.
Proof.
  intros Hk. eexists. split; [reflexivity|].
  rewrite checkRequiredArgs_one. unfold checkRequiredArg. by rewrite Hk.
Qed.

(** (b) A nested call without data and without a [FormatFunc]. *)
Lemma required_blank (child : ExecutedFuncCall) :
  mget k args = Some (FuncArg child) ->
  Present (Result_ child) = false ->
  FormatFn (Result_ child) = None ->
  exists err,
    err = ErrCall (Parser.Name function) k
            (ErrString ("missing argument for required parameter " +:+ k
                        +:+ ": func call result is blank and has no FormatFunc")) /\
    checkRequiredArgs o function args = Some err /\
    handleMissingRequiredArgsError err function args = Err err.
Proof.
  intros Hk Habs Hff. eexists. split; [reflexivity|].
  rewrite checkRequiredArgs_one. unfold checkRequiredArg. rewrite Hk. simpl.
  by rewrite Habs, Hff.
Qed.

(** (c) A nested call without data whose result has a [FormatFunc]: the
    check wraps the [*FormattableError] in an [*Error], and
    [handleMissingRequiredArgsError] does not find it there. *)
Lemma required_formattable (child : ExecutedFuncCall) (ff : FormatFunc) :
  mget k args = Some (FuncArg child) ->
  Present (Result_ child) = false ->
  FormatFn (Result_ child) = Some ff ->
  checkRequiredArgs o function args
    = Some (ErrCall (Parser.Name function) k (ErrFormattable ff)) /\
  handleMissingRequiredArgsError
    (ErrCall (Parser.Name function) k (ErrFormattable ff)) function args
    = Err (ErrCall (Parser.Name function) k (ErrFormattable ff)).
Proof.
  intros Hk Habs Hff. split; [|reflexivity].
  rewrite checkRequiredArgs_one. unfold checkRequiredArg. rewrite Hk. simpl.
  by rewrite Habs, Hff.
Qed.

(** (d) A literal, or a nested call that produced data. *)
Lemma required_satisfied (arg : Arg) :
  mget k args = Some arg ->
  match arg with
  | ValueArg _ => True
  | FuncArg child => Present (Result_ child) = true
  end ->
  checkRequiredArgs o function args = None.
Proof.
  intros Hk Harg. rewrite checkRequiredArgs_one. unfold checkRequiredArg. rewrite Hk.
  destruct arg as [v|child]; simpl; [done|]. by rewrite Harg.
Qed.

End OneRequired.

(** Had the error of the check not been wrapped, the call would complete
    with the [FormatFunc] of the child. *)
Lemma handleMissingRequiredArgsError_unwrapped (ff : FormatFunc)
    (function : Parser.PlannedFuncCall) (args : gomap Arg) :
  handleMissingRequiredArgsError (ErrFormattable ff) function args
  = Ok (mkExecutedFuncCall (Parser.Name function) (Parser.Purpose function) args
          (mkFuncResult false JNull (Some ff) JNull)).
Proof. reflexivity. Qed.

(** Scenario E4: [get_coordinates] called without [city]. *)
Lemma missing_city (w : World) :
  (executeFunc (Eolo.orchestratorWith (Eolo.answering Eolo.found))
     Eolo.coordinatesOfNothing (NewState w)).1
  = Err (ErrCall "get_coordinates" "city"
           (ErrString "missing argument for required parameter city")).
Proof. reflexivity. Qed.

(** C2 (b) on scenario E1, with a geocoder whose result is blank. *)
Lemma blank_coordinates (w : World) :
  (executeFunc (Eolo.orchestratorWith (Eolo.answering Eolo.blank))
     Eolo.forecastForTurin (NewState w)).1
  = Err (ErrCall "get_weather_forecast" "coordinates"
           (ErrString ("missing argument for required parameter coordinates"
                       +:+ ": func call result is blank and has no FormatFunc"))).
Proof. reflexivity. Qed.

(** C2 (c) on scenario E1, with a geocoder that finds no such place: the
    result of [get_coordinates] has [Present = false] and the [FormatFunc]
    that says so, [coordinates] is required by [get_weather_forecast], and
    [executeFunc] returns an error, not an [ExecutedFuncCall] carrying that
    [FormatFunc]. *)
Theorem formattable_missing_is_an_error (w : World) :
  let o := Eolo.orchestratorWith (Eolo.answering Eolo.notFound) in
  (executeFunc o Eolo.coordinatesOfTurin (NewState w)).1
  = Ok (mkExecutedFuncCall "get_coordinates" "locate the city"
          [("city", ValueArg (JStr "Turin"))] Eolo.notFound)
  /\ Present Eolo.notFound = false
  /\ FormatFn Eolo.notFound = Some Eolo.locationNotFound
  /\ (executeFunc o Eolo.forecastForTurin (NewState w)).1
     = Err (ErrCall "get_weather_forecast" "coordinates"
              (ErrFormattable Eolo.locationNotFound)).
Proof. cbv zeta. split_and!; reflexivity. Qed.

End Runtime.

(** C2 (d) on scenario E1, with a geocoder that finds the city. *)
Lemma found_coordinates :
  (executeFunc (H := Eolo.plainRuntime)
     (Eolo.orchestratorWith (Eolo.answering Eolo.found))
     Eolo.forecastForTurin (NewState (H := Eolo.plainRuntime) tt)).1
  = Ok (mkExecutedFuncCall "get_weather_forecast" "forecast for the city"
          [("coordinates",
            FuncArg (mkExecutedFuncCall "get_coordinates" "locate the city"
                       [("city", ValueArg (JStr "Turin"))] Eolo.found))]
          Eolo.forecast).
Proof. reflexivity. Qed.

End RequiredFacts.

(** ** The memo *)

Module MemoFacts.
Import GoMapFacts.
Import Execution.
Import RequiredFacts.

Section Runtime.
Context `{GoRuntime}.
Variable o : Orchestrator.

Lemma invoked_app (tr1 tr2 : list Event) : invoked (tr1 ++ tr2) = invoked tr1 ++ invoked tr2.
Proof. unfold invoked. apply omap_app. Qed.

Lemma invokedFingerprints_app (tr1 tr2 : list Event) :
  invokedFingerprints (tr1 ++ tr2) = invokedFingerprints tr1 ++ invokedFingerprints tr2.
Proof. unfold invokedFingerprints. by rewrite invoked_app, fmap_app. Qed.

Lemma invokedFingerprints_nil (tr : list Event) :
  invoked tr = [] -> invokedFingerprints tr = [].
Proof. unfold invokedFingerprints. by intros ->. Qed.

Lemma storedBy_app_l (tr1 tr2 : list Event) (fp : string) (r : FuncResult) :
  storedBy o tr1 fp r -> storedBy o (tr1 ++ tr2) fp r.
Proof.
  intros (name & args & executor & w & Hin & Hfp & Hex & Hrun).
  exists name, args, executor, w. split_and!; [|done..].
  rewrite invoked_app. apply elem_of_app. by left.
Qed.

Lemma storedBy_app_r (tr1 tr2 : list Event) (fp : string) (r : FuncResult) :
  storedBy o tr2 fp r -> storedBy o (tr1 ++ tr2) fp r.
Proof.
  intros (name & args & executor & w & Hin & Hfp & Hex & Hrun).
  exists name, args, executor, w. split_and!; [|done..].
  rewrite invoked_app. apply elem_of_app. by right.
Qed.

Lemma after_nil (st : State) : after st [] = st.
Proof. destruct st. unfold after. simpl. by rewrite app_nil_r. Qed.

Lemma after_after (st : State) (tr1 tr2 : list Event) :
  after (after st tr1) tr2 = after st (tr1 ++ tr2).
Proof. unfold after. simpl. by rewrite app_assoc. Qed.

Lemma advances_refl (st : State) : advances o st st [].
Proof.
  split.
  - by rewrite app_nil_r.
  - done.
  - intros fp r Hfp. by left.
  - intros fp Hin. by apply elem_of_nil in Hin.
  - apply NoDup_nil_2.
Qed.

(** Events that run no executor change nothing but the trace. *)
Lemma advances_after (st : State) (tr : list Event) :
  invoked tr = [] -> advances o st (after st tr) tr.
Proof.
  intros Hnone. split; simpl.
  - done.
  - done.
  - intros fp r Hfp. by left.
  - rewrite invokedFingerprints_nil by done. intros fp Hin. by apply elem_of_nil in Hin.
  - rewrite invokedFingerprints_nil by done. apply NoDup_nil_2.
Qed.

(** Two stretches of a run, the first of which kept what it invoked. *)
Lemma advances_trans (st st1 st2 : State) (tr1 tr2 : list Event) :
  advances o st st1 tr1 -> kept st1 tr1 -> advances o st1 st2 tr2 ->
  advances o st st2 (tr1 ++ tr2).
Proof.
  intros [Ht1 Hm1 Hs1 Hf1 Ho1] Hkept [Ht2 Hm2 Hs2 Hf2 Ho2]. split.
  - by rewrite Ht2, Ht1, app_assoc.
  - by etrans.
  - intros fp r Hfp. destruct (Hs2 fp r Hfp) as [Hold|Hnew].
    + destruct (Hs1 fp r Hold) as [Hold'|Hnew]; [by left|right].
      by apply storedBy_app_l.
    + right. by apply storedBy_app_r.
  - intros fp. rewrite invokedFingerprints_app, elem_of_app. intros [Hin|Hin].
    + by apply Hf1.
    + specialize (Hf2 fp Hin). by eapply lookup_weaken_None.
  - rewrite invokedFingerprints_app. apply NoDup_app. split_and!; [done| |done].
    intros fp Hin1 Hin2. destruct (Hkept fp Hin1) as [r Hr].
    specialize (Hf2 fp Hin2). congruence.
Qed.

Lemma kept_app (st1 st2 : State) (tr1 tr2 : list Event) :
  kept st1 tr1 -> Memo st1 ⊆ Memo st2 -> kept st2 tr2 -> kept st2 (tr1 ++ tr2).
Proof.
  intros Hk1 Hsub Hk2 fp. rewrite invokedFingerprints_app, elem_of_app. intros [Hin|Hin].
  - destruct (Hk1 fp Hin) as [r Hr]. exists r. by eapply lookup_weaken.
  - by apply Hk2.
Qed.

Lemma kept_nil (st : State) (tr : list Event) : invoked tr = [] -> kept st tr.
Proof.
  intros Hnone fp. rewrite invokedFingerprints_nil by done.
  intros Hin. by apply elem_of_nil in Hin.
Qed.

(** *** The memo lookup and the executor *)

Section Lookup.
Variable executor : FuncExecutor.
Variable function : Parser.PlannedFuncCall.
Variable argsExecution : gomap Arg.
Hypothesis HExecutor : Functions o !! Parser.Name function = Some executor.

Let name := Parser.Name function.
Let processedArgs := createProcessedArgs argsExecution.
Let fingerprint := generateFingerprint name processedArgs.

(** A fingerprint the memo holds: the memoized result is returned and the
    executor does not run. *)
Lemma lookupOrInvoke_hit (st : State) (result : FuncResult) :
  Memo st !! fingerprint = Some result ->
  lookupOrInvoke executor function argsExecution st
  = (Ok (mkExecutedFuncCall name (Parser.Purpose function) argsExecution result),
     after st [EvFingerprint name processedArgs]).
Proof. intros Hhit. unfold lookupOrInvoke. simpl. fold name processedArgs fingerprint. by rewrite Hhit. Qed.

(** A fingerprint the memo does not hold: the executor runs, and only a
    result it returns is stored. *)
Lemma lookupOrInvoke_miss (st : State) :
  Memo st !! fingerprint = None ->
  let events := [EvFingerprint name processedArgs; EvInvoke name processedArgs] in
  lookupOrInvoke executor function argsExecution st
  = match executor processedArgs (world st) with
    | (Returned result, w) =>
        (Ok (mkExecutedFuncCall name (Parser.Purpose function) argsExecution result),
         mkState (<[fingerprint := result]> (Memo st)) w (trace st ++ events))
    | (Failed err, w) =>
        (Err (ErrCall name "" err), mkState (Memo st) w (trace st ++ events))
    | (TimedOut, w) =>
        (Err (ErrCall name "" (ErrString "function execution timed out")),
         mkState (Memo st) w (trace st ++ events))
    end.
Proof.
  intros Hmiss. unfold lookupOrInvoke. simpl. fold name processedArgs fingerprint.
  rewrite Hmiss. rewrite <- !app_assoc. simpl.
  by destruct (executor processedArgs (world st)) as [[result|err|] w].
Qed.

Lemma lookupOrInvoke_advances (st : State) :
  exists tr,
    advances o st (lookupOrInvoke executor function argsExecution st).2 tr /\
    (is_ok (lookupOrInvoke executor function argsExecution st).1 ->
     kept (lookupOrInvoke executor function argsExecution st).2 tr).
Proof.
  destruct (Memo st !! fingerprint) as [result|] eqn:Hlook.
  - rewrite (lookupOrInvoke_hit st result Hlook). simpl.
    exists [EvFingerprint name processedArgs].
    split; [by apply advances_after|intros _; by apply kept_nil].
  - rewrite (lookupOrInvoke_miss st Hlook).
    exists [EvFingerprint name processedArgs; EvInvoke name processedArgs].
    assert (Hfps : invokedFingerprints
                     [EvFingerprint name processedArgs; EvInvoke name processedArgs]
                   = [fingerprint]) by done.
    destruct (executor processedArgs (world st)) as [[result|err|] w] eqn:Hrun; simpl.
    + split.
      * split; simpl.
        -- done.
        -- by apply insert_subseteq.
        -- intros fp r. rewrite lookup_insert. case_decide as Hfp.
           ++ intros [= <-]. right. exists name, processedArgs, executor, (world st).
              split_and!; [apply elem_of_cons; by left|done|done|by rewrite Hrun].
           ++ by left.
        -- rewrite Hfps. intros fp Hin. apply list_elem_of_singleton in Hin. by subst.
        -- rewrite Hfps. apply NoDup_singleton.
      * intros _ fp. rewrite Hfps. intros Hin. apply list_elem_of_singleton in Hin.
        subst fp. simpl. rewrite lookup_insert_eq. by eexists.
    + split; [|done]. split; simpl.
      * done.
      * done.
      * intros fp r Hfp. by left.
      * rewrite Hfps. intros fp Hin. apply list_elem_of_singleton in Hin. by subst.
      * rewrite Hfps. apply NoDup_singleton.
    + split; [|done]. split; simpl.
      * done.
      * done.
      * intros fp r Hfp. by left.
      * rewrite Hfps. intros fp Hin. apply list_elem_of_singleton in Hin. by subst.
      * rewrite Hfps. apply NoDup_singleton.
Qed.

(** What a successful call returns is what the memo then holds for it. *)
Lemma lookupOrInvoke_ok_memo (st : State) (e : ExecutedFuncCall) :
  (lookupOrInvoke executor function argsExecution st).1 = Ok e ->
  exists result,
    e = mkExecutedFuncCall name (Parser.Purpose function) argsExecution result /\
    Memo (lookupOrInvoke executor function argsExecution st).2 !! fingerprint = Some result.
Proof.
  destruct (Memo st !! fingerprint) as [result|] eqn:Hlook.
  - rewrite (lookupOrInvoke_hit st result Hlook). simpl. intros [= <-]. by exists result.
  - rewrite (lookupOrInvoke_miss st Hlook).
    destruct (executor processedArgs (world st)) as [[result|err|] w]; simpl; [|done..].
    intros [= <-]. exists result. split; [done|]. apply lookup_insert_eq.
Qed.

(** An executor that fails or times out leaves the memo as it was. *)
Lemma lookupOrInvoke_err_memo (st : State) (err : Error) :
  (lookupOrInvoke executor function argsExecution st).1 = Err err ->
  Memo (lookupOrInvoke executor function argsExecution st).2 = Memo st /\
  Memo st !! fingerprint = None.
Proof.
  destruct (Memo st !! fingerprint) as [result|] eqn:Hlook.
  - by rewrite (lookupOrInvoke_hit st result Hlook).
  - rewrite (lookupOrInvoke_miss st Hlook).
    by destruct (executor processedArgs (world st)) as [[result|e|] w].
Qed.

End Lookup.

(** *** Every run advances the state *)

Lemma tracked_refl {A} (st : State) (a : result Error A) : tracked o st (a, st).
Proof. exists []. split; [apply advances_refl|intros _; by apply kept_nil]. Qed.

Lemma tracked_then {A B} (st : State) (r1 : result Error A * State)
    (r2 : result Error B * State) :
  tracked o st r1 -> is_ok r1.1 -> tracked o r1.2 r2 -> tracked o st r2.
Proof.
  intros (tr1 & Hadv1 & Hkept1) Hok (tr2 & Hadv2 & Hkept2).
  exists (tr1 ++ tr2). split.
  - eapply advances_trans; eauto.
  - intros Hok2. eapply kept_app; eauto. apply Hadv2.
Qed.

Lemma tracked_err {A B} (st : State) (r : result Error A * State) (e : Error) :
  tracked o st r -> tracked (A := B) o st (Err e, r.2).
Proof. intros (tr & Hadv & _). exists tr. by split. Qed.

Lemma processArgsLoop_tracked (funcName : string) (fargs : gomap Parser.ArgValue) :
  Forall (Parser.onNested (fun v => forall st, tracked o st (executeFunc o v st))) fargs ->
  forall args st, tracked o st (processArgsLoop (executeFunc o) funcName fargs args st).
Proof.
  induction 1 as [|[key value] fargs Hhead _ IH]; intros args st; simpl.
  - apply tracked_refl.
  - destruct value as [v|v]; [apply IH|].
    unfold Parser.onNested in Hhead. simpl in Hhead. specialize (Hhead st).
    destruct (executeFunc o v st) as [[funcExe|err] st'] eqn:Hrun.
    + eapply tracked_then; [exact Hhead|done|apply IH].
    + exact (tracked_err st _ _ Hhead).
Qed.

Lemma executeFunc_tracked (function : Parser.PlannedFuncCall) (st : State) :
  tracked o st (executeFunc o function st).
Proof.
  revert st. induction function as [name purpose fargs IH] using Parser.PlannedFuncCall_ind.
  intros st. rewrite executeFunc_eq. unfold processArgs. simpl.
  destruct (Functions o !! name) as [executor|] eqn:Hexec; [|apply tracked_refl].
  pose proof (processArgsLoop_tracked name fargs IH [] st) as Hargs.
  destruct (processArgsLoop (executeFunc o) name fargs [] st) as [[args|err] st'] eqn:Hloop.
  - destruct (checkRequiredArgs o (Parser.mkPlannedFuncCall name purpose fargs) args) as [err|].
    + destruct Hargs as (tr & Hadv & Hkept). exists tr. split; [done|]. intros _. by apply Hkept.
    + eapply tracked_then; [exact Hargs|done|].
      by apply lookupOrInvoke_advances.
  - exact (tracked_err st _ _ Hargs).
Qed.

Lemma processArgsLoop_always_tracked (funcName : string) (fargs : gomap Parser.ArgValue)
    (args : gomap Arg) (st : State) :
  tracked o st (processArgsLoop (executeFunc o) funcName fargs args st).
Proof.
  apply processArgsLoop_tracked. apply Forall_forall. intros [key [v|v]] _.
  - done.
  - intros st'. apply executeFunc_tracked.
Qed.

Lemma executeSeqLoop_tracked (functions : list Parser.PlannedFuncCall)
    (done_ : list ExecutedFuncCall) (st : State) :
  tracked o st (executeSeqLoop o functions done_ st).
Proof.
  revert done_ st. induction functions as [|function functions IH]; intros done_ st; simpl.
  - apply tracked_refl.
  - pose proof (executeFunc_tracked function st) as Hhead.
    destruct (executeFunc o function st) as [[funcExe|err] st'] eqn:Hrun.
    + eapply tracked_then; [exact Hhead|done|apply IH].
    + exact (tracked_err st _ _ Hhead).
Qed.

(** *** The memo only grows *)

Lemma tracked_memo {A} (st : State) (r : result Error A * State) :
  tracked o st r -> Memo st ⊆ Memo r.2.
Proof. intros (tr & Hadv & _). apply Hadv. Qed.


(** The error of a failed check is never a bare [*FormattableError]. *)
Lemma checkRequiredArgs_not_formattable (function : Parser.PlannedFuncCall)
    (args : gomap Arg) (err : Error) :
  checkRequiredArgs o function args = Some err -> AsFormattableError err = None.
Proof.
  unfold checkRequiredArgs. destruct Tools.FindTool as [schema|]; [|by intros [= <-]].
  induction (Tools.Required (Tools.Parameters schema)) as [|k required IH]; simpl; [done|].
  destruct (checkRequiredArg k args); [by intros [= <-]|done].
Qed.

(** C8.  After a plan was executed by a new orchestrator, every entry of the
    memo is the result an executor returned during the execution, under the
    fingerprint of that call.  More generally, whatever [executeFunc] runs,
    an entry of the memo afterwards was there before or is such a result.  A
    call to an unknown function leaves the state untouched; a call that
    fails the check of its required arguments, whatever
    [handleMissingRequiredArgsError] makes of the failure, leaves the state
    as its nested calls left it: no fingerprint, no entry.  And a call that
    ends in an error, of its executor or by timeout, leaves the memo as its
    nested calls left it. *)
Theorem memo_holds_only_returned_results :
  (forall plan w fp r,
      Memo (executeSeq o plan (NewState w)).2 !! fp = Some r ->
      storedBy o (trace (executeSeq o plan (NewState w)).2) fp r)
  /\ forall function st,
       let run := executeFunc o function st in
       (exists tr,
           trace run.2 = trace st ++ tr /\
           forall fp r, Memo run.2 !! fp = Some r ->
                        Memo st !! fp = Some r \/ storedBy o tr fp r)
       /\ (Functions o !! Parser.Name function = None -> run.2 = st)
       /\ (forall args st1 err,
              is_Some (Functions o !! Parser.Name function) ->
              processArgs o function st = (Ok args, st1) ->
              checkRequiredArgs o function args = Some err ->
              run.2 = st1)
       /\ (forall args st1,
              is_Some (Functions o !! Parser.Name function) ->
              processArgs o function st = (Ok args, st1) ->
              is_ok run.1 = false ->
              Memo run.2 = Memo st1).
Proof.
  split.
  { intros plan w fp r Hfp. unfold executeSeq in *.
    destruct (executeSeqLoop_tracked plan [] (NewState w)) as (tr & Hadv & _).
    destruct Hadv as [Htrace _ Hstored _ _]. simpl in Htrace. rewrite Htrace.
    by destruct (Hstored fp r Hfp) as [Hempty|Hnew]. }
  intros function st. cbv zeta. split_and!.
  - destruct (executeFunc_tracked function st) as (tr & Hadv & _).
    exists tr. split; apply Hadv.
  - intros Hnone. rewrite executeFunc_eq. by rewrite Hnone.
  - intros args st1 err [executor Hexec] Hargs Hcheck.
    rewrite executeFunc_eq. by rewrite Hexec, Hargs, Hcheck.
  - intros args st1 [executor Hexec] Hargs. rewrite executeFunc_eq, Hexec, Hargs.
    destruct (checkRequiredArgs o function args) as [err|]; [done|].
    destruct (lookupOrInvoke executor function args st1) as [[e|err] st'] eqn:Hrun; [done|].
    intros _. destruct (lookupOrInvoke_err_memo executor function args st1 err) as [Hmemo _];
      [by rewrite Hrun|].
    by rewrite Hrun in Hmemo.
Qed.

(** Whatever the hash and the world: a geocoder that cannot be reached is
    invoked by each of two executions of the same plan. *)
Lemma unavailable_runs_in_both (w : World) :
  let plan := [Eolo.coordinatesOfTurin] in
  let first := executeSeq (Eolo.orchestratorWith Eolo.unavailable) plan (NewState w) in
  let second := executeSeq (Eolo.orchestratorWith Eolo.unavailable) plan first.2 in
  Memo second.2 = ∅
  /\ invoked (trace second.2)
     = [("get_coordinates", [("city", JStr "Turin")]);
        ("get_coordinates", [("city", JStr "Turin")])].
Proof. cbv zeta. split; reflexivity. Qed.

End Runtime.

#[local] Existing Instance Eolo.plainRuntime.

(** With no outside world, every executor is deterministic. *)
Lemma allDeterministic_plain (o : Orchestrator (H := Eolo.plainRuntime)) :
  allDeterministic (H := Eolo.plainRuntime) o.
Proof. intros name executor _ args [] []. reflexivity. Qed.

Lemma memo_holds_only_returned_results_witness :
  let o := Eolo.orchestratorWith (H := Eolo.plainRuntime) (Eolo.answering Eolo.found) in
  let st := NewState (H := Eolo.plainRuntime) tt in
  let err := ErrCall "get_coordinates" "city"
               (ErrString "missing argument for required parameter city") in
  is_Some (Functions o !! "get_coordinates")
  /\ processArgs o Eolo.coordinatesOfNothing st = (Ok [], st)
  /\ checkRequiredArgs o Eolo.coordinatesOfNothing [] = Some err
  /\ (executeFunc o Eolo.coordinatesOfNothing st).2 = st.
Proof.
  cbv zeta.
  assert (Hsome : is_Some (Functions
                    (Eolo.orchestratorWith (H := Eolo.plainRuntime) (Eolo.answering Eolo.found))
                    !! "get_coordinates")) by (by eexists).
  split_and!; [exact Hsome|reflexivity|reflexivity|].
  exact (proj1 (proj2 (proj2
           (proj2 (memo_holds_only_returned_results
                     (Eolo.orchestratorWith (H := Eolo.plainRuntime) (Eolo.answering Eolo.found)))
              Eolo.coordinatesOfNothing (NewState (H := Eolo.plainRuntime) tt))))
           [] _ _ Hsome eq_refl eq_refl).
Defined.

(** Scenario E1 twice: two executors run in the first execution, none in
    the second. *)
Lemma forecast_twice :
  let o := Eolo.orchestratorWith (H := Eolo.plainRuntime) (Eolo.answering Eolo.found) in
  let first := executeSeq o [Eolo.forecastForTurin] (NewState (H := Eolo.plainRuntime) tt) in
  let second := executeSeq o [Eolo.forecastForTurin] first.2 in
  is_ok first.1 = true
  /\ second.1 = first.1
  /\ invoked (trace second.2)
     = [("get_coordinates", [("city", JStr "Turin")]);
        ("get_weather_forecast", [("coordinates", Eolo.turin)])].
Proof. cbv zeta. split_and!; reflexivity. Qed.

(** An executor that fails is not memoized: a deterministic geocoder that
    cannot be reached is invoked by the first execution and again by the
    second, with the same arguments. *)
Lemma failed_executor_runs_again :
  let o := Eolo.orchestratorWith (H := Eolo.plainRuntime) Eolo.unavailable in
  let first := executeSeq o [Eolo.coordinatesOfTurin] (NewState (H := Eolo.plainRuntime) tt) in
  let second := executeSeq o [Eolo.coordinatesOfTurin] first.2 in
  allDeterministic o
  /\ second.1 = first.1
  /\ invoked (trace second.2)
     = [("get_coordinates", [("city", JStr "Turin")]);
        ("get_coordinates", [("city", JStr "Turin")])]
  /\ ~ NoDup (invokedFingerprints (trace second.2)).
Proof.
  cbv zeta. split_and!; [apply allDeterministic_plain|reflexivity|reflexivity|].
  intros Hnd. apply NoDup_cons in Hnd as [Hnotin _]. apply Hnotin.
  apply elem_of_cons. by left.
Qed.

End MemoFacts.

(** ** The schema generator *)

Module SchemaFacts.
Import GoMapFacts.
Import Tools.

Lemma mget_mset_is_Some {V} (k k' : string) (v : V) (m : gomap V) :
  is_Some (mget k (mset k' v m)) <-> k = k' \/ is_Some (mget k m).
Proof.
  destruct (decide (k' = k)) as [->|Hne].
  - rewrite mget_mset_eq. split; [by left|by eexists].
  - rewrite mget_mset_ne by done. split; [by right|]. by intros [->|?].
Qed.

(** The keys of [typeToFunctions]: the return types that are argument types. *)
Lemma collectTypeToFunctions_keys (t : ToolSet) (functions : list FuncDefinition)
    (acc : gomap (list string)) (typeName : string) :
  is_Some (mget typeName (collectTypeToFunctions t functions acc))
  <-> is_Some (mget typeName acc)
      \/ (isUsedAsArgumentType t typeName = true /\
          exists function, function ∈ functions /\ Type_ (Returns function) = typeName).
Proof.
  revert acc. induction functions as [|function functions IH]; intros acc; simpl.
  - split; [by left|]. intros [?|(_ & f & Hin & _)]; [done|]. by apply elem_of_nil in Hin.
  - rewrite IH. clear IH.
    destruct (isUsedAsArgumentType t (Type_ (Returns function))) eqn:Hused.
    + rewrite mget_mset_is_Some. split.
      * intros [[->|Hacc]|(Hu & f & Hin & Hf)].
        -- right. split; [done|]. exists function. split; [apply elem_of_cons; by left|done].
        -- by left.
        -- right. split; [done|]. exists f. split; [apply elem_of_cons; by right|done].
      * intros [Hacc|(Hu & f & Hin & Hf)]; [left; by right|].
        apply elem_of_cons in Hin as [->|Hin]; [left; by left|].
        right. split; [done|]. by exists f.
    + split.
      * intros [Hacc|(Hu & f & Hin & Hf)]; [by left|].
        right. split; [done|]. exists f. split; [apply elem_of_cons; by right|done].
      * intros [Hacc|(Hu & f & Hin & Hf)]; [by left|].
        apply elem_of_cons in Hin as [->|Hin]; [congruence|].
        right. split; [done|]. by exists f.
Qed.

Lemma definitions_keys (entries : gomap (list string)) (acc : gomap json) (k : string) :
  is_Some (mget k (foldl (fun definitions entry =>
                            mset (funcCallReturningName entry.1)
                                 (funcCallReturningDefinition entry.2) definitions)
                         acc entries))
  <-> is_Some (mget k acc)
      \/ exists entry, entry ∈ entries /\ funcCallReturningName entry.1 = k.
Proof.
  revert acc. induction entries as [|entry entries IH]; intros acc; simpl.
  - split; [by left|]. intros [?|(e & Hin & _)]; [done|]. by apply elem_of_nil in Hin.
  - rewrite IH, mget_mset_is_Some. split.
    + intros [[->|Hacc]|(e & Hin & He)].
      * right. exists entry. split; [apply elem_of_cons; by left|done].
      * by left.
      * right. exists e. split; [apply elem_of_cons; by right|done].
    + intros [Hacc|(e & Hin & He)]; [left; by right|].
      apply elem_of_cons in Hin as [->|Hin]; [left; by left|].
      right. by exists e.
Qed.

Lemma funcCallReturningName_inj (x y : string) :
  funcCallReturningName x = funcCallReturningName y -> x = y.
Proof. unfold funcCallReturningName. apply (inj (String.app _)). Qed.

Lemma mget_is_Some_keys {V} (k : string) (m : gomap V) :
  is_Some (mget k m) <-> exists entry, entry ∈ m /\ entry.1 = k.
Proof.
  split.
  - intros [v Hv]. exists (k, v). split; [by apply mget_Some_elem|done].
  - intros ([k' v] & Hin & <-). simpl.
    destruct (mget k' m) eqn:Hm; [by eexists|].
    apply mget_None in Hm. exfalso. apply Hm. unfold keys.
    apply list_elem_of_fmap. by exists (k', v).
Qed.

(** [func_call_returning_X] is defined exactly when [X] is an argument type
    and some function returns [X]. *)
Lemma wrapper_defined_iff (t : ToolSet) (typeName : string) :
  is_Some (mget (funcCallReturningName typeName) (generateFuncCallReturningDefinitions t))
  <-> isUsedAsArgumentType t typeName = true /\
      exists function, function ∈ Functions t /\ Type_ (Returns function) = typeName.
Proof.
  unfold generateFuncCallReturningDefinitions. rewrite definitions_keys. split.
  - intros [[? [=]]|(entry & Hin & Hname)].
    apply funcCallReturningName_inj in Hname.
    assert (Hsome : is_Some (mget typeName (collectTypeToFunctions t (Functions t) []))).
    { apply mget_is_Some_keys. by exists entry. }
    apply collectTypeToFunctions_keys in Hsome as [[? [=]]|Hsome]. exact Hsome.
  - intros Hused. right.
    assert (Hsome : is_Some (mget typeName (collectTypeToFunctions t (Functions t) []))).
    { apply collectTypeToFunctions_keys. by right. }
    apply mget_is_Some_keys in Hsome as (entry & Hin & <-). by exists entry.
Qed.

(** [$defs/X] refers to [func_call_returning_X] exactly when [X] is an
    argument type, whether or not a function returns [X]. *)
Lemma generateTypeDefinition_cases (t : ToolSet) (typeName : string) (typeInfo : TypeInfo) :
  generateTypeDefinition t typeName typeInfo =
  if isUsedAsArgumentType t typeName
  then JObj [("oneOf", JArr [transformTypeInfo (TypeDefinitions t) typeInfo;
                             ref (funcCallReturningName typeName)])]
  else transformTypeInfo (TypeDefinitions t) typeInfo.
Proof. reflexivity. Qed.

(** An argument type that no function returns: its definition refers to a
    wrapper that is not generated. *)
Lemma wrapper_missing (t : ToolSet) (typeName : string) (typeInfo : TypeInfo) :
  isUsedAsArgumentType t typeName = true ->
  (forall function, function ∈ Functions t -> Type_ (Returns function) <> typeName) ->
  generateTypeDefinition t typeName typeInfo
  = JObj [("oneOf", JArr [transformTypeInfo (TypeDefinitions t) typeInfo;
                          ref (funcCallReturningName typeName)])]
  /\ mget (funcCallReturningName typeName) (generateFuncCallReturningDefinitions t) = None.
Proof.
  intros Hused Hnone. split.
  - by rewrite generateTypeDefinition_cases, Hused.
  - destruct (mget _ (generateFuncCallReturningDefinitions t)) eqn:Hm; [|done].
    assert (Hsome : is_Some (mget (funcCallReturningName typeName)
                               (generateFuncCallReturningDefinitions t))) by (by eexists).
    apply wrapper_defined_iff in Hsome as (_ & function & Hin & Hret).
    by destruct (Hnone function Hin).
Qed.

(** The example tools: [coordinates_value] is an argument type and
    [get_coordinates] returns it; the wrapper is defined. *)
Lemma eolo_schema_closed :
  let schema := toJSONSchema Eolo.AvailableTools in
  is_ok schema = true
  /\ forall target, target ∈ refTargets (JObj (defsOf schema)) ->
                    is_Some (mget target (defsOf schema)).
Proof.
  cbv zeta. split; [reflexivity|]. intros target Hin.
  vm_compute in Hin. vm_compute.
  repeat (apply elem_of_cons in Hin as [->|Hin]; [by eexists|]).
  by apply elem_of_nil in Hin.
Qed.

(** C1 on the tools scoped to [get_weather_forecast]: [coordinates_value] is
    in the type dictionary and is an argument type, no function returns it,
    and the schema is generated with [$defs/coordinates_value] a [oneOf] of
    the base definition and a reference to
    [func_call_returning_coordinates_value], which the schema does not
    define. *)
Theorem schema_refers_to_undefined_wrapper :
  let t := Eolo.forecastOnly in
  let schema := toJSONSchema t in
  is_Some (mget "coordinates_value" (TypeDefinitions t))
  /\ isUsedAsArgumentType t "coordinates_value" = true
  /\ (forall function, function ∈ Functions t ->
                       Type_ (Returns function) <> "coordinates_value")
  /\ is_ok schema = true
  /\ mget "coordinates_value" (defsOf schema)
     = Some (JObj [("oneOf",
                    JArr [transformTypeInfo (TypeDefinitions t) Eolo.coordinates_value;
                          ref "func_call_returning_coordinates_value"])])
  /\ "func_call_returning_coordinates_value" ∈ refTargets (JObj (defsOf schema))
  /\ mget "func_call_returning_coordinates_value" (defsOf schema) = None.
Proof.
  cbv zeta. split_and!; try reflexivity.
  - by eexists.
  - intros function Hin. apply list_elem_of_singleton in Hin. subst function.
    vm_compute. discriminate.
  - compute_done.
Qed.

End SchemaFacts.

(** ** The unprocessable-request fallback *)

Module HandlerFacts.
Import Execution.
Import Handler.

Section Runtime.
Context `{GoRuntime}.
Variable CreatePromptForFuncCalls : Tools.ToolSet -> result string string.
Variable renderSchema : json -> string.
Variable unmarshalMainFunctions : string -> result string (list json).
Variable evaluationPrompt : string -> Parser.PlannedFuncCall -> Tools.ToolSet -> result string string.
Variable evaluationSchema : string.
Variable unmarshalSuccess : string -> result string bool.
Variable executeConcurrent :
  Orchestrator -> list Parser.PlannedFuncCall -> State -> result Execution.Error Result * State.

Abbreviation generate := (generateFunctionCalls CreatePromptForFuncCalls renderSchema
                        unmarshalMainFunctions).
Abbreviation evaluate := (evaluateFuncCallsConsistency evaluationPrompt evaluationSchema
                        unmarshalSuccess).
Abbreviation process := (ProcessUserRequest CreatePromptForFuncCalls renderSchema
                       unmarshalMainFunctions evaluationPrompt evaluationSchema
                       unmarshalSuccess executeConcurrent).

(** C6.  When the parser returns no call, or the validator keeps none,
    [ProcessUserRequest] returns, without error, the result of
    [UnprocessableRequestExecutions]: one call, named
    [__builtin__.unprocessable_request], whose result has [Present = false]
    and a [FormatFunc] that returns the fixed sentence. *)
Theorem unprocessable_fallback (a : RequestHandler) (message : string) (st : State) :
  (forall st1,
      generate a (altered a message) st = (Ok [], st1) ->
      process a message st = (Ok (mkProcessingResult UnprocessableRequestExecutions), st1))
  /\ (forall calls st1 st2,
         generate a (altered a message) st = (Ok calls, st1) ->
         evaluate a (altered a message) calls st1 = (Ok [], st2) ->
         process a message st = (Ok (mkProcessingResult UnprocessableRequestExecutions), st2))
  /\ exists ff,
       FuncCalls UnprocessableRequestExecutions
       = [mkExecutedFuncCall "__builtin__.unprocessable_request"
            "Return a response for an unprocessable request" []
            (mkFuncResult false JNull (Some ff) JNull)]
       /\ ff () = ("Unable to process this request. Please rephrase or provide a different query.",
                   None).
Proof.
  split_and!.
  - intros st1 Hgen. unfold ProcessUserRequest. by rewrite Hgen.
  - intros calls st1 st2 Hgen Heval. unfold ProcessUserRequest. by rewrite Hgen, Heval.
  - by eexists.
Qed.

End Runtime.

(** What the user reads when the request was unprocessable. *)
Lemma unprocessable_format :
  Format (MainFuncResults UnprocessableRequestExecutions) ""
  = ("Unable to process this request. Please rephrase or provide a different query.", None).
Proof. reflexivity. Qed.

#[local] Existing Instance Eolo.plainRuntime.

(** Scenarios E3 and E2: an empty [main_functions], and a plan the validator
    rejects. *)
Lemma unprocessable_fallback_witness :
  let prompt := fun _ : Tools.ToolSet => Ok (E := string) "prompt" in
  let render := fun _ : json => "schema" in
  let evalPrompt := fun (_ : string) (_ : Parser.PlannedFuncCall) (_ : Tools.ToolSet) =>
                      Ok (E := string) "is this plan grounded?" in
  let reject := fun _ : string => Ok (E := string) false in
  let a := Eolo.handlerAnswering "{}" in
  let st := NewState tt in
  let fallback := (Ok (mkProcessingResult UnprocessableRequestExecutions), st) in
  (generateFunctionCalls prompt render (fun _ => Ok []) a "weather?" st = (Ok [], st)
   /\ ProcessUserRequest prompt render (fun _ => Ok []) evalPrompt "" reject executeSeq
        a "weather?" st = fallback)
  /\ (exists calls,
         generateFunctionCalls prompt render (fun _ => Ok Eolo.e2_main_functions) a "weather?" st
         = (Ok calls, st)
         /\ calls <> []
         /\ evaluateFuncCallsConsistency evalPrompt "" reject a "weather?" calls st = (Ok [], st))
  /\ ProcessUserRequest prompt render (fun _ => Ok Eolo.e2_main_functions) evalPrompt ""
       reject executeSeq a "weather?" st = fallback.
Proof.
  cbv zeta. split_and!.
  - reflexivity.
  - exact (proj1 (unprocessable_fallback
                    (fun _ => Ok "prompt") (fun _ => "schema") (fun _ => Ok [])
                    (fun _ _ _ => Ok "is this plan grounded?") "" (fun _ => Ok false)
                    executeSeq (Eolo.handlerAnswering "{}") "weather?" (NewState tt))
             (NewState tt) eq_refl).
  - eexists. split_and!; [reflexivity|discriminate|reflexivity].
  - exact (proj1 (proj2 (unprocessable_fallback
                    (fun _ => Ok "prompt") (fun _ => "schema")
                    (fun _ => Ok Eolo.e2_main_functions)
                    (fun _ _ _ => Ok "is this plan grounded?") "" (fun _ => Ok false)
                    executeSeq (Eolo.handlerAnswering "{}") "weather?" (NewState tt)))
             _ (NewState tt) (NewState tt) eq_refl eq_refl).
Defined.

End HandlerFacts.

(** ** The plan parser: shape of the result and of its errors *)

Module PlanFacts.
Import GoMapFacts.
Import ParserFacts.
Import Parser.
Import Shapes.

Lemma json_size_entry (fields : gomap json) (key : string) (value : json) :
  (key, value) ∈ fields -> json_size value < json_size (JObj fields).
Proof.
  simpl. induction fields as [|[k v] fields IH]; intros Hin.
  - by apply elem_of_nil in Hin.
  - apply elem_of_cons in Hin as [[= -> ->]|Hin]; simpl; [lia|].
    specialize (IH Hin). lia.
Qed.

(** The value found under [func_call] inside an argument of [args] inside
    the details of a call is strictly smaller than those details. *)
Lemma json_size_nested (detailsMap args v : gomap json) (key fn : string) (fd : json) :
  mget "args" detailsMap = Some (JObj args) ->
  (key, JObj v) ∈ args ->
  mget "func_call" v = Some (JObj [(fn, fd)]) ->
  json_size fd < json_size (JObj detailsMap).
Proof.
  intros Hargs Hin Hfc.
  apply mget_Some_elem, json_size_entry in Hargs.
  apply json_size_entry in Hin.
  apply mget_Some_elem, json_size_entry in Hfc.
  assert (json_size fd < json_size (JObj [(fn, fd)])) by (simpl; lia).
  lia.
Qed.

Lemma parseFuncDetails_shape (name : string) (details : json) (call : PlannedFuncCall) :
  parseFuncDetails name details = Ok call ->
  exists detailsMap purpose args parsed,
    details = JObj detailsMap
    /\ mget "purpose" detailsMap = Some (JStr purpose)
    /\ mget "args" detailsMap = Some (JObj args)
    /\ parseArgs parseFuncDetails args = Ok parsed
    /\ call = mkPlannedFuncCall name purpose parsed.
Proof.
  rewrite parseFuncDetails_eq.
  destruct details as [| | | | |detailsMap]; try done.
  destruct (mget "purpose" detailsMap) as [[| | |purpose| |]|] eqn:Hpurpose; try done.
  destruct (mget "args" detailsMap) as [[| | | | |args]|] eqn:Hargs; try done.
  destruct (parseArgs parseFuncDetails args) as [parsed|] eqn:Hp; [|done].
  intros [= <-]. by exists detailsMap, purpose, args, parsed.
Qed.

Lemma parseFuncDetails_name (name : string) (details : json) (call : PlannedFuncCall) :
  parseFuncDetails name details = Ok call -> Name call = name.
Proof.
  intros H. apply parseFuncDetails_shape in H as (? & ? & ? & ? & _ & _ & _ & _ & ->). done.
Qed.

Lemma parseMainFunctions_calls (fs : list json) (acc calls : list PlannedFuncCall) :
  parseMainFunctions fs acc = Ok calls ->
  exists new, calls = acc ++ new /\ Forall2 parsedFrom fs new.
Proof.
  revert acc. induction fs as [|entry fs IH]; simpl; intros acc H.
  - injection H as <-. exists []. by rewrite app_nil_r.
  - destruct entry as [| | | | |[|[funcName funcDetails] [|]]]; try done.
    destruct (parseFuncDetails funcName funcDetails) as [call|] eqn:Hcall; [|done].
    destruct (IH _ H) as (new & -> & Hnew).
    exists (call :: new). split; [by rewrite <- app_assoc|].
    constructor; [|done].
    pose proof (parseFuncDetails_name _ _ _ Hcall) as Hname.
    exists funcDetails. by rewrite Hname.
Qed.

Lemma parseMainFunctions_complete (fs : list json) (acc new : list PlannedFuncCall) :
  Forall2 parsedFrom fs new -> parseMainFunctions fs acc = Ok (acc ++ new).
Proof.
  intros H. revert acc. induction H as [|entry call fs new (details & -> & Hcall) _ IH];
    intros acc; simpl.
  - by rewrite app_nil_r.
  - rewrite Hcall, IH. by rewrite <- app_assoc.
Qed.

(** X1.  When the reply decodes, [ParseJsonFunctions] succeeds exactly when
    every entry of [main_functions] is an object with a single key whose
    value parses as the details of a call; the plan then holds one call per
    entry, in the order of the entries, each named by the key of its entry. *)
Theorem plan_has_one_call_per_entry (unmarshalMainFunctions : string -> result string (list json))
    (jsonData : string) (MainFunctions : list json) (calls : list PlannedFuncCall) :
  unmarshalMainFunctions jsonData = Ok MainFunctions ->
  ParseJsonFunctions unmarshalMainFunctions jsonData = Ok calls
  <-> Forall2 parsedFrom MainFunctions calls.
Proof.
  intros Hdec. unfold ParseJsonFunctions. rewrite Hdec. split.
  - destruct MainFunctions as [|entry rest].
    + intros [= <-]. constructor.
    + intros H. by apply parseMainFunctions_calls in H as (new & -> & Hnew).
  - intros H. destruct MainFunctions as [|entry rest].
    + by apply Forall2_nil_inv_l in H as ->.
    + by rewrite (parseMainFunctions_complete _ [] _ H).
Qed.

Lemma plan_has_one_call_per_entry_witness :
  let calls := [mkPlannedFuncCall "get_weather_forecast" "forecast"
                  [("coordinates", Literal (JObj [("lat", JNum 0%float); ("lon", JNum 0%float)]))]] in
  ParseJsonFunctions (fun _ => Ok Eolo.e2_main_functions) "{}" = Ok calls
  /\ Forall2 parsedFrom Eolo.e2_main_functions calls.
Proof.
  cbv zeta. split; [reflexivity|].
  exact (proj1 (plan_has_one_call_per_entry (fun _ => Ok Eolo.e2_main_functions) "{}"
                  Eolo.e2_main_functions _ eq_refl) eq_refl).
Defined.

Section Loop.
Variable pfd : string -> json -> result Error PlannedFuncCall.

(** The loop of [parseArgs] fails only with what the nested parse returned,
    under the two contexts added on the way out. *)
Lemma parseArgsLoop_error (args : gomap json) (acc : gomap ArgValue) (e : Error) :
  (forall key v fn fd e', (key, JObj v) ∈ args ->
     mget "func_call" v = Some (JObj [(fn, fd)]) ->
     pfd fn fd = Err e' -> isInvalidJSON e' = true) ->
  parseArgsLoop pfd args acc = Err e -> isInvalidJSON e = true.
Proof.
  revert acc. induction args as [|[key value] args IH]; simpl; intros acc Hin H; [done|].
  destruct (parseArg pfd key value acc) as [acc1|e1] eqn:Harg.
  - eapply IH; [|exact H]. intros k v fn fd e' Hk. apply (Hin k). apply elem_of_cons. by right.
  - injection H as <-.
    destruct value as [| | |s| |v]; simpl in Harg; try done.
    + by destruct (String.eqb s "").
    + rewrite mget_with_mget in Harg.
      destruct (mget "func_call" v) as [[| | | | |funcCall]|] eqn:Hfc; try done.
      destruct funcCall as [|[fn fd] [|second rest]]; simpl in Harg.
      * by injection Harg as <-.
      * destruct (pfd fn fd) as [call|e'] eqn:Hcall; [done|].
        injection Harg as <-. simpl.
        eapply (Hin key); [|exact Hfc|exact Hcall]. apply elem_of_cons. by left.
      * by injection Harg as <-.
Qed.

Lemma mset_elem {V} (k k' : string) (v v' : V) (m : gomap V) :
  (k', v') ∈ mset k v m -> (k', v') = (k, v) \/ (k', v') ∈ m.
Proof.
  induction m as [|[k0 v0] m IH]; simpl.
  - intros H. apply list_elem_of_singleton in H. by left.
  - destruct (String.eqb k k0).
    + intros H. apply elem_of_cons in H as [H|H]; [by left|].
      right. apply elem_of_cons. by right.
    + intros H. apply elem_of_cons in H as [H|H].
      * right. apply elem_of_cons. by left.
      * destruct (IH H) as [?|?]; [by left|]. right. apply elem_of_cons. by right.
Qed.

Lemma mset_keys {V} (k : string) (v : V) (m : gomap V) :
  keys (mset k v m) = if decide (k ∈ keys m) then keys m else keys m ++ [k].
Proof.
  unfold keys. induction m as [|[k0 v0] m IH]; [done|].
  cbn [mset]. destruct (String.eqb_spec k k0) as [->|Hne]; rewrite !fmap_cons; cbn [fst].
  - rewrite decide_True; [done|]. apply elem_of_cons. by left.
  - rewrite IH. destruct (decide (k ∈ m.*1)) as [Hin|Hout].
    + rewrite decide_True; [done|]. apply elem_of_cons. by right.
    + rewrite decide_False; [done|]. intros H. apply elem_of_cons in H as [?|?]; done.
Qed.

Lemma mset_NoDup {V} (k : string) (v : V) (m : gomap V) :
  NoDup (keys m) -> NoDup (keys (mset k v m)).
Proof.
  intros Hnd. rewrite mset_keys. destruct (decide (k ∈ keys m)) as [Hin|Hout]; [done|].
  apply NoDup_app. split_and!; [done| |apply NoDup_singleton].
  intros x Hx Hx'. apply list_elem_of_singleton in Hx' as ->. done.
Qed.

(** The parsed mapping has distinct keys, and the calls stored in it are
    those the nested parse returned. *)
Lemma parseArgsLoop_keeps (P : PlannedFuncCall -> Prop) (args : gomap json)
    (acc parsed : gomap ArgValue) :
  (forall key v fn fd call, (key, JObj v) ∈ args ->
     mget "func_call" v = Some (JObj [(fn, fd)]) ->
     pfd fn fd = Ok call -> P call) ->
  NoDup (keys acc) ->
  (forall key call, (key, Nested call) ∈ acc -> P call) ->
  parseArgsLoop pfd args acc = Ok parsed ->
  NoDup (keys parsed) /\ (forall key call, (key, Nested call) ∈ parsed -> P call).
Proof.
  revert acc. induction args as [|[key value] args IH]; simpl; intros acc Hin Hnd Hacc H.
  - by injection H as <-.
  - destruct (parseArg pfd key value acc) as [acc1|e1] eqn:Harg; [|done].
    assert (Hrest : forall key v fn fd call, (key, JObj v) ∈ args ->
              mget "func_call" v = Some (JObj [(fn, fd)]) -> pfd fn fd = Ok call -> P call).
    { intros k v fn fd call Hk. apply (Hin k). apply elem_of_cons. by right. }
    assert (Hlit : forall lit, acc1 = mset key (Literal lit) acc ->
              NoDup (keys acc1) /\ (forall key call, (key, Nested call) ∈ acc1 -> P call)).
    { intros lit ->. split; [by apply mset_NoDup|].
      intros k call Hk. apply mset_elem in Hk as [[=]|Hk]. by eapply Hacc. }
    assert (Hgoal : NoDup (keys acc1) /\ (forall key call, (key, Nested call) ∈ acc1 -> P call)).
    { destruct value as [| | |s| |v]; simpl in Harg;
        try (injection Harg as <-; by eapply Hlit).
      - destruct (String.eqb s ""); injection Harg as <-; [done|by eapply Hlit].
      - rewrite mget_with_mget in Harg.
        destruct (mget "func_call" v) as [[| | | | |funcCall]|] eqn:Hfc;
          try (injection Harg as <-; by eapply Hlit).
        destruct funcCall as [|[fn fd] [|second rest]]; simpl in Harg; try done.
        destruct (pfd fn fd) as [call|e'] eqn:Hcall; [|done].
        injection Harg as <-. split; [by apply mset_NoDup|].
        intros k c Hk. apply mset_elem in Hk as [[= _ ->]|Hk]; [|by eapply Hacc].
        eapply (Hin key); [|exact Hfc|exact Hcall]. apply elem_of_cons. by left. }
    destruct Hgoal as [Hnd1 Hacc1]. by eapply IH.
Qed.
End Loop.

Lemma parseFuncDetails_error_bounded (n : nat) :
  forall details, json_size details < n ->
  forall name e, parseFuncDetails name details = Err e -> isInvalidJSON e = true.
Proof.
  induction n as [|n IH]; intros details Hsize name e; [lia|].
  rewrite parseFuncDetails_eq.
  destruct details as [| | | | |detailsMap]; try by intros [= <-].
  destruct (mget "purpose" detailsMap) as [[| | |purpose| |]|]; try by intros [= <-].
  destruct (mget "args" detailsMap) as [[| | | | |args]|] eqn:Hargs; try by intros [= <-].
  destruct (parseArgs parseFuncDetails args) as [parsed|e0] eqn:Hp; [done|].
  intros [= <-]. eapply parseArgsLoop_error; [|exact Hp].
  intros key v fn fd e' Hin Hfc. apply IH.
  pose proof (json_size_nested _ _ _ _ _ _ Hargs Hin Hfc). lia.
Qed.

Lemma parseFuncDetails_error (name : string) (details : json) (e : Error) :
  parseFuncDetails name details = Err e -> isInvalidJSON e = true.
Proof. apply (parseFuncDetails_error_bounded (S (json_size details))). lia. Qed.

Lemma parseMainFunctions_error (fs : list json) (acc : list PlannedFuncCall) (e : Error) :
  parseMainFunctions fs acc = Err e -> isInvalidJSON e = true.
Proof.
  revert acc. induction fs as [|entry fs IH]; simpl; intros acc H; [done|].
  destruct entry as [| | | | |[|[funcName funcDetails] [|]]]; try by injection H as <-.
  destruct (parseFuncDetails funcName funcDetails) as [call|e0] eqn:Hcall.
  - by eapply IH.
  - injection H as <-. by eapply parseFuncDetails_error.
Qed.

(** X2.  An error of [ParseJsonFunctions] is either the decoder's own, or it
    satisfies [errors.Is(err, ErrInvalidJSON)], however deep in the plan the
    malformed call sits and however many contexts were wrapped around it. *)
Theorem parse_error_is_invalid_json (unmarshalMainFunctions : string -> result string (list json))
    (jsonData : string) (e : Error) :
  ParseJsonFunctions unmarshalMainFunctions jsonData = Err e ->
  match unmarshalMainFunctions jsonData with
  | Err message => e = ErrUnmarshal message
  | Ok _ => isInvalidJSON e = true
  end.
Proof.
  unfold ParseJsonFunctions.
  destruct (unmarshalMainFunctions jsonData) as [[|entry rest]|message]; try done.
  - apply parseMainFunctions_error.
  - by intros [= <-].
Qed.

Lemma parse_error_is_invalid_json_witness :
  let MainFunctions :=
    [JObj [("get_weather_forecast",
            JObj [("purpose", JStr "forecast");
                  ("args", JObj [("coordinates",
                                  JObj [("func_call",
                                         JObj [("get_coordinates", JStr "Turin")])])])])]] in
  let e :=
    ErrWrapped "error parsing nested function for arg 'coordinates'"
      (ErrWrapped "error parsing nested function 'get_coordinates'"
         (ErrInvalidJSON "function details not a map")) in
  ParseJsonFunctions (fun _ => Ok MainFunctions) "{}" = Err e /\ isInvalidJSON e = true.
Proof.
  intros MainFunctions e. split; [reflexivity|].
  exact (parse_error_is_invalid_json (fun _ => Ok MainFunctions) "{}" e eq_refl).
Defined.

Lemma parseFuncDetails_wellKeyed_bounded (n : nat) :
  forall details, json_size details < n ->
  forall name call, parseFuncDetails name details = Ok call -> wellKeyed call.
Proof.
  induction n as [|n IH]; intros details Hsize name call H; [lia|].
  apply parseFuncDetails_shape in H
    as (detailsMap & purpose & args & parsed & -> & _ & Hargs & Hp & ->).
  destruct (parseArgsLoop_keeps parseFuncDetails wellKeyed args [] parsed) as [Hnd Hnested].
  - intros key v fn fd call Hin Hfc. apply IH.
    pose proof (json_size_nested _ _ _ _ _ _ Hargs Hin Hfc). lia.
  - constructor.
  - intros key call Hin. by apply elem_of_nil in Hin.
  - exact Hp.
  - by constructor.
Qed.

(** A call the parser returns has distinct argument names at every depth. *)
Lemma parseFuncDetails_wellKeyed (name : string) (details : json) (call : PlannedFuncCall) :
  parseFuncDetails name details = Ok call -> wellKeyed call.
Proof. apply (parseFuncDetails_wellKeyed_bounded (S (json_size details))). lia. Qed.

End PlanFacts.

(** ** Execution: the executed call against the planned call *)

Module RunFacts.
Import GoMapFacts.
Import PlanFacts.
Import RequiredFacts.
Import MemoFacts.
Import Execution.
Import Shapes.
Import Runs.

(** The materialized arguments hold, under each key, what the argument of
    that key materializes to. *)
Lemma createProcessedArgsLoop_lookup (args : gomap Arg) (acc : gomap json) (key : string) :
  NoDup (keys args) ->
  mget key (createProcessedArgsLoop args acc)
  = match materialized (mget key args) with
    | Some v => Some v
    | None => mget key acc
    end.
Proof.
  unfold keys. revert acc. induction args as [|[k a] args IH]; intros acc Hnd; [done|].
  rewrite fmap_cons in Hnd. cbn [fst] in Hnd. apply NoDup_cons in Hnd as [Hk Hnd].
  cbn [createProcessedArgsLoop mget]. rewrite (IH _ Hnd).
  destruct (String.eqb_spec key k) as [->|Hne].
  - assert (Hrest : mget k args = None) by by apply mget_None.
    rewrite Hrest. cbn [materialized].
    destruct a as [v|f]; cbn [materialized].
    + apply mget_mset_eq.
    + destruct (Present (Result_ f)); [apply mget_mset_eq|done].
  - destruct (materialized (mget key args)); [done|].
    destruct a as [v|f]; [by apply mget_mset_ne|].
    destruct (Present (Result_ f)); [by apply mget_mset_ne|done].
Qed.

Lemma createProcessedArgs_lookup_any (argsExecution : gomap Arg) (key : string) :
  NoDup (keys argsExecution) ->
  mget key (createProcessedArgs argsExecution) = materialized (mget key argsExecution).
Proof.
  intros Hnd. unfold createProcessedArgs. rewrite createProcessedArgsLoop_lookup; [|done].
  by destruct (materialized (mget key argsExecution)).
Qed.

(** X3.  [createProcessedArgs] gives the executor, under each key, the
    literal of a literal argument and the value of a nested call that
    produced data; the key of a nested call without data, like a key the
    call does not have, is absent. *)
Theorem createProcessedArgs_lookup (argsExecution : gomap Arg) (key : string) :
  NoDup (keys argsExecution) ->
  mget key (createProcessedArgs argsExecution) = materialized (mget key argsExecution).
Proof. apply createProcessedArgs_lookup_any. Qed.

Lemma createProcessedArgs_lookup_witness :
  let child := mkExecutedFuncCall "get_coordinates" "locate" [] Eolo.notFound in
  let args := [("days", ValueArg (JNum 3%float)); ("coordinates", FuncArg child)] in
  NoDup (keys args)
  /\ mget "coordinates" (createProcessedArgs args) = None
  /\ mget "days" (createProcessedArgs args) = Some (JNum 3%float).
Proof.
  intros child args.
  assert (Hnd : NoDup (keys args)) by compute_done.
  split_and!; [exact Hnd| |].
  - exact (createProcessedArgs_lookup args "coordinates" Hnd).
  - exact (createProcessedArgs_lookup args "days" Hnd).
Defined.

Section Runtime.
Context `{GoRuntime}.
Variable o : Orchestrator.

Section Loop.
Variable ex : Parser.PlannedFuncCall -> State -> result Error ExecutedFuncCall * State.

Lemma processArgsLoop_NoDup (funcName : string) (fargs : gomap Parser.ArgValue) :
  forall acc st args st',
    NoDup (keys acc) ->
    processArgsLoop ex funcName fargs acc st = (Ok args, st') -> NoDup (keys args).
Proof.
  induction fargs as [|[key value] fargs IH]; intros acc st args st' Hnd; simpl.
  - by intros [= <- _].
  - destruct value as [v|v].
    + apply IH. by apply mset_NoDup.
    + destruct (ex v st) as [[funcExe|err] st1]; [|done].
      apply IH. by apply mset_NoDup.
Qed.

Lemma processArgsLoop_other (funcName : string) (fargs : gomap Parser.ArgValue) (key : string) :
  key ∉ keys fargs ->
  forall acc st args st',
    processArgsLoop ex funcName fargs acc st = (Ok args, st') -> mget key args = mget key acc.
Proof.
  unfold keys. induction fargs as [|[k value] fargs IH]; intros Hk acc st args st'; simpl.
  - by intros [= <- _].
  - rewrite fmap_cons in Hk. cbn [fst] in Hk. apply not_elem_of_cons in Hk as [Hne Hk].
    destruct value as [v|v].
    + intros Hloop. rewrite (IH Hk _ _ _ _ Hloop). by apply mget_mset_ne.
    + destruct (ex v st) as [[funcExe|err] st1]; [|done].
      intros Hloop. rewrite (IH Hk _ _ _ _ Hloop). by apply mget_mset_ne.
Qed.

(** A successful loop ran every nested call of [fargs] with success, and
    left under each key what it made of the entry. *)
Lemma processArgsLoop_entries (P : Parser.PlannedFuncCall -> ExecutedFuncCall -> Prop)
    (funcName : string) (fargs : gomap Parser.ArgValue) :
  (forall key call st child st',
      (key, Parser.Nested call) ∈ fargs -> ex call st = (Ok child, st') -> P call child) ->
  NoDup (keys fargs) ->
  forall acc st args st',
    processArgsLoop ex funcName fargs acc st = (Ok args, st') ->
    (forall key v, (key, Parser.Literal v) ∈ fargs -> mget key args = Some (ValueArg v))
    /\ (forall key call, (key, Parser.Nested call) ∈ fargs ->
          exists child, mget key args = Some (FuncArg child) /\ P call child).
Proof.
  unfold keys. induction fargs as [|[k value] fargs IH]; intros HP Hnd acc st args st' Hloop.
  - split; intros ? ? Hin; by apply elem_of_nil in Hin.
  - rewrite fmap_cons in Hnd. cbn [fst] in Hnd. apply NoDup_cons in Hnd as [Hk Hnd].
    assert (HPrest : forall key call st child st',
               (key, Parser.Nested call) ∈ fargs -> ex call st = (Ok child, st') -> P call child).
    { intros key call st0 child st0' Hin. apply (HP key). apply elem_of_cons. by right. }
    simpl in Hloop. destruct value as [v|v].
    + destruct (IH HPrest Hnd _ _ _ _ Hloop) as [Hlit Hnest].
      split.
      * intros key v' Hin. apply elem_of_cons in Hin as [[= -> ->]|Hin]; [|by apply Hlit].
        rewrite (processArgsLoop_other funcName fargs k Hk _ _ _ _ Hloop).
        apply mget_mset_eq.
      * intros key call Hin. apply elem_of_cons in Hin as [[=]|Hin]. by apply Hnest.
    + destruct (ex v st) as [[funcExe|err] st1] eqn:Hrun; [|done].
      destruct (IH HPrest Hnd _ _ _ _ Hloop) as [Hlit Hnest].
      split.
      * intros key v' Hin. apply elem_of_cons in Hin as [[=]|Hin]. by apply Hlit.
      * intros key call Hin. apply elem_of_cons in Hin as [[= -> ->]|Hin]; [|by apply Hnest].
        exists funcExe. split.
        -- rewrite (processArgsLoop_other funcName fargs k Hk _ _ _ _ Hloop).
           apply mget_mset_eq.
        -- eapply (HP k); [|exact Hrun]. apply elem_of_cons. by left.
Qed.

Lemma processArgsLoop_ok_children (funcName : string) (fargs : gomap Parser.ArgValue) :
  forall acc st args st',
    processArgsLoop ex funcName fargs acc st = (Ok args, st') ->
    forall key call, (key, Parser.Nested call) ∈ fargs ->
      exists sta child stb, ex call sta = (Ok child, stb).
Proof.
  induction fargs as [|[k value] fargs IH]; intros acc st args st' Hloop key call Hin.
  - by apply elem_of_nil in Hin.
  - simpl in Hloop. destruct value as [v|v].
    + apply elem_of_cons in Hin as [[=]|Hin]. by eapply IH.
    + destruct (ex v st) as [[funcExe|err] st1] eqn:Hrun; [|done].
      apply elem_of_cons in Hin as [[= -> ->]|Hin]; [by eauto|by eapply IH].
Qed.

(** A failed loop failed in a nested call, and names its key. *)
Lemma processArgsLoop_app (funcName : string) (before rest : gomap Parser.ArgValue) :
  forall acc st,
    processArgsLoop ex funcName (before ++ rest) acc st
    = match processArgsLoop ex funcName before acc st with
      | (Ok args, sta) => processArgsLoop ex funcName rest args sta
      | (Err e, st') => (Err e, st')
      end.
Proof.
  induction before as [|[k value] before IH]; intros acc st; [done|].
  simpl. destruct value as [v|v]; [apply IH|].
  destruct (ex v st) as [[funcExe|err] st1]; [apply IH|done].
Qed.

(** The loop fails at the first nested call that fails: the arguments
    listed before it were processed, and the call was run from the state
    they left. *)
Lemma processArgsLoop_err (funcName : string) (fargs : gomap Parser.ArgValue) :
  forall acc st e st',
    processArgsLoop ex funcName fargs acc st = (Err e, st') ->
    exists before key call after args sta inner,
      fargs = before ++ (key, Parser.Nested call) :: after
      /\ processArgsLoop ex funcName before acc st = (Ok args, sta)
      /\ ex call sta = (Err inner, st')
      /\ e = ErrCall funcName key inner.
Proof.
  induction fargs as [|[k value] fargs IH]; intros acc st e st' Hloop; [done|].
  simpl in Hloop. destruct value as [v|v].
  - destruct (IH _ _ _ _ Hloop)
      as (before & key & call & after & args & sta & inner & -> & Hbefore & Hrun & ->).
    by exists ((k, Parser.Literal v) :: before), key, call, after, args, sta, inner.
  - destruct (ex v st) as [[funcExe|err] st1] eqn:Hv.
    + destruct (IH _ _ _ _ Hloop)
        as (before & key & call & after & args & sta & inner & -> & Hbefore & Hrun & ->).
      exists ((k, Parser.Nested v) :: before), key, call, after, args, sta, inner.
      split_and!; [done| |done..]. simpl. by rewrite Hv.
    + injection Hloop as <- <-. by exists [], k, v, fargs, acc, st, err.
Qed.
End Loop.

Lemma lookupOrInvoke_ok_shape (executor : FuncExecutor) (function : Parser.PlannedFuncCall)
    (argsExecution : gomap Arg) (st st' : State) (e : ExecutedFuncCall) :
  lookupOrInvoke executor function argsExecution st = (Ok e, st') ->
  exists result,
    e = mkExecutedFuncCall (Parser.Name function) (Parser.Purpose function) argsExecution result.
Proof.
  unfold lookupOrInvoke. cbn zeta.
  destruct (Memo _ !! _) as [result|]; [intros [= <- _]; by eexists|].
  destruct (executor _ _) as [[result|err|] w]; [|done..].
  intros [= <- _]. by eexists.
Qed.

(** A successful [executeFunc] went through [processArgs] and returns a call
    built on the arguments it collected. *)
Lemma executeFunc_ok_shape (function : Parser.PlannedFuncCall) (st st' : State)
    (e : ExecutedFuncCall) :
  executeFunc o function st = (Ok e, st') ->
  exists args st1 result,
    is_Some (Functions o !! Parser.Name function)
    /\ processArgs o function st = (Ok args, st1)
    /\ checkRequiredArgs o function args = None
    /\ e = mkExecutedFuncCall (Parser.Name function) (Parser.Purpose function) args result.
Proof.
  rewrite executeFunc_eq.
  destruct (Functions o !! Parser.Name function) as [executor|] eqn:Hexec; [|done].
  destruct (processArgs o function st) as [[args|err] st1] eqn:Hargs; [|done].
  destruct (checkRequiredArgs o function args) as [err|] eqn:Hcheck.
  - pose proof (checkRequiredArgs_not_formattable o _ _ _ Hcheck) as Hno.
    unfold handleMissingRequiredArgsError. by rewrite Hno.
  - intros Hrun. destruct (lookupOrInvoke_ok_shape _ _ _ _ _ _ Hrun) as [result ->].
    exists args, st1, result. split_and!; [by eexists|done..].
Qed.

Lemma executeFunc_mirrors (function : Parser.PlannedFuncCall) :
  wellKeyed function ->
  forall st e st', executeFunc o function st = (Ok e, st') -> mirrors function e.
Proof.
  induction function as [name purpose fargs IH] using Parser.PlannedFuncCall_ind.
  intros Hwk st e st' Hrun. inversion Hwk as [? ? ? Hnd Hnested]; subst.
  apply executeFunc_ok_shape in Hrun as (args & st1 & result & _ & Hargs & _ & ->).
  unfold processArgs in Hargs. cbn [Parser.Name Parser.Purpose Parser.Args] in *.
  destruct (processArgsLoop_entries (executeFunc o) mirrors name fargs) with
    (acc := @nil (string * Arg)) (st := st) (args := args) (st' := st1) as [Hlit Hnest];
    [|done|done|].
  - intros key call st0 child st0' Hin Hchild.
    rewrite Forall_forall in IH. specialize (IH _ Hin). unfold Parser.onNested in IH.
    simpl in IH. eapply IH; [by eapply Hnested|exact Hchild].
  - constructor.
    + intros key Hnone. apply mget_None in Hnone.
      by rewrite (processArgsLoop_other _ _ _ _ Hnone _ _ _ _ Hargs).
    + intros key v Hv. apply Hlit. by apply mget_Some_elem.
    + intros key call Hcall. apply Hnest. by apply mget_Some_elem.
Qed.

Lemma executeFunc_registered (function : Parser.PlannedFuncCall) :
  forall st e st', executeFunc o function st = (Ok e, st') ->
  Forall (registered o) (Parser.CollectAllNestedFuncCalls function).
Proof.
  induction function as [name purpose fargs IH] using Parser.PlannedFuncCall_ind.
  intros st e st' Hrun.
  apply executeFunc_ok_shape in Hrun as (args & st1 & result & Hexec & Hargs & Hcheck & ->).
  unfold processArgs in Hargs. cbn [Parser.Name Parser.Purpose Parser.Args] in *.
  cbn [Parser.CollectAllNestedFuncCalls]. apply Forall_cons. split.
  - split; [done|]. unfold checkRequiredArgs in Hcheck. cbn [Parser.Name] in Hcheck.
    destruct (Tools.FindTool (ToolSet o) name); [by eexists|done].
  - apply Forall_forall. intros x Hx.
    apply list_elem_of_In, in_flat_map in Hx as ([key value] & Hin & Hx).
    apply list_elem_of_In in Hin. simpl in Hx. destruct value as [v|call]; [done|].
    destruct (processArgsLoop_ok_children _ _ _ _ _ _ _ Hargs key call Hin)
      as (sta & child & stb & Hchild).
    rewrite Forall_forall in IH. specialize (IH _ Hin). unfold Parser.onNested in IH.
    simpl in IH. specialize (IH _ _ _ Hchild). rewrite Forall_forall in IH.
    apply IH. by apply list_elem_of_In.
Qed.

(** *** Sequential execution *)

Lemma executeSeqLoop_app (before rest : list Parser.PlannedFuncCall) :
  forall acc st,
    executeSeqLoop o (before ++ rest) acc st
    = match executeSeqLoop o before acc st with
      | (Ok r, st1) => executeSeqLoop o rest (FuncCalls r) st1
      | (Err e, st1) => (Err e, st1)
      end.
Proof.
  induction before as [|function before IH]; intros acc st; simpl; [done|].
  destruct (executeFunc o function st) as [[funcExe|err] st1]; [apply IH|done].
Qed.

Lemma executeSeqLoop_calls (plan : list Parser.PlannedFuncCall) :
  forall acc st r st',
    executeSeqLoop o plan acc st = (Ok r, st') ->
    exists new,
      FuncCalls r = acc ++ new
      /\ Forall2 (fun function e => exists sta stb, executeFunc o function sta = (Ok e, stb))
           plan new.
Proof.
  induction plan as [|function plan IH]; intros acc st r st'; simpl.
  - intros [= <- _]. exists []. by rewrite app_nil_r.
  - destruct (executeFunc o function st) as [[funcExe|err] st1] eqn:Hrun; [|done].
    intros Hloop. destruct (IH _ _ _ _ Hloop) as (new & -> & Hnew).
    exists (funcExe :: new). split; [by rewrite <- app_assoc|].
    constructor; [by eauto|done].
Qed.

(** X4.  What a successful sequential execution returns mirrors the plan:
    one executed call per planned call, in the order of the plan, each with
    the name and the purpose of its planned call, the literal arguments as
    planned, and in the place of every nested call the executed call that
    mirrors it in turn. *)
Theorem executeSeq_mirrors_plan (plan : list Parser.PlannedFuncCall) (st st' : State)
    (r : Result) :
  Forall wellKeyed plan ->
  executeSeq o plan st = (Ok r, st') ->
  Forall2 mirrors plan (FuncCalls r).
Proof.
  intros Hwk Hseq. apply executeSeqLoop_calls in Hseq as (new & -> & Hnew). simpl.
  induction Hnew as [|function e plan new (sta & stb & Hrun) _ IH]; [constructor|].
  apply Forall_cons in Hwk as [Hhead Hwk].
  constructor; [by eapply executeFunc_mirrors|by apply IH].
Qed.

(** X5.  A sequential execution that succeeds has found, for every function
    the plan names at any depth, an executor in the registry and a schema in
    the tool set: a plan that names a function without either fails. *)
Theorem executeSeq_calls_registered (plan : list Parser.PlannedFuncCall) (st st' : State)
    (r : Result) :
  executeSeq o plan st = (Ok r, st') ->
  forall function name,
    function ∈ plan -> name ∈ Parser.CollectAllNestedFuncCalls function -> registered o name.
Proof.
  intros Hseq function name Hin Hname.
  apply executeSeqLoop_calls in Hseq as (new & _ & Hnew).
  destruct (proj1 (list_elem_of_lookup _ _) Hin) as [i Hi].
  destruct (Forall2_lookup_l _ _ _ _ _ Hnew Hi) as (e & _ & sta & stb & Hrun).
  pose proof (executeFunc_registered _ _ _ _ Hrun) as Hall.
  rewrite Forall_forall in Hall. by apply Hall.
Qed.

(** X6.  Executing [before ++ rest] in sequence is executing [before] and
    then [rest] from the state and with the results [before] left; when a
    call fails, the calls after it are not started: the error, under the
    name of the failed call, and the state are those of that call. *)
Theorem executeSeq_stops_at_first_failure (before rest : list Parser.PlannedFuncCall)
    (function : Parser.PlannedFuncCall) (st st1 st2 : State) (r : Result) (e : Error) :
  executeSeq o before st = (Ok r, st1) ->
  (executeSeq o (before ++ rest) st = executeSeqLoop o rest (FuncCalls r) st1)
  /\ (executeFunc o function st1 = (Err e, st2) ->
      executeSeq o (before ++ function :: rest) st
      = (Err (ErrCall (Parser.Name function) "" e), st2)).
Proof.
  unfold executeSeq. intros Hbefore. split.
  - by rewrite executeSeqLoop_app, Hbefore.
  - intros Hrun. rewrite executeSeqLoop_app, Hbefore. simpl. by rewrite Hrun.
Qed.

(** *** Why a call fails *)

Lemma checkRequiredLoop_err (funcName : string) (required : list string) (args : gomap Arg)
    (e : Error) :
  checkRequiredLoop funcName required args = Some e <->
  exists passed paramName rest inner,
    required = passed ++ paramName :: rest
    /\ (forall p, p ∈ passed -> checkRequiredArg p args = None)
    /\ checkRequiredArg paramName args = Some inner
    /\ e = ErrCall funcName paramName inner.
Proof.
  split.
  - induction required as [|p required IH]; simpl; [done|].
    destruct (checkRequiredArg p args) as [err|] eqn:Hp.
    + intros [= <-]. exists [], p, required, err. split_and!; [done| |done..].
      intros q Hq. by apply elem_of_nil in Hq.
    + intros Hrest.
      destruct (IH Hrest) as (passed & q & rest & inner & -> & Hpassed & Hq & ->).
      exists (p :: passed), q, rest, inner. split_and!; [done| |done..].
      intros p' Hin. apply elem_of_cons in Hin as [->|Hin]; [done|by apply Hpassed].
  - intros (passed & paramName & rest & inner & -> & Hpassed & Hparam & ->).
    induction passed as [|p passed IH]; simpl.
    + by rewrite Hparam.
    + rewrite (Hpassed p) by (apply elem_of_cons; by left).
      apply IH. intros q Hq. apply Hpassed, elem_of_cons. by right.
Qed.

(** [lookupOrInvoke] fails only after a memo miss, with what the executor
    answered. *)
Lemma lookupOrInvoke_err (executor : FuncExecutor) (function : Parser.PlannedFuncCall)
    (args : gomap Arg) (st st' : State) (e : Error) :
  lookupOrInvoke executor function args st = (Err e, st') <->
  Memo st !! generateFingerprint (Parser.Name function) (createProcessedArgs args) = None
  /\ exists w, st' = unanswered function args st w
       /\ ((exists inner, executor (createProcessedArgs args) (world st) = (Failed inner, w)
                          /\ e = ErrCall (Parser.Name function) "" inner)
           \/ (executor (createProcessedArgs args) (world st) = (TimedOut, w)
               /\ e = ErrCall (Parser.Name function) ""
                        (ErrString "function execution timed out"))).
Proof.
  unfold lookupOrInvoke, unanswered. cbn zeta. cbn [record Memo world trace].
  destruct (Memo st !! _) as [result|] eqn:Hmemo.
  { split; [done|]. by intros [? _]. }
  destruct (executor _ _) as [[result|err|] w] eqn:Hrun.
  - split; [done|]. intros (_ & w' & _ & [(inner & [=] & _)|[[=] _]]).
  - split.
    + intros [= <- <-]. split; [done|]. exists w. split; [done|]. left. by exists err.
    + intros (_ & w' & -> & [(inner & [= -> ->] & ->)|[[=] _]]). done.
  - split.
    + intros [= <- <-]. split; [done|]. exists w. split; [done|]. by right.
    + intros (_ & w' & -> & [(inner & [=] & _)|[[= ->] ->]]). done.
Qed.

(** X7.  [executeFunc] fails exactly for one of six causes, each a fact of
    the run that failed, and the error says which: the function is unknown;
    a nested call failed after the arguments listed before it were
    processed (the error names the argument and carries the error of the
    nested call); the tool set has no schema for the function; a required
    parameter, the first that [checkRequiredArg] rejects on the processed
    arguments, is not satisfied (the error names the parameter and carries
    the error of [checkRequiredArg]); the executor, run on a memo miss on
    the materialized arguments, failed or timed out.  All but the missing
    schema come under the name of the call. *)
Theorem executeFunc_failure (function : Parser.PlannedFuncCall) (st st' : State) (e : Error) :
  executeFunc o function st = (Err e, st') <-> failure o function st e st'.
Proof.
  rewrite executeFunc_eq. split.
  - destruct (Functions o !! Parser.Name function) as [executor|] eqn:Hexec.
    + destruct (processArgs o function st) as [[args|err] st1] eqn:Hargs.
      * destruct (checkRequiredArgs o function args) as [err|] eqn:Hcheck.
        -- pose proof (checkRequiredArgs_not_formattable o _ _ _ Hcheck) as Hno.
           unfold handleMissingRequiredArgsError. rewrite Hno. intros [= <- <-].
           unfold checkRequiredArgs in Hcheck.
           destruct (Tools.FindTool (ToolSet o) (Parser.Name function))
             as [schema|] eqn:Hschema.
           ++ apply checkRequiredLoop_err in Hcheck
                as (passed & p & rest & inner & Hreq & Hpassed & Hp & ->).
              by eapply required_missing.
           ++ injection Hcheck as <-. by eapply schema_not_found.
        -- intros Hrun.
           apply lookupOrInvoke_err in Hrun
             as (Hmiss & w & -> & [(inner & Hout & ->)|[Hout ->]]).
           ++ by eapply executor_failed.
           ++ by eapply executor_timed_out.
      * intros [= <- <-]. unfold processArgs in Hargs.
        apply processArgsLoop_err in Hargs
          as (before & key & call & after & args & sta & inner & Hsplit & Hbefore & Hrun & ->).
        by eapply nested_failure.
    + intros [= <- <-]. by apply unknown_function.
  - intros Hfail.
    destruct Hfail as [Hnone
                      |before key call after args sta inner st' [executor Hexec] Hsplit Hbefore Hrun
                      |args st' [executor Hexec] Hargs Hschema
                      |schema args passed p rest inner st' [executor Hexec] Hargs Hschema Hreq
                         Hpassed Hp
                      |executor args st1 inner w Hexec Hargs Hcheck Hmiss Hout
                      |executor args st1 w Hexec Hargs Hcheck Hmiss Hout].
    + by rewrite Hnone.
    + rewrite Hexec. unfold processArgs.
      rewrite Hsplit, processArgsLoop_app, Hbefore. simpl. by rewrite Hrun.
    + rewrite Hexec, Hargs. unfold checkRequiredArgs. by rewrite Hschema.
    + rewrite Hexec, Hargs.
      assert (Hcheck : checkRequiredArgs o function args
                       = Some (ErrCall (Parser.Name function) p inner)).
      { unfold checkRequiredArgs. rewrite Hschema. apply checkRequiredLoop_err.
        by exists passed, p, rest, inner. }
      rewrite Hcheck. done.
    + rewrite Hexec, Hargs, Hcheck. apply lookupOrInvoke_err.
      split; [done|]. exists w. split; [done|]. left. by exists inner.
    + rewrite Hexec, Hargs, Hcheck. apply lookupOrInvoke_err.
      split; [done|]. exists w. split; [done|]. by right.
Qed.

(** *** What the executors are given *)

Lemma wellInvoked_refl (st : State) : wellInvoked o st st.
Proof. exists []. split; [by rewrite app_nil_r|constructor]. Qed.

Lemma wellInvoked_trans (st1 st2 st3 : State) :
  wellInvoked o st1 st2 -> wellInvoked o st2 st3 -> wellInvoked o st1 st3.
Proof.
  intros (tr1 & Htr1 & Hall1) (tr2 & Htr2 & Hall2). exists (tr1 ++ tr2). split.
  - by rewrite Htr2, Htr1, app_assoc.
  - rewrite invoked_app. by apply Forall_app.
Qed.

Lemma checkRequiredArg_ok (paramName : string) (args : gomap Arg) :
  checkRequiredArg paramName args = None -> is_Some (materialized (mget paramName args)).
Proof.
  unfold checkRequiredArg. destruct (mget paramName args) as [[v|f]|]; simpl; [by eexists| |done].
  destruct (Present (Result_ f)); [by eexists|]. by destruct (FormatFn (Result_ f)).
Qed.

Lemma checkRequiredLoop_ok (funcName : string) (required : list string) (args : gomap Arg) :
  checkRequiredLoop funcName required args = None ->
  forall paramName, paramName ∈ required -> checkRequiredArg paramName args = None.
Proof.
  induction required as [|p required IH]; simpl; intros Hcheck q Hq.
  - by apply elem_of_nil in Hq.
  - destruct (checkRequiredArg p args) eqn:Hp; [done|].
    apply elem_of_cons in Hq as [->|Hq]; [done|by apply IH].
Qed.

Lemma checked_invocation (function : Parser.PlannedFuncCall) (args : gomap Arg) :
  is_Some (Functions o !! Parser.Name function) ->
  checkRequiredArgs o function args = None ->
  NoDup (keys args) ->
  wellFormedInvocation o (Parser.Name function, createProcessedArgs args).
Proof.
  intros Hexec Hcheck Hnd. unfold checkRequiredArgs in Hcheck.
  destruct (Tools.FindTool (ToolSet o) (Parser.Name function)) as [schema|] eqn:Hschema; [|done].
  exists schema. split_and!.
  - split; [done|]. simpl. rewrite Hschema. by eexists.
  - done.
  - intros p Hp. simpl. rewrite createProcessedArgs_lookup_any; [|done].
    apply checkRequiredArg_ok. by eapply checkRequiredLoop_ok.
Qed.

Lemma lookupOrInvoke_wellInvoked (executor : FuncExecutor) (function : Parser.PlannedFuncCall)
    (args : gomap Arg) (st : State) :
  wellFormedInvocation o (Parser.Name function, createProcessedArgs args) ->
  wellInvoked o st (lookupOrInvoke executor function args st).2.
Proof.
  intros Hwf. unfold lookupOrInvoke. cbn zeta.
  destruct (Memo _ !! _) as [result|].
  - eexists [_]. split; [done|constructor].
  - eexists [_; _]. split.
    + destruct (executor _ _) as [[result|err|] w]; simpl; by rewrite <- app_assoc.
    + simpl. by constructor.
Qed.

Lemma processArgsLoop_wellInvoked (funcName : string) (fargs : gomap Parser.ArgValue) :
  Forall (Parser.onNested (fun v => forall st, wellInvoked o st (executeFunc o v st).2)) fargs ->
  forall args st, wellInvoked o st (processArgsLoop (executeFunc o) funcName fargs args st).2.
Proof.
  induction 1 as [|[key value] fargs Hhead _ IH]; intros args st; simpl.
  - apply wellInvoked_refl.
  - destruct value as [v|v]; [apply IH|].
    unfold Parser.onNested in Hhead. simpl in Hhead. specialize (Hhead st).
    destruct (executeFunc o v st) as [[funcExe|err] st'] eqn:Hrun; [|done].
    eapply wellInvoked_trans; [exact Hhead|apply IH].
Qed.

Lemma executeFunc_wellInvoked (function : Parser.PlannedFuncCall) (st : State) :
  wellInvoked o st (executeFunc o function st).2.
Proof.
  revert st. induction function as [name purpose fargs IH] using Parser.PlannedFuncCall_ind.
  intros st. rewrite executeFunc_eq. unfold processArgs. simpl.
  destruct (Functions o !! name) as [executor|] eqn:Hexec; [|apply wellInvoked_refl].
  pose proof (processArgsLoop_wellInvoked name fargs IH [] st) as Hargs.
  destruct (processArgsLoop (executeFunc o) name fargs [] st) as [[args|err] st'] eqn:Hloop;
    [|done].
  destruct (checkRequiredArgs o (Parser.mkPlannedFuncCall name purpose fargs) args)
    as [err|] eqn:Hcheck; [done|].
  eapply wellInvoked_trans; [exact Hargs|].
  apply lookupOrInvoke_wellInvoked.
  apply (checked_invocation (Parser.mkPlannedFuncCall name purpose fargs));
    [by eexists|done|].
  eapply processArgsLoop_NoDup; [|exact Hloop]. constructor.
Qed.

Lemma executeSeqLoop_wellInvoked (functions : list Parser.PlannedFuncCall)
    (done_ : list ExecutedFuncCall) (st : State) :
  wellInvoked o st (executeSeqLoop o functions done_ st).2.
Proof.
  revert done_ st. induction functions as [|function functions IH]; intros done_ st; simpl.
  - apply wellInvoked_refl.
  - pose proof (executeFunc_wellInvoked function st) as Hhead.
    destruct (executeFunc o function st) as [[funcExe|err] st'] eqn:Hrun; [|done].
    eapply wellInvoked_trans; [exact Hhead|apply IH].
Qed.

(** X8.  Whatever the plan and however the execution ends, an executor runs
    only for a function that has a schema in the tool set, and only on
    arguments that give a value to every parameter the schema requires. *)
Theorem executors_get_their_required_arguments (plan : list Parser.PlannedFuncCall)
    (st : State) :
  wellInvoked o st (executeSeq o plan st).2.
Proof. apply executeSeqLoop_wellInvoked. Qed.

End Runtime.
End RunFacts.

(** ** Execution: the example plans *)

Module RunExamples.
Import PlanFacts.
Import RunFacts.
Import Execution.
Import Shapes.
Import Runs.

#[local] Existing Instance Eolo.plainRuntime.

Lemma forecastForTurin_wellKeyed : wellKeyed Eolo.forecastForTurin.
Proof.
  apply (parseFuncDetails_wellKeyed "get_weather_forecast"
           (JObj [("purpose", JStr "forecast for the city"); ("args", JObj Eolo.e1_args)])).
  reflexivity.
Qed.

Lemma executeSeq_mirrors_plan_witness :
  let o := Eolo.orchestratorWith (H := Eolo.plainRuntime) (Eolo.answering Eolo.found) in
  let st := NewState (H := Eolo.plainRuntime) tt in
  let plan := [Eolo.forecastForTurin] in
  Forall wellKeyed plan
  /\ exists r st', executeSeq o plan st = (Ok r, st') /\ Forall2 mirrors plan (FuncCalls r).
Proof.
  intros o st plan.
  assert (Hwk : Forall wellKeyed plan).
  { constructor; [apply forecastForTurin_wellKeyed|constructor]. }
  split; [exact Hwk|]. eexists _, _. split; [reflexivity|].
  exact (executeSeq_mirrors_plan o plan st _ _ Hwk eq_refl).
Defined.

Lemma executeSeq_calls_registered_witness :
  let o := Eolo.orchestratorWith (H := Eolo.plainRuntime) (Eolo.answering Eolo.found) in
  let st := NewState (H := Eolo.plainRuntime) tt in
  let plan := [Eolo.forecastForTurin] in
  (exists r st', executeSeq o plan st = (Ok r, st'))
  /\ Eolo.forecastForTurin ∈ plan
  /\ "get_coordinates" ∈ Parser.CollectAllNestedFuncCalls Eolo.forecastForTurin
  /\ registered o "get_coordinates".
Proof.
  intros o st plan.
  assert (Hin : Eolo.forecastForTurin ∈ plan) by (apply elem_of_cons; by left).
  assert (Hname : "get_coordinates" ∈ Parser.CollectAllNestedFuncCalls Eolo.forecastForTurin)
    by compute_done.
  split_and!; [eexists _, _; reflexivity|exact Hin|exact Hname|].
  exact (executeSeq_calls_registered o plan st _ _ eq_refl _ _ Hin Hname).
Defined.

Lemma executeSeq_stops_at_first_failure_witness :
  let o := Eolo.orchestratorWith (H := Eolo.plainRuntime) (Eolo.answering Eolo.found) in
  let st := NewState (H := Eolo.plainRuntime) tt in
  let before := [Eolo.coordinatesOfTurin] in
  let rest := [Eolo.forecastForTurin] in
  exists r st1 e st2,
    executeSeq o before st = (Ok r, st1)
    /\ executeFunc o Eolo.coordinatesOfNothing st1 = (Err e, st2)
    /\ executeSeq o (before ++ Eolo.coordinatesOfNothing :: rest) st
       = (Err (ErrCall "get_coordinates" "" e), st2).
Proof.
  intros o st before rest. eexists _, _, _, _. split_and!; [reflexivity|reflexivity|].
  exact (proj2 (executeSeq_stops_at_first_failure o before rest Eolo.coordinatesOfNothing
                  st _ _ _ _ eq_refl) eq_refl).
Defined.

(** Scenario E3: the executor of [get_coordinates], run on the argument
    [city] after a memo miss, failed. *)
Lemma executeFunc_failure_witness :
  let o := Eolo.orchestratorWith (H := Eolo.plainRuntime) (Eolo.answering Eolo.found) in
  let st := NewState (H := Eolo.plainRuntime) tt in
  exists e st',
    executeFunc o Eolo.coordinatesOfNothing st = (Err e, st')
    /\ failure o Eolo.coordinatesOfNothing st e st'.
Proof.
  intros o st. eexists _, _. split; [reflexivity|].
  exact (proj1 (executeFunc_failure o Eolo.coordinatesOfNothing st _ _) eq_refl).
Defined.

End RunExamples.

(** ** Formatting: results that leave no trace in the text *)

Module RenderFacts.
Import FormatFacts.
Import Execution.

Lemma formatLoop_acc (r : list FuncResult) (acc : list string) :
  formatLoop r acc
  = match formatLoop r [] with
    | Ok formatted => Ok (acc ++ formatted)
    | Err err => Err err
    end.
Proof.
  revert acc. induction r as [|result r IH]; intros acc; simpl.
  - by rewrite app_nil_r.
  - destruct (FormatFn result) as [ff|]; [|apply IH].
    destruct (ff ()) as [buf [err|]]; [done|].
    rewrite (IH (acc ++ [buf])), (IH [buf]).
    destruct (formatLoop r []); [|done]. by rewrite <- app_assoc.
Qed.

Lemma formatLoop_app (r1 r2 : list FuncResult) (acc : list string) :
  formatLoop (r1 ++ r2) acc
  = match formatLoop r1 acc with
    | Ok formatted => formatLoop r2 formatted
    | Err err => Err err
    end.
Proof.
  revert acc. induction r1 as [|result r1 IH]; intros acc; simpl; [done|].
  destruct (FormatFn result) as [ff|]; [|apply IH].
  destruct (ff ()) as [buf [err|]]; [done|apply IH].
Qed.

(** What the first loop collected holds the string of every result that
    has a [FormatFunc]. *)
Lemma formatLoop_elem (r : list FuncResult) (formatted : list string)
    (result : FuncResult) (ff : FormatFunc) :
  formatLoop r [] = Ok formatted -> result ∈ r -> FormatFn result = Some ff ->
  (ff ()).1 ∈ formatted.
Proof.
  revert formatted. induction r as [|x r IH]; intros formatted Hloop Hin Hff.
  - by apply elem_of_nil in Hin.
  - simpl in Hloop. apply elem_of_cons in Hin as [<-|Hin].
    + rewrite Hff in Hloop. destruct (ff ()) as [buf [err|]]; [done|].
      rewrite (formatLoop_acc r [buf]) in Hloop.
      destruct (formatLoop r []); [|done]. injection Hloop as <-.
      simpl. apply elem_of_cons. by left.
    + destruct (FormatFn x) as [ffx|]; [|by apply IH].
      destruct (ffx ()) as [buf [err|]]; [done|].
      rewrite (formatLoop_acc r [buf]) in Hloop.
      destruct (formatLoop r []) as [rest|] eqn:Hrest; [|done]. injection Hloop as <-.
      simpl. apply elem_of_cons. right. by apply IH.
Qed.

Lemma filter_ne_comm (a b : string) (l : list string) :
  filter (fun s => s ≠ a) (filter (fun s => s ≠ b) l)
  = filter (fun s => s ≠ b) (filter (fun s => s ≠ a) l).
Proof.
  induction l as [|x l IH]; [done|].
  rewrite !filter_cons.
  destruct (decide (x ≠ b)) as [Hb|Hb], (decide (x ≠ a)) as [Ha|Ha];
    rewrite ?filter_cons, ?decide_True, ?decide_False by done; by rewrite ?IH.
Qed.

Lemma filter_ne_idemp (a : string) (l : list string) :
  filter (fun s => s ≠ a) (filter (fun s => s ≠ a) l) = filter (fun s => s ≠ a) l.
Proof.
  induction l as [|x l IH]; [done|].
  rewrite !filter_cons. destruct (decide (x ≠ a)) as [Ha|Ha]; [|done].
  by rewrite filter_cons, decide_True, IH.
Qed.

Lemma withoutRepeats_drop_filtered (a : string) (l1 l2 : list string) :
  filter (fun s => s ≠ a) (withoutRepeats (l1 ++ a :: l2))
  = filter (fun s => s ≠ a) (withoutRepeats (l1 ++ l2)).
Proof.
  induction l1 as [|x l1 IH]; simpl.
  - rewrite filter_cons, decide_False by (intros Hn; by apply Hn). apply filter_ne_idemp.
  - rewrite !filter_cons. destruct (decide (x ≠ a)) as [Hx|Hx].
    + f_equal. by rewrite (filter_ne_comm a x), IH, (filter_ne_comm x a).
    + by rewrite (filter_ne_comm a x), IH, (filter_ne_comm x a).
Qed.

(** A string that occurred before adds nothing. *)
Lemma withoutRepeats_drop (a : string) (l1 l2 : list string) :
  a ∈ l1 -> withoutRepeats (l1 ++ a :: l2) = withoutRepeats (l1 ++ l2).
Proof.
  induction l1 as [|x l1 IH]; intros Hin; [by apply elem_of_nil in Hin|].
  simpl. f_equal. destruct (decide (x = a)) as [->|Hne].
  - apply withoutRepeats_drop_filtered.
  - apply elem_of_cons in Hin as [->|Hin]; [done|]. by rewrite IH.
Qed.

Lemma uniqueLoop_withoutRepeats (l : list string) : uniqueLoop l ∅ [] = withoutRepeats l.
Proof. rewrite uniqueLoop_spec. simpl. apply filter_all. set_solver. Qed.

(** X9.  A result is invisible in the text of [Format] when it has no
    [FormatFunc], and when its [FormatFunc] succeeds with a string that the
    [FormatFunc] of an earlier result gives as well: with or without such a
    result in the list, [Format] returns the same text, or the same error. *)
Theorem Format_skips_silent_and_repeated (before after : list FuncResult) (result : FuncResult)
    (separator : string) :
  (FormatFn result = None
   \/ exists earlier ff ff',
        earlier ∈ before /\ FormatFn earlier = Some ff' /\ FormatFn result = Some ff
        /\ ff () = ((ff' ()).1, None)) ->
  Format (before ++ result :: after) separator = Format (before ++ after) separator.
Proof.
  intros Hresult. unfold Format. rewrite !formatLoop_app.
  destruct (formatLoop before []) as [formatted|err] eqn:Hbefore; [|done].
  simpl. destruct Hresult as [Hsilent|(earlier & ff & ff' & Hin & Hff' & Hff & Hsame)].
  - by rewrite Hsilent.
  - rewrite Hff, Hsame.
    pose proof (formatLoop_elem _ _ _ _ Hbefore Hin Hff') as Hseen.
    rewrite (formatLoop_acc after (formatted ++ _)), (formatLoop_acc after formatted).
    destruct (formatLoop after []) as [rest|]; [|done].
    rewrite !uniqueLoop_withoutRepeats, <- app_assoc. simpl.
    by rewrite withoutRepeats_drop.
Qed.

Lemma Format_skips_silent_and_repeated_witness :
  let before := [Eolo.found; Eolo.forecast] in
  let after := [Eolo.silent] in
  (exists earlier ff ff',
      earlier ∈ before /\ FormatFn earlier = Some ff' /\ FormatFn Eolo.found = Some ff
      /\ ff () = ((ff' ()).1, None))
  /\ Format (before ++ Eolo.found :: after) "" = Format (before ++ after) "".
Proof.
  intros before after.
  assert (Hrep : exists earlier ff ff',
             earlier ∈ before /\ FormatFn earlier = Some ff' /\ FormatFn Eolo.found = Some ff
             /\ ff () = ((ff' ()).1, None)).
  { exists Eolo.found. eexists _, _. split_and!; [|reflexivity..].
    apply elem_of_cons. by left. }
  split; [exact Hrep|].
  exact (Format_skips_silent_and_repeated before after Eolo.found "" (or_intror Hrep)).
Defined.

End RenderFacts.

(** ** The request handler: validation and the state *)

Module RequestFacts.
Import GoMapFacts.
Import MemoFacts.
Import RunFacts.
Import Execution.
Import Handler.
Import Runs.

Lemma FindTool_sound (t : Tools.ToolSet) (name : string) (tool : Tools.FuncDefinition) :
  Tools.FindTool t name = Some tool -> tool ∈ Tools.Functions t /\ Tools.fdName tool = name.
Proof.
  unfold Tools.FindTool. intros Hfind. apply find_some in Hfind as [Hin Hname].
  split; [by apply list_elem_of_In|]. by apply String.eqb_eq.
Qed.

Lemma collectUsedTools_ok (at_ : Tools.ToolSet) (names : list string)
    (acc used : list Tools.FuncDefinition) :
  collectUsedTools at_ names acc = Ok used
  <-> exists new,
        used = acc ++ new
        /\ Forall2 (fun name tool => Tools.FindTool at_ name = Some tool) names new.
Proof.
  revert acc. induction names as [|name names IH]; intros acc; simpl.
  - split.
    + intros [= <-]. exists []. by rewrite app_nil_r.
    + intros (new & -> & Hnew). apply Forall2_nil_inv_l in Hnew as ->. by rewrite app_nil_r.
  - destruct (Tools.FindTool at_ name) as [tool|] eqn:Hfind.
    + rewrite IH. split.
      * intros (new & -> & Hnew). exists (tool :: new). split; [by rewrite <- app_assoc|].
        by constructor.
      * intros (new & -> & Hnew). apply Forall2_cons_inv_l in Hnew as (tool' & new' & Hhead & Hnew & ->).
        rewrite Hfind in Hhead. injection Hhead as <-.
        exists new'. split; [by rewrite <- app_assoc|done].
    + split; [done|]. intros (new & -> & Hnew).
      apply Forall2_cons_inv_l in Hnew as (tool' & new' & Hhead & _ & _). congruence.
Qed.

Lemma collectUsedTools_err (at_ : Tools.ToolSet) (names : list string)
    (acc : list Tools.FuncDefinition) (e : Error) :
  collectUsedTools at_ names acc = Err e ->
  exists found missing rest,
    names = found ++ missing :: rest
    /\ Forall (fun name => is_Some (Tools.FindTool at_ name)) found
    /\ Tools.FindTool at_ missing = None
    /\ e = ErrMessage ("tool " +:+ missing +:+ " not found").
Proof.
  revert acc. induction names as [|name names IH]; intros acc; simpl; [done|].
  destruct (Tools.FindTool at_ name) as [tool|] eqn:Hfind.
  - intros Hrest. destruct (IH _ Hrest) as (found & missing & rest & -> & Hfound & Hmiss & ->).
    exists (name :: found), missing, rest. split_and!; [done| |done..].
    constructor; [by eexists|done].
  - intros [= <-]. exists [], name, names. split_and!; [done|constructor|done..].
Qed.

(** X10.  The tool set the validator is shown for a plan entry holds, for
    each name the entry mentions, in the order [CollectAllNestedFuncCalls]
    lists them and as often as it lists them, the first definition of that
    name among the available tools; when a name has none, the error names
    the first such name. *)
Theorem collectUsedTools_spec (at_ : Tools.ToolSet) (names : list string) :
  (forall used,
      collectUsedTools at_ names [] = Ok used
      <-> Forall2 (fun name tool => Tools.FindTool at_ name = Some tool) names used)
  /\ (forall used,
         collectUsedTools at_ names [] = Ok used ->
         Tools.fdName <$> used = names /\ Forall (fun tool => tool ∈ Tools.Functions at_) used)
  /\ (forall e,
         collectUsedTools at_ names [] = Err e ->
         exists found missing rest,
           names = found ++ missing :: rest
           /\ Forall (fun name => is_Some (Tools.FindTool at_ name)) found
           /\ Tools.FindTool at_ missing = None
           /\ e = ErrMessage ("tool " +:+ missing +:+ " not found")).
Proof.
  split_and!.
  - intros used. rewrite collectUsedTools_ok. split.
    + by intros (new & -> & Hnew).
    + intros Hused. by exists used.
  - intros used Hused. apply collectUsedTools_ok in Hused as (new & -> & Hnew). simpl.
    induction Hnew as [|name tool names new Hfind _ [IHnames IHin]]; [by split|].
    apply FindTool_sound in Hfind as [Hin Hname]. split.
    + rewrite fmap_cons. by rewrite Hname, IHnames.
    + by constructor.
  - intros e. apply collectUsedTools_err.
Qed.

Section Runtime.
Context `{GoRuntime}.
Variable CreatePromptForFuncCalls : Tools.ToolSet -> result string string.
Variable renderSchema : json -> string.
Variable unmarshalMainFunctions : string -> result string (list json).
Variable evaluationPrompt :
  string -> Parser.PlannedFuncCall -> Tools.ToolSet -> result string string.
Variable evaluationSchema : string.
Variable unmarshalSuccess : string -> result string bool.
Variable executeConcurrent :
  Orchestrator -> list Parser.PlannedFuncCall -> State -> result Execution.Error Result * State.

Abbreviation generate := (generateFunctionCalls CreatePromptForFuncCalls renderSchema
                            unmarshalMainFunctions).
Abbreviation evaluateOne := (evaluateSingleFunctionCall evaluationPrompt evaluationSchema
                               unmarshalSuccess).
Abbreviation evaluateAll := (evaluateLoop evaluationPrompt evaluationSchema unmarshalSuccess).
Abbreviation evaluate := (evaluateFuncCallsConsistency evaluationPrompt evaluationSchema
                            unmarshalSuccess).
Abbreviation process := (ProcessUserRequest CreatePromptForFuncCalls renderSchema
                           unmarshalMainFunctions evaluationPrompt evaluationSchema
                           unmarshalSuccess executeConcurrent).

Lemma generate_state (a : RequestHandler) (message : string) (st : State) :
  Memo (generate a message st).2 = Memo st /\ trace (generate a message st).2 = trace st.
Proof.
  unfold generateFunctionCalls.
  destruct (CreatePromptForFuncCalls _); [|done].
  destruct (Tools.toJSONSchema _); [|done].
  by destruct (Complete _ _ _ _) as [[?|?] ?].
Qed.

Lemma evaluateOne_state (a : RequestHandler) (message : string)
    (function : Parser.PlannedFuncCall) (usedTools : Tools.ToolSet) (st : State) :
  Memo (evaluateOne a message function usedTools st).2 = Memo st
  /\ trace (evaluateOne a message function usedTools st).2 = trace st.
Proof.
  unfold evaluateSingleFunctionCall.
  destruct (evaluationPrompt _ _ _); [|done].
  by destruct (Complete _ _ _ _) as [[?|?] ?].
Qed.

Lemma evaluateAll_state (a : RequestHandler) (message : string)
    (funcCalls : list Parser.PlannedFuncCall) :
  forall kept st,
    Memo (evaluateAll a message funcCalls kept st).2 = Memo st
    /\ trace (evaluateAll a message funcCalls kept st).2 = trace st.
Proof.
  induction funcCalls as [|function funcCalls IH]; intros kept st; simpl; [done|].
  destruct (collectUsedTools _ _ _) as [usedTools|]; [|done].
  pose proof (evaluateOne_state a message function
                (Tools.mkToolSet usedTools (Tools.TypeDefinitions (AvailableTools (config a))))
                st) as [Hmemo Htrace].
  destruct (evaluateOne _ _ _ _ _) as [[isConsistent|e] st1]; [|done].
  simpl in Hmemo, Htrace. rewrite <- Hmemo, <- Htrace. apply IH.
Qed.

Lemma evaluateAll_kept (a : RequestHandler) (message : string)
    (funcCalls : list Parser.PlannedFuncCall) :
  forall kept st result st',
    evaluateAll a message funcCalls kept st = (Ok result, st') ->
    (exists new, result = kept ++ new /\ sublist new funcCalls)
    /\ forall function name,
         function ∈ funcCalls -> name ∈ Parser.CollectAllNestedFuncCalls function ->
         is_Some (Tools.FindTool (AvailableTools (config a)) name).
Proof.
  induction funcCalls as [|function funcCalls IH]; intros kept st result st'; simpl.
  - intros [= <- _]. split.
    + exists []. by rewrite app_nil_r.
    + intros ? ? Hin. by apply elem_of_nil in Hin.
  - destruct (collectUsedTools _ _ _) as [usedTools|] eqn:Hused; [|done].
    destruct (evaluateOne _ _ _ _ _) as [[isConsistent|e] st1]; [|done].
    intros Hrest. apply IH in Hrest as [(new & -> & Hsub) Hnames]. split.
    + destruct isConsistent.
      * exists (function :: new). split; [by rewrite <- app_assoc|]. by constructor.
      * exists new. split; [done|]. by constructor.
    + intros f name Hin Hname. apply elem_of_cons in Hin as [->|Hin]; [|by eapply Hnames].
      apply collectUsedTools_ok in Hused as (new' & _ & Hall).
      destruct (proj1 (list_elem_of_lookup _ _) Hname) as [i Hi].
      destruct (Forall2_lookup_l _ _ _ _ _ Hall Hi) as (tool & _ & Hfind). by eexists.
Qed.

Lemma evaluateFuncCallsConsistency_state (a : RequestHandler) (message : string)
    (funcCalls : list Parser.PlannedFuncCall) (st : State) :
  Memo (evaluate a message funcCalls st).2 = Memo st
  /\ trace (evaluate a message funcCalls st).2 = trace st.
Proof.
  unfold evaluateFuncCallsConsistency. destruct funcCalls as [|function funcCalls]; [done|].
  apply evaluateAll_state.
Qed.

(** X11.  The validator only selects: what it returns is a sublist of the
    plan, in the order of the plan.  It returns a list only when every
    function named at any depth of any entry, kept or not, is among the
    available tools; and whatever it returns, it leaves the memo and the
    record of executor runs as they were. *)
Theorem validator_only_selects (a : RequestHandler) (message : string)
    (funcCalls : list Parser.PlannedFuncCall) (st : State) :
  Memo (evaluate a message funcCalls st).2 = Memo st
  /\ trace (evaluate a message funcCalls st).2 = trace st
  /\ forall kept,
       (evaluate a message funcCalls st).1 = Ok kept ->
       sublist kept funcCalls
       /\ forall function name,
            function ∈ funcCalls -> name ∈ Parser.CollectAllNestedFuncCalls function ->
            is_Some (Tools.FindTool (AvailableTools (config a)) name).
Proof.
  unfold evaluateFuncCallsConsistency. destruct funcCalls as [|function funcCalls].
  - split_and!; [done..|]. intros kept [= <-]. split; [constructor|].
    intros ? ? Hin. by apply elem_of_nil in Hin.
  - destruct (evaluateAll_state a message (function :: funcCalls) [] st) as [Hmemo Htrace].
    split_and!; [done..|]. intros kept Hkept.
    destruct (evaluateAll a message (function :: funcCalls) [] st) as [result st'] eqn:Hrun.
    simpl in Hkept. subst result.
    apply evaluateAll_kept in Hrun as [(new & -> & Hsub) Hnames]. by split.
Qed.

(** X12.  With sequential execution, a request extends the memo and never
    removes or replaces an entry of it; and the executors that ran for the
    request ran for functions that have a schema, on arguments that give a
    value to every required parameter. *)
Theorem request_extends_memo (a : RequestHandler) (message : string) (st : State) :
  EnableConcurrentExec (orchestrator a) = false ->
  Memo st ⊆ Memo (process a message st).2
  /\ wellInvoked (orchestrator a) st (process a message st).2.
Proof.
  intros Hseq. unfold ProcessUserRequest.
  destruct (generate_state a (altered a message) st) as [Hmemo1 Htrace1].
  destruct (generate a (altered a message) st) as [[funcCalls|e] st1]; simpl in Hmemo1, Htrace1.
  - destruct (evaluateFuncCallsConsistency_state a (altered a message) funcCalls st1)
      as [Hmemo2 Htrace2].
    destruct (evaluate a (altered a message) funcCalls st1) as [[kept|e] st2];
      simpl in Hmemo2, Htrace2.
    + assert (Hquiet : Memo st ⊆ Memo st2 /\ wellInvoked (orchestrator a) st st2).
      { rewrite Hmemo2, Hmemo1. split; [done|]. exists [].
        split; [by rewrite Htrace2, Htrace1, app_nil_r|constructor]. }
      destruct kept as [|function kept]; [done|].
      unfold executeFunctionCalls, Execute. rewrite Hseq.
      pose proof (executeSeqLoop_tracked (orchestrator a) (function :: kept) [] st2) as Htracked.
      apply tracked_memo in Htracked.
      pose proof (executeSeqLoop_wellInvoked (orchestrator a) (function :: kept) [] st2)
        as Hinvoked.
      assert (Hrun : Memo st ⊆ Memo (executeSeq (orchestrator a) (function :: kept) st2).2
                     /\ wellInvoked (orchestrator a) st
                          (executeSeq (orchestrator a) (function :: kept) st2).2).
      { destruct Hquiet as [Hsub Hwell]. split.
        - by etrans.
        - by eapply wellInvoked_trans. }
      unfold executeSeq in *.
      destruct (executeSeqLoop (orchestrator a) (function :: kept) [] st2) as [[exec|e] st3];
        [|done].
      destruct (AlterResult (config a)) as [alter|]; [|done].
      by destruct (alter _).
    + simpl. rewrite Hmemo2, Hmemo1. split; [done|]. exists [].
      split; [by rewrite Htrace2, Htrace1, app_nil_r|constructor].
  - simpl. rewrite Hmemo1. split; [done|]. exists [].
    split; [by rewrite Htrace1, app_nil_r|constructor].
Qed.

End Runtime.
End RequestFacts.

Module RequestExamples.
Import RequestFacts.
Import Execution.
Import Handler.
Import Runs.

#[local] Existing Instance Eolo.plainRuntime.

(** Scenario E1 through the handler: the plan is decoded, kept by the
    validator and executed in sequence. *)
Lemma request_extends_memo_witness :
  let a := Eolo.handlerAnswering (H := Eolo.plainRuntime) "{}" in
  let st := NewState (H := Eolo.plainRuntime) tt in
  let plan := [JObj [("get_weather_forecast",
                      JObj [("purpose", JStr "forecast for the city");
                            ("args", JObj Eolo.e1_args)])]] in
  let run := ProcessUserRequest (fun _ => Ok "prompt") (fun _ => "schema") (fun _ => Ok plan)
               (fun _ _ _ => Ok "is this plan grounded?") "" (fun _ => Ok true)
               executeSeq a "weather in Turin?" st in
  EnableConcurrentExec (orchestrator a) = false
  /\ is_ok run.1 = true
  /\ Memo st ⊆ Memo run.2
  /\ wellInvoked (orchestrator a) st run.2.
Proof.
  intros a st plan run. split_and!; [reflexivity|reflexivity|..];
    apply (request_extends_memo (fun _ => Ok "prompt") (fun _ => "schema") (fun _ => Ok plan)
             (fun _ _ _ => Ok "is this plan grounded?") "" (fun _ => Ok true)
             executeSeq a "weather in Turin?" st eq_refl).
Defined.

End RequestExamples.

(** ** The schema: where its references lead *)

Module ClosureFacts.
Import GoMapFacts.
Import SchemaFacts.
Import Tools.
Import Schemas.

Lemma substring_all (s : string) : String.substring 0 (String.length s) s = s.
Proof. induction s as [|c s IH]; simpl; [done|by rewrite IH]. Qed.

Lemma append_cons (c : Ascii.ascii) (s t : string) : String c s +:+ t = String c (s +:+ t).
Proof. reflexivity. Qed.

Lemma append_nil (t : string) : "" +:+ t = t.
Proof. reflexivity. Qed.

Lemma refTargets_ref (name : string) : refTargets (ref name) = [name].
Proof.
  unfold ref. cbn [refTargets flat_map].
  rewrite !append_cons, append_nil. simpl.
  assert (String.prefix "" name = true) as -> by (by destruct name).
  by rewrite Nat.sub_0_r, substring_all.
Qed.

Lemma refTargets_strings (l : list string) : flat_map refTargets (JStr <$> l) = [].
Proof. induction l as [|x l IH]; [done|]. rewrite fmap_cons. simpl. exact IH. Qed.

Lemma refTargets_refs (names : list string) : flat_map refTargets (ref <$> names) = names.
Proof.
  induction names as [|name names IH]; [done|].
  rewrite fmap_cons. cbn [flat_map]. by rewrite refTargets_ref, IH.
Qed.

(** A member of an object adds the references of its value, unless it is a
    reference itself. *)
Lemma member_cases (k : string) (v : json) :
  match (k, v) with
  | ("$ref", JStr target) =>
      match String.index 0 "#/$defs/" target with
      | Some 0 => [String.substring 8 (String.length target - 8) target]
      | _ => []
      end
  | (_, v) => refTargets v
  end = refTargets v
  \/ (k = "$ref" /\ exists s, v = JStr s).
Proof.
  cbv beta iota.
  repeat match goal with
         | |- context [match ?x with _ => _ end] =>
             is_var x; destruct x; try (left; reflexivity)
         end.
  right. split; [reflexivity|]. by eexists.
Qed.

Lemma refTargets_cons (k : string) (v : json) (fields : gomap json) :
  refTargets (JObj ((k, v) :: fields))
  = match (k, v) with
    | ("$ref", JStr target) =>
        match String.index 0 "#/$defs/" target with
        | Some 0 => [String.substring 8 (String.length target - 8) target]
        | _ => []
        end
    | (_, v) => refTargets v
    end ++ refTargets (JObj fields).
Proof. reflexivity. Qed.

Lemma refTargets_obj (fields : gomap json) (target : string) :
  target ∈ refTargets (JObj fields) ->
  exists k v, (k, v) ∈ fields
              /\ (target ∈ refTargets v \/ (k = "$ref" /\ exists s, v = JStr s)).
Proof.
  induction fields as [|[k v] fields IH]; intros Hin.
  - by apply elem_of_nil in Hin.
  - rewrite refTargets_cons in Hin. apply elem_of_app in Hin as [Hin|Hin].
    + exists k, v. split; [apply elem_of_cons; by left|].
      destruct (member_cases k v) as [Heq|Href]; [left; by rewrite <- Heq|by right].
    + destruct (IH Hin) as (k' & v' & Hin' & H'). exists k', v'.
      split; [apply elem_of_cons; by right|done].
Qed.

Abbreviation member Q :=
  (fun kv : string * json =>
     (kv.1 ≠ "$ref" \/ forall s, kv.2 ≠ JStr s)
     /\ (forall target, target ∈ refTargets kv.2 -> Q target)).

(** The references of an object none of whose members is a reference are
    those of the values of its members. *)
Lemma obj_targets (Q : string -> Prop) (fields : gomap json) :
  Forall (member Q) fields -> forall target, target ∈ refTargets (JObj fields) -> Q target.
Proof.
  intros Hall target Hin. apply refTargets_obj in Hin as (k & v & Hkv & Hcase).
  rewrite Forall_forall in Hall. destruct (Hall _ Hkv) as [Hsafe Hq]. simpl in *.
  destruct Hcase as [Ht|[-> [s ->]]]; [by apply Hq|].
  destruct Hsafe as [Hk|Hv]; [done|by destruct (Hv s)].
Qed.

Lemma leaf_member (Q : string -> Prop) (k : string) (v : json) :
  k ≠ "$ref" -> refTargets v = [] -> member Q (k, v).
Proof.
  intros Hk Hv. split; [by left|]. simpl. rewrite Hv. intros ? Hin. by apply elem_of_nil in Hin.
Qed.

Lemma inner_member (Q : string -> Prop) (k : string) (fields : gomap json) :
  Forall (member Q) fields -> member Q (k, JObj fields).
Proof. intros Hall. split; [by right|]. simpl. by apply obj_targets. Qed.

Lemma optional_members (Q : string -> Prop) (present : bool) (k : string) (v : json) :
  k ≠ "$ref" -> refTargets v = [] -> Forall (member Q) (optional present (k, v)).
Proof.
  intros Hk Hv. destruct present; simpl; [|constructor].
  constructor; [by apply leaf_member|constructor].
Qed.

Lemma ref_targets (Q : string -> Prop) (name : string) :
  Q name -> forall target, target ∈ refTargets (ref name) -> Q target.
Proof. intros Hq target. rewrite refTargets_ref. by intros ->%list_elem_of_singleton. Qed.

Lemma transformTypeInfo_object (typeDefinitions : gomap TypeInfo) (info : TypeInfo) :
  exists fields, transformTypeInfo typeDefinitions info = JObj fields.
Proof.
  destruct info as [ty description items properties required enum pattern].
  cbn [transformTypeInfo]. destruct (mget ty typeDefinitions); by eexists.
Qed.

Lemma transformTypeInfo_member (Q : string -> Prop) (typeDefinitions : gomap TypeInfo)
    (k : string) (info : TypeInfo) :
  (forall target, target ∈ refTargets (transformTypeInfo typeDefinitions info) -> Q target) ->
  member Q (k, transformTypeInfo typeDefinitions info).
Proof.
  intros Hq. split; [|done]. right. simpl. intros s.
  destruct (transformTypeInfo_object typeDefinitions info) as [fields ->]. done.
Qed.

(** What [transformTypeInfo] refers to is in the type dictionary. *)
Lemma transformTypeInfo_targets (typeDefinitions : gomap TypeInfo) (info : TypeInfo) :
  forall target,
    target ∈ refTargets (transformTypeInfo typeDefinitions info) ->
    is_Some (mget target typeDefinitions).
Proof.
  induction info as [ty description items properties required enum pattern IHitems IHprops]
    using TypeInfo_ind.
  cbn [transformTypeInfo]. destruct (mget ty typeDefinitions) as [known|] eqn:Hty.
  - apply ref_targets. by eexists.
  - apply obj_targets. rewrite !Forall_app. split_and!.
    + constructor; [by apply leaf_member|constructor].
    + by apply optional_members.
    + apply optional_members; [done|]. simpl. apply refTargets_strings.
    + by apply optional_members.
    + destruct items as [it|]; [|constructor].
      constructor; [|constructor]. by apply transformTypeInfo_member.
    + destruct properties as [props|]; [|constructor].
      apply Forall_app. split.
      * destruct props as [|prop props]; [constructor|].
        constructor; [|constructor; [by apply leaf_member|constructor]].
        apply inner_member. simpl in IHprops. revert IHprops.
        generalize (prop :: props). intros l Hl.
        induction Hl as [|[name propInfo] l Hhead _ IHl]; [constructor|].
        cbn [map]. constructor; [|exact IHl]. by apply transformTypeInfo_member.
      * apply optional_members; [done|]. simpl. apply refTargets_strings.
Qed.

Lemma generateFunctionDefinition_targets (t : ToolSet) (function : FuncDefinition) :
  forall target,
    target ∈ refTargets (generateFunctionDefinition t function) ->
    is_Some (mget target (TypeDefinitions t)).
Proof.
  unfold generateFunctionDefinition. apply obj_targets.
  repeat (constructor; [by apply leaf_member|]).
  constructor; [|constructor]. apply inner_member.
  constructor; [|constructor]. apply inner_member.
  repeat (constructor; [by apply leaf_member|]).
  constructor; [|constructor]. apply inner_member.
  constructor; [|constructor; [|constructor]].
  - apply inner_member. constructor; [by apply leaf_member|constructor].
  - apply transformTypeInfo_member, transformTypeInfo_targets.
Qed.

Lemma funcCallReturningDefinition_targets (Q : string -> Prop) (functionNames : list string) :
  (forall name, name ∈ functionNames -> Q name) ->
  forall target, target ∈ refTargets (funcCallReturningDefinition functionNames) -> Q target.
Proof.
  intros Hq. unfold funcCallReturningDefinition. apply obj_targets.
  repeat (constructor; [by apply leaf_member|]).
  constructor; [|constructor]. apply inner_member.
  constructor; [|constructor]. apply inner_member.
  constructor; [|constructor]. split; [by left|]. simpl.
  intros target. rewrite refTargets_refs. apply Hq.
Qed.

(** *** The wrappers *)

(** What the first loop holds for a type: the names of the functions that
    return it, in order, when the type is an argument type. *)
Lemma collectTypeToFunctions_lookup (t : ToolSet) (functions : list FuncDefinition)
    (typeName : string) :
  forall acc,
    mget typeName (collectTypeToFunctions t functions acc)
    = let names := fdName <$> filter (fun function => Type_ (Returns function) = typeName)
                                functions in
      if isUsedAsArgumentType t typeName && notNil names
      then Some (default [] (mget typeName acc) ++ names)
      else mget typeName acc.
Proof.
  cbv zeta. induction functions as [|function functions IH]; intros acc.
  - simpl. by rewrite andb_false_r.
  - cbn [collectTypeToFunctions]. cbv zeta. rewrite IH. clear IH. rewrite filter_cons.
    destruct (decide (Type_ (Returns function) = typeName)) as [<-|Hne].
    + destruct (isUsedAsArgumentType t (Type_ (Returns function))); [|done].
      rewrite mget_mset_eq. rewrite fmap_cons. simpl.
      destruct (fdName <$> filter _ functions) as [|name names]; simpl.
      * done.
      * by rewrite <- app_assoc.
    + destruct (isUsedAsArgumentType t (Type_ (Returns function)));
        [by rewrite mget_mset_ne|done].
Qed.

Lemma collectTypeToFunctions_NoDup (t : ToolSet) (functions : list FuncDefinition) :
  forall acc, NoDup (keys acc) -> NoDup (keys (collectTypeToFunctions t functions acc)).
Proof.
  induction functions as [|function functions IH]; intros acc Hnd; simpl; [done|].
  apply IH. destruct (isUsedAsArgumentType t _); [by apply PlanFacts.mset_NoDup|done].
Qed.

Lemma definitions_lookup (entries : gomap (list string)) (typeName : string) :
  NoDup (keys entries) ->
  forall acc,
    mget (funcCallReturningName typeName)
      (foldl (fun definitions entry =>
                mset (funcCallReturningName entry.1)
                     (funcCallReturningDefinition entry.2) definitions)
             acc entries)
    = match mget typeName entries with
      | Some names => Some (funcCallReturningDefinition names)
      | None => mget (funcCallReturningName typeName) acc
      end.
Proof.
  unfold keys. induction entries as [|[ty names] entries IH]; intros Hnd acc; [done|].
  rewrite fmap_cons in Hnd. cbn [fst] in Hnd. apply NoDup_cons in Hnd as [Hty Hnd].
  cbn [foldl mget fst snd]. rewrite (IH Hnd).
  destruct (String.eqb_spec typeName ty) as [->|Hne].
  - assert (Hrest : mget ty entries = None) by by apply mget_None.
    rewrite Hrest. apply mget_mset_eq.
  - destruct (mget typeName entries); [done|].
    apply mget_mset_ne. intros Heq. apply funcCallReturningName_inj in Heq. by subst.
Qed.

Lemma definitions_elem (entries : gomap (list string)) (k : string) (v : json) :
  forall acc,
    (k, v) ∈ foldl (fun definitions entry =>
                      mset (funcCallReturningName entry.1)
                           (funcCallReturningDefinition entry.2) definitions)
                   acc entries ->
    (k, v) ∈ acc
    \/ exists entry, entry ∈ entries /\ v = funcCallReturningDefinition entry.2.
Proof.
  induction entries as [|entry entries IH]; intros acc Hin; [by left|].
  cbn [foldl] in Hin. apply IH in Hin as [Hin|(e & He & ->)].
  - apply PlanFacts.mset_elem in Hin as [[= -> ->]|Hin]; [|by left].
    right. exists entry. split; [apply elem_of_cons; by left|done].
  - right. exists e. split; [apply elem_of_cons; by right|done].
Qed.

(** X13.  The schema defines [func_call_returning_T] exactly for the types
    [T] that the parameters of some function use and some function returns,
    and the definition offers exactly the functions that return [T], in the
    order of the tool set. *)
Theorem wrapper_offers_the_functions_returning_its_type (t : ToolSet) (typeName : string) :
  mget (funcCallReturningName typeName) (generateFuncCallReturningDefinitions t)
  = if isUsedAsArgumentType t typeName && notNil (returning t typeName)
    then Some (funcCallReturningDefinition (returning t typeName))
    else None.
Proof.
  unfold generateFuncCallReturningDefinitions.
  rewrite definitions_lookup by (apply collectTypeToFunctions_NoDup; constructor).
  rewrite collectTypeToFunctions_lookup. cbv zeta. fold (returning t typeName).
  by destruct (isUsedAsArgumentType t typeName && notNil (returning t typeName)).
Qed.

Lemma wrapper_elem (t : ToolSet) (k : string) (v : json) :
  (k, v) ∈ generateFuncCallReturningDefinitions t ->
  exists typeName, v = funcCallReturningDefinition (returning t typeName).
Proof.
  unfold generateFuncCallReturningDefinitions. intros Hin.
  apply definitions_elem in Hin as [Hin|([ty names] & Hentry & ->)];
    [by apply elem_of_nil in Hin|].
  exists ty. simpl. f_equal.
  apply elem_mget_Some in Hentry; [|apply collectTypeToFunctions_NoDup; constructor].
  rewrite collectTypeToFunctions_lookup in Hentry. cbv zeta in Hentry.
  fold (returning t ty) in Hentry.
  destruct (isUsedAsArgumentType t ty && notNil (returning t ty)); [|done].
  by injection Hentry as <-.
Qed.

Lemma returning_functions (t : ToolSet) (typeName name : string) :
  name ∈ returning t typeName -> exists function, function ∈ Functions t /\ fdName function = name.
Proof.
  unfold returning. intros Hin. apply list_elem_of_fmap in Hin as (function & -> & Hin).
  apply list_elem_of_filter in Hin as [_ Hin]. by exists function.
Qed.

(** *** The whole schema *)

Section Closure.
Variable t : ToolSet.

Abbreviation defined :=
  (fun target : string =>
     is_Some (mget target
                (("func_call", JObj [("oneOf", JArr (ref <$> (fdName <$> Functions t)))])
                 :: schemaDefs t))).

Lemma defined_entry (entry : string * json) : entry ∈ schemaDefs t -> defined entry.1.
Proof.
  intros Hin. apply mget_is_Some_keys. exists entry. split; [|done].
  apply elem_of_cons. by right.
Qed.

Lemma defined_function (function : FuncDefinition) :
  function ∈ Functions t -> defined (fdName function).
Proof.
  intros Hin. apply (defined_entry (fdName function, generateFunctionDefinition t function)).
  unfold schemaDefs. apply elem_of_app. left.
  apply list_elem_of_In, in_map_iff. exists function. split; [done|by apply list_elem_of_In].
Qed.

Lemma defined_type (typeName : string) :
  is_Some (mget typeName (TypeDefinitions t)) -> defined typeName.
Proof.
  intros [info Hinfo]. apply mget_Some_elem in Hinfo.
  apply (defined_entry (typeName, generateTypeDefinition t typeName info)).
  unfold schemaDefs. apply elem_of_app. right. apply elem_of_app. left.
  apply list_elem_of_In, in_map_iff. exists (typeName, info). split; [done|by apply list_elem_of_In].
Qed.

Lemma defined_wrapper (k : string) :
  is_Some (mget k (generateFuncCallReturningDefinitions t)) -> defined k.
Proof.
  intros Hk. apply mget_is_Some_keys in Hk as (entry & Hin & <-).
  apply defined_entry. unfold schemaDefs. apply elem_of_app. right. apply elem_of_app. by right.
Qed.

Lemma defined_names (names : list string) :
  (forall name, name ∈ names -> exists function, function ∈ Functions t /\ fdName function = name) ->
  forall target, target ∈ flat_map refTargets (ref <$> names) -> defined target.
Proof.
  intros Hnames target. rewrite refTargets_refs. intros Hin.
  destruct (Hnames _ Hin) as (function & Hf & <-). by apply defined_function.
Qed.

Hypothesis HReturned : argumentTypesReturned t.

Lemma schemaDefs_members : Forall (member defined) (schemaDefs t).
Proof.
  change (Forall (member defined)
            (map (fun function => (fdName function, generateFunctionDefinition t function))
                 (Functions t)
             ++ map (fun entry => (entry.1, generateTypeDefinition t entry.1 entry.2))
                  (TypeDefinitions t)
             ++ generateFuncCallReturningDefinitions t)).
  rewrite !Forall_app. split_and!.
  - apply Forall_forall. intros [k v] Hin.
    apply list_elem_of_In, in_map_iff in Hin as (function & [= <- <-] & Hin).
    apply list_elem_of_In in Hin.
    split; [by right|]. cbn [snd]. intros target Htarget.
    apply defined_type. by eapply generateFunctionDefinition_targets.
  - apply Forall_forall. intros [k v] Hin.
    apply list_elem_of_In, in_map_iff in Hin as ([typeName info] & [= <- <-] & Hin).
    apply list_elem_of_In in Hin. cbn [fst snd].
    assert (Hbase : forall target,
               target ∈ refTargets (transformTypeInfo (TypeDefinitions t) info) ->
               defined target).
    { intros target Htarget. apply defined_type. by eapply transformTypeInfo_targets. }
    rewrite generateTypeDefinition_cases.
    destruct (isUsedAsArgumentType t typeName) eqn:Hused;
      [|by apply transformTypeInfo_member].
    apply inner_member. constructor; [|constructor]. split; [by left|].
    cbn [snd refTargets flat_map]. intros target Htarget.
    rewrite app_nil_r in Htarget. apply elem_of_app in Htarget as [Htarget|Htarget];
      [by apply Hbase|].
    revert target Htarget. apply ref_targets. apply defined_wrapper.
    apply wrapper_defined_iff. split; [done|]. apply HReturned; [|done].
    apply mget_is_Some_keys. by exists (typeName, info).
  - apply Forall_forall. intros [k v] Hin.
    apply wrapper_elem in Hin as [typeName ->].
    split; [by right|]. cbn [snd].
    apply funcCallReturningDefinition_targets. intros name Hname.
    apply returning_functions in Hname as (function & Hf & <-). by apply defined_function.
Qed.

End Closure.

(** X14.  For a tool set whose strings need no escaping ([plainTools]: the
    tool sets for which [toJSONSchema] is the value of the text the
    generator writes), when every type of the dictionary that the parameters
    of some function use is returned by some function, the generated schema
    is closed: every [$ref] in it, at any depth, points to a member of its
    [$defs]. *)
Theorem schema_closed_when_argument_types_are_returned (t : ToolSet) (schema : json) :
  plainTools t = true ->
  argumentTypesReturned t ->
  toJSONSchema t = Ok schema ->
  closed schema (defsOf (Ok schema)).
Proof.
  intros _ Hreturned. unfold toJSONSchema.
  destruct (schemaDefs t) as [|d defs] eqn:Hdefs; [done|]. intros [= <-].
  cbn [defsOf mget String.eqb Ascii.eqb Bool.eqb]. rewrite <- Hdefs. clear Hdefs d defs.
  unfold closed. apply obj_targets.
  repeat (constructor; [by apply leaf_member|]).
  constructor; [|repeat (constructor; [by apply leaf_member|])].
  - apply inner_member. constructor; [|constructor; [|constructor]].
    + apply inner_member. constructor; [by apply leaf_member|constructor].
    + apply inner_member. constructor; [by apply leaf_member|].
      constructor; [|constructor]. split; [by right|]. cbn [snd].
      apply ref_targets. apply mget_is_Some_keys. eexists. split; [apply elem_of_cons; by left|done].
  - constructor; [|constructor]. apply inner_member. constructor.
    + apply inner_member. constructor; [|constructor]. split; [by left|].
      cbn [snd refTargets]. apply defined_names. intros name Hname.
      apply list_elem_of_fmap in Hname as (function & -> & Hf). by exists function.
    + by apply schemaDefs_members.
Qed.

Lemma eolo_argument_types_returned : argumentTypesReturned Eolo.AvailableTools.
Proof.
  intros typeName Hknown _. apply mget_is_Some_keys in Hknown as ([k info] & Hin & <-).
  apply elem_of_cons in Hin as [[= -> _]|Hin].
  - exists Eolo.get_coordinates. split; [|done]. apply elem_of_cons. by left.
  - apply list_elem_of_singleton in Hin as [= -> _].
    exists Eolo.get_weather_forecast. split; [|done].
    apply elem_of_cons. right. apply elem_of_cons. by left.
Qed.

Lemma schema_closed_when_argument_types_are_returned_witness :
  plainTools Eolo.AvailableTools = true
  /\ argumentTypesReturned Eolo.AvailableTools
  /\ exists schema,
       toJSONSchema Eolo.AvailableTools = Ok schema /\ closed schema (defsOf (Ok schema)).
Proof.
  split; [reflexivity|]. split; [exact eolo_argument_types_returned|].
  eexists. split; [reflexivity|].
  exact (schema_closed_when_argument_types_are_returned Eolo.AvailableTools _
           eq_refl eolo_argument_types_returned eq_refl).
Defined.

End ClosureFacts.

(** ** Ordered maps: the text written *)

Module OrderedMapFacts.
Import OrderedMap.

Lemma append_assoc (a b c : string) : (a +:+ b) +:+ c = a +:+ (b +:+ c).
Proof.
  induction a as [|x a IH]; [reflexivity|].
  change (String x ((a +:+ b) +:+ c) = String x (a +:+ (b +:+ c))). by rewrite IH.
Qed.

Lemma append_nil_l (a : string) : "" +:+ a = a.
Proof. reflexivity. Qed.

Lemma append_nil_r (a : string) : a +:+ "" = a.
Proof.
  induction a as [|x a IH]; [reflexivity|].
  change (String x (a +:+ "") = String x a). by rewrite IH.
Qed.

Section Runtime.
Context `{GoRuntime}.

Section Loops.
Variable m : Value -> nat -> string.
Variable next : string.
Variable indent : nat.

Lemma writePairs_lines (pairs : list (string * Value)) :
  forall i buf,
    writePairs m next indent i pairs buf
    = buf +:+ (if (0 <? i) && Tools.notNil pairs then "," +:+ lf else "")
          +:+ String.concat ("," +:+ lf)
                ((fun line => next +:+ line)
                   <$> map (fun pair => quoteString pair.1 +:+ ": " +:+ m pair.2 (indent + 1))
                         pairs).
Proof.
  induction pairs as [|[k v] rest IH]; intros i buf.
  - cbn [writePairs map fmap list_fmap String.concat Tools.notNil]. rewrite andb_false_r.
    by rewrite !append_nil_r.
  - cbn [writePairs]. cbv zeta. rewrite IH. clear IH.
    destruct (0 <? i); destruct rest as [|p rest];
      cbn [Nat.ltb Nat.leb Tools.notNil andb map fmap list_fmap String.concat fst snd];
      rewrite ?append_assoc, ?append_nil_r; reflexivity.
Qed.

Lemma writeItems_lines (arr : list Value) :
  forall i buf,
    writeItems m next indent i arr buf
    = buf +:+ (if (0 <? i) && Tools.notNil arr then "," +:+ lf else "")
          +:+ String.concat ("," +:+ lf)
                ((fun line => next +:+ line) <$> map (fun item => m item (indent + 1)) arr).
Proof.
  induction arr as [|v rest IH]; intros i buf.
  - cbn [writeItems map fmap list_fmap String.concat Tools.notNil]. rewrite andb_false_r.
    by rewrite !append_nil_r.
  - cbn [writeItems]. cbv zeta. rewrite IH. clear IH.
    destruct (0 <? i); destruct rest as [|p rest];
      cbn [Nat.ltb Nat.leb Tools.notNil andb map fmap list_fmap String.concat];
      rewrite ?append_assoc, ?append_nil_r; reflexivity.
Qed.
End Loops.

Lemma marshalJSONValue_layout (v : Value) :
  forall indent, marshalJSONValue v indent = layout v indent.
Proof.
  induction v as [Items IH|items IH|s|l|j] using Value_ind; intros indent; try reflexivity.
  - cbn [marshalJSONValue layout]. cbv zeta. rewrite writePairs_lines. unfold block.
    assert (Hlines : map (fun pair => quoteString pair.1 +:+ ": "
                                      +:+ marshalJSONValue pair.2 (indent + 1)) Items
                     = map (fun pair => quoteString pair.1 +:+ ": "
                                        +:+ layout pair.2 (indent + 1)) Items).
    { induction IH as [|[k v] Items Hv _ IHrest]; [done|].
      cbn [map fst snd]. cbn [snd] in Hv. by rewrite Hv, IHrest. }
    rewrite Hlines. cbn [Nat.ltb Nat.leb andb].
    by rewrite !append_assoc, append_nil_l.
  - cbn [marshalJSONValue layout]. cbv zeta. rewrite writeItems_lines. unfold block.
    assert (Hlines : map (fun item => marshalJSONValue item (indent + 1)) items
                     = map (fun item => layout item (indent + 1)) items).
    { induction IH as [|v items Hv _ IHrest]; [done|].
      cbn [map]. by rewrite Hv, IHrest. }
    rewrite Hlines. cbn [Nat.ltb Nat.leb andb].
    by rewrite !append_assoc, append_nil_l.
Qed.

(** X15.  [MarshalJSONIndent] writes the members of an ordered map one per
    line in the order of insertion, never sorted and with repeated keys
    kept, separated by a comma at the end of the line and none after the
    last, each member four spaces deeper than the braces around it; maps
    and slices inside are laid out the same way one level deeper, and an
    empty map is an opening brace, an empty line and the closing brace. *)
Theorem MarshalJSONIndent_layout (om : list (string * Value)) (indent : nat) :
  MarshalJSONIndent om indent = layout (VMap om) indent.
Proof. apply marshalJSONValue_layout. Qed.

End Runtime.
End OrderedMapFacts.

(** ** The definitions shown in the prompt: aliases *)

Module FuncDefsFacts.
Import GoMapFacts.
Import Tools.
Import OrderedMap.
Import FuncDefs.
Import Schemas.

Lemma cyclic_step (typeDefinitions : gomap TypeInfo) (name : string) :
  cyclic typeDefinitions name ->
  exists target, aliasOf typeDefinitions name target /\ cyclic typeDefinitions target.
Proof.
  unfold cyclic. intros Hcycle.
  inversion Hcycle as [? ? Hstep|? target ? Hstep Hrest]; subst.
  - by exists name.
  - exists target. split; [done|]. by eapply tc_r.
Qed.

(** A call on a name that leads back to itself does not return. *)
Lemma getType_cyclic (typeDefinitions : gomap TypeInfo) (fuel : nat) :
  forall typeInfo,
    cyclic typeDefinitions (Type_ typeInfo) -> getType fuel typeDefinitions typeInfo = None.
Proof.
  induction fuel as [|fuel IH]; intros typeInfo Hcycle; [done|].
  cbn [getType].
  destruct (cyclic_step _ _ Hcycle) as (target & (definition & Hdef & <- & Hobj) & Hnext).
  rewrite Hdef. destruct (String.eqb_spec (Type_ definition) "object"); [done|].
  by apply IH.
Qed.

Lemma getTypeInfo_eq (fuel : nat) (typeDefinitions : gomap TypeInfo) (info : TypeInfo) :
  getTypeInfo fuel typeDefinitions info
  = match getType fuel typeDefinitions info with
    | None => None
    | Some type =>
        let simplifiedType :=
          [("type", VStr type); ("description", VStr (Description info))] in
        match
          match Properties info with
          | Some properties =>
              match propertiesLoop (getTypeInfo fuel typeDefinitions) properties [] with
              | None => None
              | Some props => Some (simplifiedType ++ [("properties", VMap props)])
              end
          | None => Some simplifiedType
          end
        with
        | None => None
        | Some simplifiedType =>
            Some (if notNil (Required info)
                  then simplifiedType ++ [("required", VStrs (Required info))]
                  else simplifiedType)
        end
    end.
Proof. by destruct info. Qed.

Section Loop.
Variable g : TypeInfo -> option (list (string * Value)).

Lemma propertiesLoop_none (properties : gomap TypeInfo) (propName : string)
    (propInfo : TypeInfo) :
  (propName, propInfo) ∈ properties -> g propInfo = None ->
  forall props, propertiesLoop g properties props = None.
Proof.
  induction properties as [|[name info] properties IH]; intros Hin Hnone props.
  - by apply elem_of_nil in Hin.
  - cbn [propertiesLoop]. apply elem_of_cons in Hin as [[= <- <-]|Hin].
    + by rewrite Hnone.
    + destruct (g info); [by apply IH|done].
Qed.

Lemma propertiesLoop_some (properties : gomap TypeInfo) :
  forall props result,
    propertiesLoop g properties props = Some result
    <-> exists new,
          result = props ++ new
          /\ Forall2 (fun property pair =>
                        exists value, g property.2 = Some value
                                      /\ pair = (property.1, VMap value))
               properties new.
Proof.
  induction properties as [|[name info] properties IH]; intros props result;
    cbn [propertiesLoop].
  - split.
    + intros [= <-]. exists []. by rewrite app_nil_r.
    + intros (new & -> & Hnew). apply Forall2_nil_inv_l in Hnew as ->. by rewrite app_nil_r.
  - destruct (g info) as [value|] eqn:Hinfo.
    + rewrite IH. split.
      * intros (new & -> & Hnew). exists ((name, VMap value) :: new).
        split; [by rewrite <- app_assoc|]. constructor; [by exists value|done].
      * intros (new & -> & Hnew).
        apply Forall2_cons_inv_l in Hnew as (pair & new' & (v & Hv & ->) & Hnew & ->).
        cbn [fst snd] in *. rewrite Hinfo in Hv. injection Hv as <-.
        exists new'. by rewrite <- app_assoc.
    + split; [done|]. intros (new & -> & Hnew).
      apply Forall2_cons_inv_l in Hnew as (pair & new' & (v & Hv & _) & _ & _).
      cbn [snd] in Hv. congruence.
Qed.
End Loop.

Lemma generateToolsLoop_none (fuel : nat) (t : ToolSet) (functions : list FuncDefinition)
    (function : FuncDefinition) :
  function ∈ functions ->
  getTypeInfo fuel (TypeDefinitions t) (Parameters function) = None ->
  forall simplifiedSchema, generateToolsLoop fuel t functions simplifiedSchema = None.
Proof.
  induction functions as [|f functions IH]; intros Hin Hnone schema.
  - by apply elem_of_nil in Hin.
  - cbn [generateToolsLoop]. apply elem_of_cons in Hin as [<-|Hin].
    + by rewrite Hnone.
    + destruct (getTypeInfo fuel (TypeDefinitions t) (Parameters f)); [|done].
      destruct schema as [|[Key [| | | |]] others]; try done. by apply IH.
Qed.

(** X16.  [getType] does not return on a name that leads back to itself
    through aliases of the dictionary; so [ToJSONDefinitions] does not
    return for a tool set in which the parameters of a function, or one of
    their properties, have such a type. *)
Theorem cyclic_alias_never_returns `{GoRuntime} (t : ToolSet) (function : FuncDefinition)
    (fuel : nat) :
  function ∈ Functions t ->
  (cyclic (TypeDefinitions t) (Type_ (Parameters function))
   \/ exists properties propName propInfo,
        Properties (Parameters function) = Some properties
        /\ (propName, propInfo) ∈ properties
        /\ cyclic (TypeDefinitions t) (Type_ propInfo)) ->
  ToJSONDefinitions fuel t = None.
Proof.
  intros Hin Hcyclic. unfold ToJSONDefinitions, generateToolsDefinition.
  rewrite (generateToolsLoop_none fuel t (Functions t) function Hin); [done|].
  rewrite getTypeInfo_eq.
  destruct Hcyclic as [Hcycle|(properties & propName & propInfo & Hprops & Hprop & Hcycle)].
  - by rewrite getType_cyclic.
  - destruct (getType _ _ _); [|done]. cbv zeta. rewrite Hprops.
    rewrite (propertiesLoop_none _ properties propName propInfo Hprop); [done|].
    rewrite getTypeInfo_eq. by rewrite getType_cyclic.
Qed.

(** *** When the calls return *)

Lemma getType_mono (typeDefinitions : gomap TypeInfo) (fuel : nat) :
  forall typeInfo result,
    getType fuel typeDefinitions typeInfo = Some result ->
    forall fuel', fuel <= fuel' -> getType fuel' typeDefinitions typeInfo = Some result.
Proof.
  induction fuel as [|fuel IH]; intros typeInfo result Hrun fuel' Hle; [done|].
  destruct fuel' as [|fuel']; [lia|]. cbn [getType] in *.
  destruct (mget (Type_ typeInfo) typeDefinitions) as [definition|].
  - destruct (String.eqb (Type_ definition) "object"); [done|].
    apply (IH _ _ Hrun). lia.
  - destruct (String.eqb (Type_ typeInfo) "array"); [|done].
    destruct (Items typeInfo) as [items|]; [|done].
    destruct (getType fuel typeDefinitions items) as [itemType|] eqn:Hitems; [|done].
    rewrite (IH _ _ Hitems fuel'); [done|lia].
Qed.

Lemma getType_objects (typeDefinitions : gomap TypeInfo) :
  objectsOnly typeDefinitions ->
  forall fuel typeInfo,
    itemsDepth typeInfo < fuel -> is_Some (getType fuel typeDefinitions typeInfo).
Proof.
  intros Hobjects. induction fuel as [|fuel IH]; intros typeInfo Hdepth; [lia|].
  cbn [getType].
  destruct (mget (Type_ typeInfo) typeDefinitions) as [definition|] eqn:Hdef.
  - rewrite (Hobjects _ _ Hdef). by eexists.
  - destruct (String.eqb (Type_ typeInfo) "array"); [|by eexists].
    destruct typeInfo as [ty description items properties required enum pattern].
    cbn [Items itemsDepth] in *. destruct items as [it|]; [|by eexists].
    destruct (IH it) as [itemType Hit]; [lia|]. rewrite Hit. by eexists.
Qed.

Section Returns.
Variable typeDefinitions : gomap TypeInfo.
Hypothesis HObjects : objectsOnly typeDefinitions.

Lemma propertiesLoop_returns (properties : gomap TypeInfo) :
  Forall (fun property =>
            exists fuel0 value,
              forall fuel, fuel0 <= fuel ->
                getTypeInfo fuel typeDefinitions property.2 = Some value) properties ->
  exists fuel0 new,
    forall fuel, fuel0 <= fuel ->
      forall props,
        propertiesLoop (getTypeInfo fuel typeDefinitions) properties props
        = Some (props ++ new).
Proof.
  induction 1 as [|[name info] properties (fuel1 & value & Hvalue) _ (fuel2 & new & Hnew)].
  - exists 0, []. intros fuel _ props. by rewrite app_nil_r.
  - exists (fuel1 `max` fuel2), ((name, VMap value) :: new). intros fuel Hle props.
    cbn [propertiesLoop]. cbn [snd] in Hvalue. rewrite Hvalue by lia.
    rewrite Hnew by lia. by rewrite <- app_assoc.
Qed.

Lemma getTypeInfo_returns (info : TypeInfo) :
  exists fuel0 value,
    forall fuel, fuel0 <= fuel -> getTypeInfo fuel typeDefinitions info = Some value.
Proof.
  induction info as [ty description items properties required enum pattern _ IHprops]
    using TypeInfo_ind.
  set (info := mkTypeInfo ty description items properties required enum pattern).
  destruct (getType_objects typeDefinitions HObjects (S (itemsDepth info)) info)
    as [type Htype]; [lia|].
  destruct properties as [props|].
  - destruct (propertiesLoop_returns props IHprops) as (fuel2 & new & Hnew).
    exists (S (itemsDepth info) `max` fuel2). eexists. intros fuel Hle.
    rewrite getTypeInfo_eq. rewrite (getType_mono _ _ _ _ Htype) by lia.
    cbv zeta. cbn [Properties info]. rewrite Hnew by lia. reflexivity.
  - exists (S (itemsDepth info)). eexists. intros fuel Hle.
    rewrite getTypeInfo_eq. rewrite (getType_mono _ _ _ _ Htype) by lia.
    reflexivity.
Qed.
End Returns.

Lemma generateToolsLoop_returns (t : ToolSet) (functions : list FuncDefinition) :
  objectsOnly (TypeDefinitions t) ->
  exists fuel0 new,
    forall fuel, fuel0 <= fuel ->
      forall Key entries others,
        generateToolsLoop fuel t functions ((Key, VArr entries) :: others)
        = Some ((Key, VArr (entries ++ new)) :: others).
Proof.
  intros Hobjects. induction functions as [|function functions (fuel2 & new & Hnew)].
  - exists 0, []. intros fuel _ Key entries others. cbn. by rewrite app_nil_r.
  - destruct (getTypeInfo_returns (TypeDefinitions t) Hobjects (Parameters function))
      as (fuel1 & args & Hargs).
    exists (fuel1 `max` fuel2). eexists (_ :: new). intros fuel Hle Key entries others.
    cbn [generateToolsLoop]. rewrite Hargs by lia. rewrite Hnew by lia.
    by rewrite <- app_assoc.
Qed.

(** X17.  When every name of the type dictionary stands for an object,
    [ToJSONDefinitions] returns: from some depth of calls on, the text is
    there and it is the same text. *)
Theorem ToJSONDefinitions_returns `{GoRuntime} (t : ToolSet) :
  objectsOnly (TypeDefinitions t) ->
  exists fuel0 text,
    forall fuel, fuel0 <= fuel -> FuncDefs.ToJSONDefinitions fuel t = Some text.
Proof.
  intros Hobjects.
  destruct (generateToolsLoop_returns t (Functions t) Hobjects) as (fuel0 & new & Hnew).
  exists fuel0. eexists. intros fuel Hle.
  unfold ToJSONDefinitions, generateToolsDefinition. rewrite Hnew by done. reflexivity.
Qed.

Lemma generateToolsLoop_some (fuel : nat) (t : ToolSet) (functions : list FuncDefinition) :
  forall Key entries others schema,
    generateToolsLoop fuel t functions ((Key, VArr entries) :: others) = Some schema
    <-> exists new,
          schema = (Key, VArr (entries ++ new)) :: others
          /\ Forall2 (describes fuel t) functions new.
Proof.
  induction functions as [|function functions IH]; intros Key entries others schema;
    cbn [generateToolsLoop].
  - split.
    + intros [= <-]. exists []. by rewrite app_nil_r.
    + intros (new & -> & Hnew). apply Forall2_nil_inv_l in Hnew as ->. by rewrite app_nil_r.
  - destruct (getTypeInfo fuel (TypeDefinitions t) (Parameters function)) as [args|] eqn:Hargs.
    + rewrite IH. split.
      * intros (new & -> & Hnew). eexists (_ :: new). split; [by rewrite <- app_assoc|].
        constructor; [by exists args|done].
      * intros (new & -> & Hnew).
        apply Forall2_cons_inv_l in Hnew as (entry & new' & (a & Ha & ->) & Hnew & ->).
        rewrite Hargs in Ha. injection Ha as <-.
        exists new'. by rewrite <- app_assoc.
    + split; [done|]. intros (new & -> & Hnew).
      apply Forall2_cons_inv_l in Hnew as (entry & new' & (a & Ha & _) & _ & _). congruence.
Qed.

(** X18.  Whenever [generateToolsDefinition] returns, it returns a map with
    the single key [functions] over one entry per function of the tool set,
    in the order of the tool set, each with name, description and args in
    this order; and it returns whenever [getTypeInfo] returns for the
    parameters of every function: the type assertion in its loop does not
    fail. *)
Theorem generateToolsDefinition_lists_the_functions (fuel : nat) (t : ToolSet)
    (schema : list (string * Value)) :
  generateToolsDefinition fuel t = Some schema
  <-> exists entries,
        schema = [("functions", VArr entries)]
        /\ Forall2 (describes fuel t) (Functions t) entries.
Proof. unfold generateToolsDefinition. apply generateToolsLoop_some. Qed.

End FuncDefsFacts.

Module FuncDefsExamples.
Import GoMapFacts.
Import Tools.
Import FuncDefs.
Import FuncDefsFacts.

#[local] Existing Instance Eolo.plainRuntime.

(** A dictionary in which [celsius] stands for [temperature] and
    [temperature] for [celsius]. *)
Lemma cyclic_alias_never_returns_witness :
  let typeDefinitions := [("celsius", typeNamed "temperature");
                          ("temperature", typeNamed "celsius")] in
  let properties := [("threshold", typeNamed "celsius")] in
  let function := mkFuncDefinition "set_threshold" "Set the alarm threshold."
                    (mkTypeInfo "object" "" None (Some properties) ["threshold"] [] "")
                    (typeNamed "string") in
  let t := mkToolSet [function] typeDefinitions in
  function ∈ Functions t
  /\ cyclic typeDefinitions "celsius"
  /\ ToJSONDefinitions (H := Eolo.plainRuntime) 1000 t = None.
Proof.
  intros typeDefinitions properties function t.
  assert (Hin : function ∈ Functions t) by (apply elem_of_cons; by left).
  assert (Hcycle : cyclic typeDefinitions "celsius").
  { apply tc_l with "temperature"; [|apply tc_once]; eexists; by split_and!. }
  split_and!; [exact Hin|exact Hcycle|].
  apply (cyclic_alias_never_returns t function 1000 Hin). right.
  exists properties, "threshold", (typeNamed "celsius").
  split_and!; [reflexivity|apply elem_of_cons; by left|exact Hcycle].
Defined.

Lemma eolo_objects_only : objectsOnly (TypeDefinitions Eolo.AvailableTools).
Proof.
  intros name definition Hdef. apply mget_Some_elem in Hdef.
  apply elem_of_cons in Hdef as [[= _ ->]|Hdef]; [done|].
  by apply list_elem_of_singleton in Hdef as [= _ ->].
Qed.

Lemma ToJSONDefinitions_returns_witness :
  objectsOnly (TypeDefinitions Eolo.AvailableTools)
  /\ exists fuel0 text,
       forall fuel, fuel0 <= fuel ->
         ToJSONDefinitions (H := Eolo.plainRuntime) fuel Eolo.AvailableTools = Some text.
Proof.
  split; [exact eolo_objects_only|].
  exact (ToJSONDefinitions_returns Eolo.AvailableTools eolo_objects_only).
Defined.

End FuncDefsExamples.

(** ** The grammar cache and the completion client *)

Module LlamaFacts.
Import GoMapFacts.
Import PlanFacts.
Import FingerprintFacts.
Import LlamaCpp.

Section Runtime.
Context `{GoRuntime}.

Section Loop.
Variable f : json -> json.

Lemma orderLoop_lookup (v : gomap json) (ks : list string) :
  forall newMap k,
    mget k (orderLoop f v ks newMap)
    = if decide (k ∈ ks)
      then Some (match mget k v with Some item => f item | None => JNull end)
      else mget k newMap.
Proof.
  induction ks as [|k0 ks IH]; intros newMap k.
  - cbn [orderLoop]. rewrite decide_False; [done|]. apply not_elem_of_nil.
  - cbn [orderLoop]. rewrite IH, mget_with_mget. clear IH.
    destruct (decide (k ∈ ks)) as [Hin|Hout].
    + rewrite decide_True; [done|]. apply elem_of_cons. by right.
    + destruct (decide (k = k0)) as [->|Hne].
      * rewrite decide_True by (apply elem_of_cons; by left).
        destruct (mget k0 v); apply mget_mset_eq.
      * rewrite decide_False by (intros [?|?]%elem_of_cons; done).
        destruct (mget k0 v); by apply mget_mset_ne.
Qed.

Lemma orderLoop_NoDup (v : gomap json) (ks : list string) :
  forall newMap, NoDup (keys newMap) -> NoDup (keys (orderLoop f v ks newMap)).
Proof.
  induction ks as [|k0 ks IH]; intros newMap Hnd; [done|].
  cbn [orderLoop]. apply IH. rewrite mget_with_mget.
  destruct (mget k0 v); by apply mset_NoDup.
Qed.
End Loop.

(** The new map holds, under each key of the old one, the ordered value. *)
Lemma ordered_lookup (v : gomap json) (k : string) :
  mget k (orderLoop orderJSON v (merge_sort String.le (keys v)) [])
  = orderJSON <$> mget k v.
Proof.
  rewrite orderLoop_lookup. destruct (decide (k ∈ merge_sort String.le (keys v))) as [Hin|Hout].
  - rewrite merge_sort_Permutation in Hin.
    destruct (mget k v) as [item|] eqn:Hk; [done|]. by apply mget_None in Hk.
  - rewrite merge_sort_Permutation in Hout. apply mget_None in Hout. by rewrite Hout.
Qed.

Lemma orderJSON_equiv (j1 : json) :
  forall j2, json_equiv j1 j2 -> json_equiv (orderJSON j1) (orderJSON j2).
Proof.
  induction j1 as [| | | |items IH|fields IH] using json_ind;
    intros j2 Hequiv; inversion Hequiv as [|? items2 Hitems|? fields2 Hnd1 Hnd2 Hfields];
    subst; try apply equiv_refl.
  - cbn [orderJSON]. apply equiv_arr.
    clear Hequiv. revert IH. induction Hitems as [|x y l1 l2 Hxy _ IHl]; intros IH.
    + constructor.
    + apply Forall_cons in IH as [IHx IHrest]. cbn [map]. constructor; auto.
  - cbn [orderJSON]. apply equiv_obj.
    + apply orderLoop_NoDup. constructor.
    + apply orderLoop_NoDup. constructor.
    + intros k. rewrite !ordered_lookup. specialize (Hfields k).
      destruct (mget k fields) as [x1|] eqn:Hx1; inversion Hfields as [? x2 Hx|]; subst;
        simpl; constructor.
      apply mget_Some_elem in Hx1. rewrite Forall_forall in IH. exact (IH (k, x1) Hx1 x2 Hx).
Qed.

Section Client.
Variable unmarshal : string -> result string json.
Variable runPythonCommand : string -> World -> result string string * World.
Variable Do : Config -> CompletionRequest -> World -> HttpResult * World.
Variable unmarshalChoices : string -> result string (list string).
Variable removeControlTokens : string -> string.

Abbreviation fingerprint := (calculateFingerprint unmarshal).
Abbreviation toGrammar := (jsonSchemaToGrammar unmarshal runPythonCommand).
Abbreviation Complete_ := (Complete unmarshal runPythonCommand Do unmarshalChoices
                             removeControlTokens).

Lemma fingerprint_equiv (s1 s2 : string) (d1 d2 : json) :
  unmarshal s1 = Ok d1 -> unmarshal s2 = Ok d2 -> json_equiv d1 d2 ->
  fingerprint s1 = fingerprint s2.
Proof.
  intros H1 H2 Hequiv. unfold calculateFingerprint. rewrite H1, H2.
  by rewrite (marshal_equiv _ _ (orderJSON_equiv _ _ Hequiv)).
Qed.

(** X19.  The fingerprint of a schema text depends on the value the text
    decodes to, not on the order in which its objects list their members,
    at any depth: two texts that decode to the same value up to that order
    have the same fingerprint. *)
Theorem calculateFingerprint_ignores_member_order (s1 s2 : string) (d1 d2 : json) :
  unmarshal s1 = Ok d1 -> unmarshal s2 = Ok d2 -> json_equiv d1 d2 ->
  fingerprint s1 = fingerprint s2.
Proof. apply fingerprint_equiv. Qed.

Lemma toGrammar_cached (jsonSchema grammar : string) (st st' : State) :
  toGrammar jsonSchema st = (Ok grammar, st') ->
  exists hash, fingerprint jsonSchema = Ok hash /\ grammarCache st' !! hash = Some grammar.
Proof.
  unfold jsonSchemaToGrammar. destruct (fingerprint jsonSchema) as [hash|err]; [|done].
  destruct (grammarCache st !! hash) as [cached|] eqn:Hhit.
  - intros [= <- <-]. by exists hash.
  - cbn [world grammarCache trace].
    destruct (runPythonCommand jsonSchema (world st)) as [[g|err] w]; [|done].
    intros [= <- <-]. exists hash. split; [done|]. cbn. apply lookup_insert_eq.
Qed.

(** X20.  Once [jsonSchemaToGrammar] has returned a grammar for a schema,
    every later call on a schema text that decodes to the same value up to
    the order of members returns that grammar from the cache: the python
    script is not run and nothing changes. *)
Theorem jsonSchemaToGrammar_hits_the_cache (s1 s2 grammar : string) (d1 d2 : json)
    (st st' : State) :
  toGrammar s1 st = (Ok grammar, st') ->
  unmarshal s1 = Ok d1 -> unmarshal s2 = Ok d2 -> json_equiv d1 d2 ->
  forall later,
    grammarCache st' ⊆ grammarCache later -> toGrammar s2 later = (Ok grammar, later).
Proof.
  intros Hfirst H1 H2 Hequiv later Hsub.
  apply toGrammar_cached in Hfirst as (hash & Hhash & Hcached).
  unfold jsonSchemaToGrammar.
  rewrite <- (fingerprint_equiv s1 s2 d1 d2 H1 H2 Hequiv), Hhash.
  by rewrite (lookup_weaken _ _ _ _ Hcached Hsub).
Qed.

Lemma toGrammar_trace (jsonSchema : string) (st : State) :
  exists tr,
    trace (toGrammar jsonSchema st).2 = trace st ++ tr /\ requests tr = []
    /\ (pythonRuns tr = []
        \/ (pythonRuns tr = [jsonSchema]
            /\ exists hash, fingerprint jsonSchema = Ok hash
                            /\ grammarCache st !! hash = None)).
Proof.
  unfold jsonSchemaToGrammar. destruct (fingerprint jsonSchema) as [hash|err].
  - destruct (grammarCache st !! hash) as [cached|] eqn:Hhit.
    + exists []. split_and!; [by rewrite app_nil_r|done|by left].
    + exists [EvPython jsonSchema]. cbn [world grammarCache trace].
      split_and!; [by destruct (runPythonCommand jsonSchema (world st)) as [[g|err] w]|done|].
      right. split; [done|]. by exists hash.
  - exists []. split_and!; [by rewrite app_nil_r|done|by left].
Qed.

(** X21.  A call of [jsonSchemaToGrammar] never removes or replaces an entry
    of the cache and sends no request; it runs the python script at most
    once, on the schema it was given and only when the cache has no entry
    for its fingerprint; a failure leaves the cache as it was, and a
    grammar returned is in the cache afterwards under the fingerprint of
    the schema. *)
Theorem jsonSchemaToGrammar_extends_the_cache (jsonSchema : string) (st : State) :
  let run := toGrammar jsonSchema st in
  grammarCache st ⊆ grammarCache run.2
  /\ (exists tr,
        trace run.2 = trace st ++ tr /\ requests tr = []
        /\ (pythonRuns tr = []
            \/ (pythonRuns tr = [jsonSchema]
                /\ exists hash, fingerprint jsonSchema = Ok hash
                                /\ grammarCache st !! hash = None)))
  /\ (forall err, run.1 = Err err -> grammarCache run.2 = grammarCache st)
  /\ (forall grammar, run.1 = Ok grammar ->
        exists hash, fingerprint jsonSchema = Ok hash
                     /\ grammarCache run.2 !! hash = Some grammar).
Proof.
  cbv zeta. split_and!.
  - unfold jsonSchemaToGrammar. destruct (fingerprint jsonSchema) as [hash|err]; [|done].
    destruct (grammarCache st !! hash) as [cached|] eqn:Hhit; [done|].
    cbn [world grammarCache trace].
    destruct (runPythonCommand jsonSchema (world st)) as [[g|err] w]; [|done].
    cbn. by apply insert_subseteq.
  - apply toGrammar_trace.
  - intros err. unfold jsonSchemaToGrammar.
    destruct (fingerprint jsonSchema) as [hash|e]; [|done].
    destruct (grammarCache st !! hash) as [cached|] eqn:Hhit; [done|].
    cbn [world grammarCache trace].
    by destruct (runPythonCommand jsonSchema (world st)) as [[g|e] w].
  - intros grammar Hrun. apply (toGrammar_cached jsonSchema grammar st (toGrammar jsonSchema st).2).
    rewrite <- Hrun. by destruct (toGrammar jsonSchema st).
Qed.

(** *** The client *)

Lemma getCompletionResponse_state (c : Config) (messages : list Message) (grammar : string)
    (st : State) :
  let run := getCompletionResponse Do unmarshalChoices c messages grammar st in
  grammarCache run.2 = grammarCache st
  /\ exists tr,
       trace run.2 = trace st ++ tr
       /\ atMostOneRequest tr messages
            (if UseGrammar c && negb (String.eqb grammar "") then grammar else "")
       /\ (forall choices, run.1 = Return choices -> tr ≠ []).
Proof.
  cbv zeta. unfold getCompletionResponse. cbv zeta.
  assert (Hsent : forall request : CompletionRequest,
             rqMessages request = messages ->
             rqGrammar request
             = (if UseGrammar c && negb (String.eqb grammar "") then grammar else "") ->
             rqSeed request = 42 ->
             atMostOneRequest [EvRequest request] messages
               (if UseGrammar c && negb (String.eqb grammar "") then grammar else "")).
  { intros request Hm Hg Hs. right. by exists request. }
  destruct (Do c _ (world st)) as [[err|err|err|status body] w]; cbn [fst snd grammarCache trace].
  - split; [done|]. exists []. split_and!; [by rewrite app_nil_r|by left|done].
  - split; [done|]. eexists [_]. split_and!; [done|by apply Hsent|done].
  - split; [done|]. eexists [_]. split_and!; [done|by apply Hsent|done].
  - destruct (negb (status =? 200)); [|destruct (unmarshalChoices body)];
      cbn [fst snd grammarCache trace];
      (split; [done|]; eexists [_]; split_and!; [done|by apply Hsent|done]).
Qed.

Lemma complete_state (c : Config) (messages : list Message) (grammar : string) (st : State) :
  let run := complete Do unmarshalChoices removeControlTokens c messages grammar st in
  grammarCache run.2 = grammarCache st
  /\ (exists tr,
        trace run.2 = trace st ++ tr
        /\ atMostOneRequest tr messages
             (if UseGrammar c && negb (String.eqb grammar "") then grammar else "")
        /\ (forall text, run.1 = Return text -> tr ≠ []))
  /\ forall err, run.1 ≠ Fail err.
Proof.
  cbv zeta. unfold complete.
  pose proof (getCompletionResponse_state c messages grammar st) as Hstate. cbv zeta in Hstate.
  destruct (getCompletionResponse Do unmarshalChoices c messages grammar st)
    as [[choices|err|message|message] st1]; cbn [fst snd] in *;
    destruct Hstate as (Hcache & tr & Htrace & Hone & Hsent).
  - destruct choices as [|first rest]; cbn [fst snd].
    + split_and!; [done| |done]. exists tr. split_and!; [done..|]. by intros.
    + split_and!; [done| |done]. exists tr. split_and!; [done..|].
      intros text _. by eapply Hsent.
  - split_and!; [done| |done]. exists tr. split_and!; [done..|]. by intros.
  - split_and!; [done| |done]. exists tr. split_and!; [done..|]. by intros.
  - split_and!; [done| |done]. exists tr. split_and!; [done..|]. by intros.
Qed.

(** X22.  [Complete] returns an error only when the schema could not be
    turned into a grammar, and then it has sent no request: a failure of
    the HTTP exchange ends the process instead of coming back as an error.
    A call sends at most one request, and one whenever it returns a text.
    Without a schema, or with [UseGrammar] off, the cache is left alone and
    the request carries the messages and no grammar; otherwise the request,
    sent after the conversion, carries the messages and the grammar of the
    schema. *)
Theorem Complete_sends_at_most_one_request (c : Config) (messages : list (string * string))
    (jsonSchema : string) (st : State) :
  let run := Complete_ c messages jsonSchema st in
  let conversation := map (fun m => mkMessage m.1 m.2) messages in
  (forall err,
      run.1 = Fail err ->
      exists e tr,
        (toGrammar jsonSchema st).1 = Err e
        /\ err = "error converting JSON schema to grammar: " +:+ e
        /\ trace run.2 = trace st ++ tr /\ requests tr = [])
  /\ (jsonSchema = "" \/ UseGrammar c = false ->
      grammarCache run.2 = grammarCache st
      /\ exists tr,
           trace run.2 = trace st ++ tr
           /\ atMostOneRequest tr conversation ""
           /\ (forall text, run.1 = Return text -> tr ≠ []))
  /\ (forall grammar st1,
        jsonSchema ≠ "" -> UseGrammar c = true ->
        toGrammar jsonSchema st = (Ok grammar, st1) ->
        exists tr,
          trace run.2 = trace st1 ++ tr
          /\ atMostOneRequest tr conversation grammar
          /\ (forall text, run.1 = Return text -> tr ≠ [])).
Proof.
  cbv zeta. unfold Complete. split_and!.
  - intros err.
    destruct (String.eqb jsonSchema "" || negb (UseGrammar c)).
    + intros Hfail. by destruct (complete_state c (map (fun m => mkMessage m.1 m.2) messages)
                                   "" st) as (_ & _ & Hno); destruct (Hno err).
    + destruct (toGrammar_trace jsonSchema st) as (tr & Htr & Hreq & _).
      destruct (toGrammar jsonSchema st) as [[grammar|e] st1]; cbn [fst snd] in *.
      * intros Hfail.
        by destruct (complete_state c (map (fun m => mkMessage m.1 m.2) messages)
                       grammar st1) as (_ & _ & Hno); destruct (Hno err).
      * intros [= <-]. by exists e, tr.
  - intros Hoff.
    assert (Hcond : String.eqb jsonSchema "" || negb (UseGrammar c) = true).
    { destruct Hoff as [Hempty|Huse]; [by rewrite Hempty|].
      rewrite Huse. by rewrite orb_true_r. }
    rewrite Hcond.
    destruct (complete_state c (map (fun m => mkMessage m.1 m.2) messages) "" st)
      as (Hcache & (tr & Htrace & Hone & Hsent) & _).
    split; [done|]. exists tr. split_and!; [done| |done].
    by rewrite andb_false_r in Hone.
  - intros grammar st1 Hschema Huse Hgrammar.
    assert (Hcond : String.eqb jsonSchema "" || negb (UseGrammar c) = false).
    { rewrite Huse. destruct (String.eqb_spec jsonSchema ""); done. }
    rewrite Hcond, Hgrammar.
    destruct (complete_state c (map (fun m => mkMessage m.1 m.2) messages) grammar st1)
      as (_ & (tr & Htrace & Hone & Hsent) & _).
    exists tr. split_and!; [done| |done].
    rewrite Huse in Hone. by destruct (String.eqb_spec grammar "") as [->|].
Qed.

End Client.
End Runtime.
End LlamaFacts.

Module LlamaExamples.
Import LlamaCpp.
Import LlamaFacts.

#[local] Existing Instance Eolo.plainRuntime.

(** Two texts of one schema, with the members the other way round. *)
Lemma members_swapped :
  json_equiv (JObj [("type", JStr "object"); ("required", JArr [JStr "city"])])
             (JObj [("required", JArr [JStr "city"]); ("type", JStr "object")]).
Proof.
  apply equiv_obj; [compute_done..|]. intros k. cbn [mget].
  destruct (String.eqb_spec k "type") as [->|Htype]; cbn.
  - constructor. apply equiv_refl.
  - destruct (String.eqb k "required"); constructor. apply equiv_refl.
Qed.

Lemma calculateFingerprint_ignores_member_order_witness :
  let d1 := JObj [("type", JStr "object"); ("required", JArr [JStr "city"])] in
  let d2 := JObj [("required", JArr [JStr "city"]); ("type", JStr "object")] in
  let unmarshal := fun s : string => if String.eqb s "first" then Ok d1 else Ok d2 in
  json_equiv d1 d2
  /\ calculateFingerprint (H := Eolo.plainRuntime) unmarshal "first"
     = calculateFingerprint (H := Eolo.plainRuntime) unmarshal "second".
Proof.
  intros d1 d2 unmarshal. split; [exact members_swapped|].
  exact (calculateFingerprint_ignores_member_order unmarshal "first" "second" d1 d2
           eq_refl eq_refl members_swapped).
Defined.

Lemma jsonSchemaToGrammar_hits_the_cache_witness :
  let d1 := JObj [("type", JStr "object"); ("required", JArr [JStr "city"])] in
  let d2 := JObj [("required", JArr [JStr "city"]); ("type", JStr "object")] in
  let unmarshal := fun s : string => if String.eqb s "first" then Ok d1 else Ok d2 in
  let python := fun (input : string) (w : unit) => (Ok ("grammar of " +:+ input), w) in
  let st := mkState (H := Eolo.plainRuntime) ∅ tt [] in
  json_equiv d1 d2
  /\ exists grammar st',
       jsonSchemaToGrammar unmarshal python "first" st = (Ok grammar, st')
       /\ pythonRuns (trace st') = ["first"]
       /\ jsonSchemaToGrammar unmarshal python "second" st' = (Ok grammar, st').
Proof.
  intros d1 d2 unmarshal python st. split; [exact members_swapped|].
  eexists _, _. split_and!; [reflexivity|reflexivity|].
  exact (jsonSchemaToGrammar_hits_the_cache unmarshal python "first" "second" _ d1 d2 st _
           eq_refl eq_refl eq_refl members_swapped _ (reflexivity _)).
Defined.

End LlamaExamples.

(** ** The memo and later registrations *)

Module StaleFacts.
Import GoMapFacts.
Import RequiredFacts.
Import MemoFacts.
Import RunFacts.
Import Execution.
Import Runs.

Section Runtime.
Context `{GoRuntime}.
Variable o o2 : Orchestrator.
Hypothesis HTools : ToolSet o2 = ToolSet o.
Hypothesis HNames : forall name, is_Some (Functions o !! name) -> is_Some (Functions o2 !! name).

Lemma checkRequiredArgs_same (function : Parser.PlannedFuncCall) (args : gomap Arg) :
  checkRequiredArgs o2 function args = checkRequiredArgs o function args.
Proof. unfold checkRequiredArgs. by rewrite HTools. Qed.

Lemma lookupOrInvoke_served (executor executor2 : FuncExecutor)
    (function : Parser.PlannedFuncCall) (args : gomap Arg) (st st' : State)
    (e : ExecutedFuncCall) :
  lookupOrInvoke executor function args st = (Ok e, st') ->
  replaysOk (lookupOrInvoke executor2 function args) e st'.
Proof.
  intros Hrun st2 Hsub.
  destruct (lookupOrInvoke_ok_memo executor function args st e) as (result & -> & Hmemo);
    [by rewrite Hrun|].
  rewrite Hrun in Hmemo. simpl in Hmemo.
  exists [EvFingerprint (Parser.Name function) (createProcessedArgs args)].
  split; [|done]. apply lookupOrInvoke_hit. by eapply lookup_weaken.
Qed.

Lemma processArgsLoop_served (funcName : string) (fargs : gomap Parser.ArgValue) :
  Forall (Parser.onNested
            (fun v => forall st e st', executeFunc o v st = (Ok e, st') ->
                                       replaysOk (executeFunc o2 v) e st')) fargs ->
  forall args st a st',
    processArgsLoop (executeFunc o) funcName fargs args st = (Ok a, st') ->
    replaysOk (processArgsLoop (executeFunc o2) funcName fargs args) a st'.
Proof.
  induction 1 as [|[key value] fargs Hhead _ IH]; intros args st a st' Hrun st2 Hsub.
  - simpl in Hrun |- *. injection Hrun as <- <-. exists []. by rewrite after_nil.
  - destruct value as [v|v]; simpl in Hrun |- *.
    { exact (IH _ _ _ _ Hrun st2 Hsub). }
    unfold Parser.onNested in Hhead. simpl in Hhead.
    destruct (executeFunc o v st) as [[funcExe|err] sta] eqn:Hv; [|done].
    pose proof (processArgsLoop_always_tracked o funcName fargs
                  (mset key (FuncArg funcExe) args) sta) as Htr_rest.
    rewrite Hrun in Htr_rest. apply tracked_memo in Htr_rest. simpl in Htr_rest.
    destruct (Hhead st funcExe sta Hv st2) as (tra & Hrun_a & Hinv_a); [by etrans|].
    rewrite Hrun_a.
    destruct (IH _ _ _ _ Hrun (after st2 tra)) as (trb & Hrun_b & Hinv_b); [done|].
    rewrite Hrun_b. exists (tra ++ trb). rewrite after_after. split; [done|].
    by rewrite invoked_app, Hinv_a, Hinv_b.
Qed.

Lemma executeFunc_served (function : Parser.PlannedFuncCall) :
  forall st e st',
    executeFunc o function st = (Ok e, st') -> replaysOk (executeFunc o2 function) e st'.
Proof.
  induction function as [name purpose fargs IH] using Parser.PlannedFuncCall_ind.
  intros st e st' Hrun st2 Hsub.
  set (function := Parser.mkPlannedFuncCall name purpose fargs) in *.
  rewrite executeFunc_eq in Hrun |- *. unfold processArgs in *.
  cbn [Parser.Name Parser.Args function] in Hrun |- *.
  destruct (Functions o !! name) as [executor|] eqn:Hexec; [|done].
  destruct (HNames name) as [executor2 Hexec2]; [by rewrite Hexec|]. rewrite Hexec2.
  destruct (processArgsLoop (executeFunc o) name fargs [] st) as [[args|err] st1] eqn:Hloop;
    [|done].
  destruct (checkRequiredArgs o function args) as [err|] eqn:Hcheck.
  - injection Hrun as Hres <-.
    destruct (processArgsLoop_served name fargs IH [] st args st1 Hloop st2 Hsub)
      as (tra & -> & Hinv).
    rewrite checkRequiredArgs_same, Hcheck, Hres. by exists tra.
  - pose proof (lookupOrInvoke_advances o executor function args Hexec st1) as Hlook_tr.
    fold (tracked o st1 (lookupOrInvoke executor function args st1)) in Hlook_tr.
    apply tracked_memo in Hlook_tr. rewrite Hrun in Hlook_tr. simpl in Hlook_tr.
    destruct (processArgsLoop_served name fargs IH [] st args st1 Hloop st2)
      as (tra & -> & Hinv_a); [by etrans|].
    rewrite checkRequiredArgs_same, Hcheck.
    destruct (lookupOrInvoke_served executor executor2 function args st1 st' e Hrun
                (after st2 tra)) as (trb & -> & Hinv_b); [done|].
    exists (tra ++ trb). rewrite after_after. split; [done|].
    by rewrite invoked_app, Hinv_a, Hinv_b.
Qed.

Lemma executeSeqLoop_served (functions : list Parser.PlannedFuncCall) :
  forall done_ st r st',
    executeSeqLoop o functions done_ st = (Ok r, st') ->
    replaysOk (executeSeqLoop o2 functions done_) r st'.
Proof.
  induction functions as [|function functions IH]; intros done_ st r st' Hrun st2 Hsub.
  - simpl in Hrun |- *. injection Hrun as <- <-. exists []. by rewrite after_nil.
  - simpl in Hrun |- *.
    destruct (executeFunc o function st) as [[funcExe|err] sta] eqn:Hv; [|done].
    pose proof (executeSeqLoop_tracked o functions (done_ ++ [funcExe]) sta) as Htr_rest.
    rewrite Hrun in Htr_rest. apply tracked_memo in Htr_rest. simpl in Htr_rest.
    destruct (executeFunc_served function st funcExe sta Hv st2) as (tra & -> & Hinv_a);
      [by etrans|].
    destruct (IH _ _ _ _ Hrun (after st2 tra)) as (trb & -> & Hinv_b); [done|].
    exists (tra ++ trb). rewrite after_after. split; [done|].
    by rewrite invoked_app, Hinv_a, Hinv_b.
Qed.

End Runtime.

(** X23.  The memo is never invalidated: after a plan was executed with
    success, executing it again returns the same results from the memo
    without running any executor, also when executors were registered anew
    in between, under new names or in the place of those that produced the
    results. *)
Theorem memo_outlives_registration `{GoRuntime} (o o2 : Orchestrator)
    (plan : list Parser.PlannedFuncCall) (st st' : State) (r : Result) :
  reregistered o o2 ->
  executeSeq o plan st = (Ok r, st') ->
  forall later,
    Memo st' ⊆ Memo later ->
    exists tr, executeSeq o2 plan later = (Ok r, after later tr) /\ invoked tr = [].
Proof.
  intros [Htools Hnames] Hrun later Hsub.
  exact (executeSeqLoop_served o o2 Htools Hnames plan [] st r st' Hrun later Hsub).
Qed.

#[local] Existing Instance Eolo.plainRuntime.

(** Scenario E1, and again after the geocoder was replaced by one that
    cannot be reached: the coordinates still come from the memo. *)
Lemma memo_outlives_registration_witness :
  let o := Eolo.orchestratorWith (H := Eolo.plainRuntime) (Eolo.answering Eolo.found) in
  let o2 := RegisterFunction o "get_coordinates" Eolo.unavailable in
  let st := NewState (H := Eolo.plainRuntime) tt in
  let plan := [Eolo.forecastForTurin] in
  reregistered o o2
  /\ exists r st' tr,
       executeSeq o plan st = (Ok r, st')
       /\ executeSeq o2 plan st' = (Ok r, after st' tr) /\ invoked tr = [].
Proof.
  intros o o2 st plan.
  assert (Hre : reregistered o o2).
  { split; [done|]. intros name Hname. unfold o2, RegisterFunction. cbn [Functions].
    destruct (decide (name = "get_coordinates")) as [->|Hne].
    - rewrite lookup_insert_eq. by eexists.
    - by rewrite lookup_insert_ne. }
  split; [exact Hre|].
  destruct (memo_outlives_registration o o2 plan st (executeSeq o plan st).2
              match (executeSeq o plan st).1 with Ok r => r | Err _ => mkResult [] end
              Hre eq_refl (executeSeq o plan st).2 (reflexivity _)) as (tr & Hrun & Hinv).
  eexists _, _, tr. split_and!; [reflexivity|exact Hrun|exact Hinv].
Defined.

End StaleFacts.

(** ** A plan executed twice *)

Module ReplayFacts.
Import GoMapFacts.
Import FingerprintFacts.
Import RequiredFacts.
Import MemoFacts.
Import PlanFacts.
Import RunFacts.
Import Execution.
Import Shapes.
Import Runs.

Lemma sameExecution_Result (e1 e2 : ExecutedFuncCall) :
  sameExecution e1 e2 -> Result_ e1 = Result_ e2.
Proof. by intros []. Qed.

Lemma sameExecution_args (name purpose : string) (args1 args2 : gomap Arg)
    (result : FuncResult) :
  sameArgs args1 args2 ->
  sameExecution (mkExecutedFuncCall name purpose args1 result)
                (mkExecutedFuncCall name purpose args2 result).
Proof. intros (Hnone & Hvalue & Hfunc). by constructor. Qed.

(** An entry of a map with distinct keys, as a lookup and as a member. *)
Lemma mget_elem {V} (m : gomap V) (k : string) (v : V) :
  NoDup (keys m) -> mget k m = Some v <-> (k, v) ∈ m.
Proof. intros Hnd. split; [apply mget_Some_elem|by apply elem_mget_Some]. Qed.

Lemma mget_keys {V} (m : gomap V) (k : string) :
  k ∈ keys m -> is_Some (mget k m).
Proof.
  intros Hin. destruct (mget k m) as [v|] eqn:Hk; [by eexists|].
  by apply mget_None in Hk.
Qed.

(** What [relisted] says of an entry of the second listing. *)
Lemma relisted_back (fargs1 fargs2 : gomap Parser.ArgValue) :
  (forall key, mget key fargs1 = None -> mget key fargs2 = None) ->
  (forall key v, mget key fargs1 = Some (Parser.Literal v) ->
                 mget key fargs2 = Some (Parser.Literal v)) ->
  (forall key call1, mget key fargs1 = Some (Parser.Nested call1) ->
                     exists call2, mget key fargs2 = Some (Parser.Nested call2)
                                   /\ relisted call1 call2) ->
  (forall key, mget key fargs2 = None -> mget key fargs1 = None)
  /\ (forall key v, mget key fargs2 = Some (Parser.Literal v) ->
                    mget key fargs1 = Some (Parser.Literal v))
  /\ (forall key call2, mget key fargs2 = Some (Parser.Nested call2) ->
                        exists call1, mget key fargs1 = Some (Parser.Nested call1)
                                      /\ relisted call1 call2).
Proof.
  intros Hnone Hlit Hnest. split_and!.
  - intros key H2. destruct (mget key fargs1) as [[v|call1]|] eqn:H1; [..|done].
    + apply Hlit in H1. congruence.
    + apply Hnest in H1 as (call2 & H1 & _). congruence.
  - intros key v H2. destruct (mget key fargs1) as [[v1|call1]|] eqn:H1.
    + apply Hlit in H1. congruence.
    + apply Hnest in H1 as (call2 & H1 & _). congruence.
    + apply Hnone in H1. congruence.
  - intros key call2 H2. destruct (mget key fargs1) as [[v1|call1]|] eqn:H1.
    + apply Hlit in H1. congruence.
    + exists call1. split; [done|].
      apply Hnest in H1 as (call2' & H1 & Hrel). congruence.
    + apply Hnone in H1. congruence.
Qed.

(** A call with distinct keys at every depth is a listing of itself. *)
Lemma relisted_refl (call : Parser.PlannedFuncCall) : wellKeyed call -> relisted call call.
Proof.
  induction call as [name purpose fargs IH] using Parser.PlannedFuncCall_ind.
  intros Hwk. inversion Hwk as [? ? ? Hnd Hnested]; subst.
  constructor; [done..|].
  intros key call1 Hkey. exists call1. split; [done|].
  apply mget_Some_elem in Hkey.
  rewrite Forall_forall in IH. pose proof (IH _ Hkey) as IHcall.
  unfold Parser.onNested in IHcall. simpl in IHcall. apply IHcall. by apply (Hnested key).
Qed.

(** The same entries in another order. *)
Lemma relisted_Permutation (name purpose : string) (fargs1 fargs2 : gomap Parser.ArgValue) :
  wellKeyed (Parser.mkPlannedFuncCall name purpose fargs1) ->
  fargs1 ≡ₚ fargs2 ->
  relisted (Parser.mkPlannedFuncCall name purpose fargs1)
           (Parser.mkPlannedFuncCall name purpose fargs2).
Proof.
  intros Hwk Hperm. inversion Hwk as [? ? ? Hnd Hnested]; subst.
  assert (Hnd2 : NoDup (keys fargs2)).
  { unfold keys in *. by rewrite <- Hperm. }
  assert (Hsame : forall key, mget key fargs2 = mget key fargs1).
  { intros key. destruct (mget key fargs1) as [v|] eqn:H1.
    - apply mget_elem; [done|]. rewrite <- Hperm. by apply mget_elem.
    - apply mget_None. apply mget_None in H1. unfold keys in *. by rewrite <- Hperm. }
  constructor; [done|done|..].
  - intros key. by rewrite Hsame.
  - intros key v. by rewrite Hsame.
  - intros key call1 Hkey. exists call1. split; [by rewrite Hsame|].
    apply relisted_refl. apply (Hnested key). by apply mget_Some_elem.
Qed.

Section Runtime.
Context `{GoRuntime}.
Variable o : Orchestrator.

(** *** The materialized arguments of two listings *)

Lemma createProcessedArgsLoop_NoDup (args : gomap Arg) (acc : gomap json) :
  NoDup (keys acc) -> NoDup (keys (createProcessedArgsLoop args acc)).
Proof.
  revert acc. induction args as [|[key arg] args IH]; intros acc Hnd; simpl; [done|].
  apply IH. destruct arg as [v|f]; [by apply mset_NoDup|].
  destruct (Present (Result_ f)); [by apply mset_NoDup|done].
Qed.

Lemma sameArgs_materialized (args1 args2 : gomap Arg) (key : string) :
  sameArgs args1 args2 -> materialized (mget key args1) = materialized (mget key args2).
Proof.
  intros (Hnone & Hvalue & Hfunc).
  destruct (mget key args1) as [[v|child1]|] eqn:H1.
  - by rewrite (Hvalue _ _ H1).
  - destruct (Hfunc _ _ H1) as (child2 & -> & Hsame). simpl.
    by rewrite (sameExecution_Result _ _ Hsame).
  - by rewrite (Hnone _ H1).
Qed.

(** The fingerprint does not see the order in which the arguments were
    processed. *)
Lemma sameArgs_fingerprint (name : string) (args1 args2 : gomap Arg) :
  NoDup (keys args1) -> NoDup (keys args2) -> sameArgs args1 args2 ->
  generateFingerprint name (createProcessedArgs args1)
  = generateFingerprint name (createProcessedArgs args2).
Proof.
  intros Hnd1 Hnd2 Hsame. unfold generateFingerprint, marshalCall.
  rewrite (marshal_object_stable (createProcessedArgs args1) (createProcessedArgs args2));
    [done|apply createProcessedArgsLoop_NoDup, NoDup_nil_2..|].
  intros key. rewrite !createProcessedArgs_lookup_any by done.
  by apply sameArgs_materialized.
Qed.

Lemma sameArgs_checkRequiredArg (paramName : string) (args1 args2 : gomap Arg) :
  sameArgs args1 args2 -> checkRequiredArg paramName args2 = checkRequiredArg paramName args1.
Proof.
  intros (Hnone & Hvalue & Hfunc). unfold checkRequiredArg.
  destruct (mget paramName args1) as [[v|child1]|] eqn:H1.
  - by rewrite (Hvalue _ _ H1).
  - destruct (Hfunc _ _ H1) as (child2 & -> & Hsame). simpl.
    by rewrite (sameExecution_Result _ _ Hsame).
  - by rewrite (Hnone _ H1).
Qed.

Lemma sameArgs_checkRequiredArgs (name purpose : string)
    (fargs1 fargs2 : gomap Parser.ArgValue) (args1 args2 : gomap Arg) :
  sameArgs args1 args2 ->
  checkRequiredArgs o (Parser.mkPlannedFuncCall name purpose fargs2) args2
  = checkRequiredArgs o (Parser.mkPlannedFuncCall name purpose fargs1) args1.
Proof.
  intros Hsame. unfold checkRequiredArgs. cbn [Parser.Name].
  destruct (Tools.FindTool (ToolSet o) name) as [schema|]; [|done].
  induction (Tools.Required (Tools.Parameters schema)) as [|p required IH]; [done|].
  simpl. rewrite (sameArgs_checkRequiredArg p _ _ Hsame).
  destruct (checkRequiredArg p args1); [done|exact IH].
Qed.

(** *** The first run *)

(** A loop that ended well ran every nested call with success, before the
    end of the loop, and left the executed call under its key. *)
Lemma processArgsLoop_children (funcName : string) (fargs : gomap Parser.ArgValue) :
  NoDup (keys fargs) ->
  forall acc st args st',
    processArgsLoop (executeFunc o) funcName fargs acc st = (Ok args, st') ->
    forall key call, (key, Parser.Nested call) ∈ fargs ->
      exists child sta stb,
        executeFunc o call sta = (Ok child, stb)
        /\ Memo stb ⊆ Memo st'
        /\ mget key args = Some (FuncArg child).
Proof.
  unfold keys. induction fargs as [|[k value] fargs IH]; intros Hnd acc st args st' Hloop key call Hin.
  - by apply elem_of_nil in Hin.
  - rewrite fmap_cons in Hnd. cbn [fst] in Hnd. apply NoDup_cons in Hnd as [Hk Hnd].
    simpl in Hloop. destruct value as [v|v].
    + apply elem_of_cons in Hin as [[=]|Hin]. by eapply IH.
    + destruct (executeFunc o v st) as [[funcExe|err] st1] eqn:Hrun; [|done].
      apply elem_of_cons in Hin as [[= -> ->]|Hin]; [|by eapply IH].
      exists funcExe, st, st1. split_and!; [done| |].
      * pose proof (processArgsLoop_always_tracked o funcName fargs
                      (mset k (FuncArg funcExe) acc) st1) as Htr.
        rewrite Hloop in Htr. by apply tracked_memo in Htr.
      * rewrite (processArgsLoop_other (executeFunc o) funcName fargs k Hk _ _ _ _ Hloop).
        apply mget_mset_eq.
Qed.

(** *** The second run *)

(** The loop over another listing: when each nested call is served from the
    memo, with an executed call that [Q] accepts for its key, so is the
    loop. *)
Lemma processArgsLoop_relisted (Q : string -> ExecutedFuncCall -> Prop) (memo : gmap string FuncResult)
    (funcName : string) (fargs : gomap Parser.ArgValue) :
  NoDup (keys fargs) ->
  (forall key call, (key, Parser.Nested call) ∈ fargs ->
     forall st, memo ⊆ Memo st ->
       exists child tr, executeFunc o call st = (Ok child, after st tr)
                        /\ invoked tr = [] /\ Q key child) ->
  forall acc st, memo ⊆ Memo st ->
    exists args tr,
      processArgsLoop (executeFunc o) funcName fargs acc st = (Ok args, after st tr)
      /\ invoked tr = []
      /\ (forall key call, (key, Parser.Nested call) ∈ fargs ->
            exists child, mget key args = Some (FuncArg child) /\ Q key child).
Proof.
  unfold keys. induction fargs as [|[k value] fargs IH]; intros Hnd Hserved acc st Hsub.
  - exists acc, []. rewrite after_nil. split_and!; [done..|].
    intros key call Hin. by apply elem_of_nil in Hin.
  - rewrite fmap_cons in Hnd. cbn [fst] in Hnd. apply NoDup_cons in Hnd as [Hk Hnd].
    assert (Hrest : forall key call, (key, Parser.Nested call) ∈ fargs ->
              forall st, memo ⊆ Memo st ->
                exists child tr, executeFunc o call st = (Ok child, after st tr)
                                 /\ invoked tr = [] /\ Q key child).
    { intros key call Hin. apply Hserved. apply elem_of_cons. by right. }
    simpl. destruct value as [v|v].
    + destruct (IH Hnd Hrest (mset k (ValueArg v) acc) st Hsub) as (args & tr & Hloop & Hinv & Hch).
      exists args, tr. split_and!; [done..|].
      intros key call Hin. apply elem_of_cons in Hin as [[=]|Hin]. by apply (Hch key call).
    + destruct (Hserved k v (ltac:(apply elem_of_cons; by left)) st Hsub)
        as (child & tra & Hrun & Hinv_a & HQ).
      rewrite Hrun.
      destruct (IH Hnd Hrest (mset k (FuncArg child) acc) (after st tra) Hsub)
        as (args & trb & Hloop & Hinv_b & Hch).
      exists args, (tra ++ trb). rewrite <- after_after. split_and!; [done| |].
      * by rewrite invoked_app, Hinv_a, Hinv_b.
      * intros key call Hin.
        apply elem_of_cons in Hin as [[= -> ->]|Hin]; [|by apply (Hch key call)].
        exists child. split; [|done].
        rewrite (processArgsLoop_other (executeFunc o) funcName fargs k Hk _ _ _ _ Hloop).
        apply mget_mset_eq.
Qed.

(** A call that ended well is served from the memo when it is run again,
    whatever the order in which its arguments, and those of its nested
    calls, are listed then. *)
Lemma executeFunc_relisted (call1 : Parser.PlannedFuncCall) :
  forall call2, relisted call1 call2 ->
  forall st e1 st', executeFunc o call1 st = (Ok e1, st') ->
  forall st2, Memo st' ⊆ Memo st2 ->
    exists e2 tr, executeFunc o call2 st2 = (Ok e2, after st2 tr)
                  /\ invoked tr = [] /\ sameExecution e1 e2.
Proof.
  induction call1 as [name purpose fargs1 IH] using Parser.PlannedFuncCall_ind.
  intros call2 Hrel st e1 st' Hrun st2 Hsub.
  inversion Hrel as [? ? ? fargs2 Hnd1 Hnd2 Hnone Hlit Hnest]; subst.
  destruct (relisted_back _ _ Hnone Hlit Hnest) as (Hnone' & Hlit' & Hnest').
  rewrite executeFunc_eq in Hrun |- *. unfold processArgs in *.
  cbn [Parser.Name Parser.Args] in Hrun |- *.
  destruct (Functions o !! name) as [executor|] eqn:Hexec; [|done].
  destruct (processArgsLoop (executeFunc o) name fargs1 [] st) as [[args1|err] st1] eqn:Hloop1;
    [|done].
  destruct (checkRequiredArgs o (Parser.mkPlannedFuncCall name purpose fargs1) args1)
    as [err|] eqn:Hcheck.
  { unfold handleMissingRequiredArgsError in Hrun.
    by rewrite (checkRequiredArgs_not_formattable o _ _ _ Hcheck) in Hrun. }
  set (call1 := Parser.mkPlannedFuncCall name purpose fargs1) in *.
  (* what the first run left *)
  assert (Hsub1 : Memo st1 ⊆ Memo st').
  { pose proof (lookupOrInvoke_advances o executor call1 args1 Hexec st1) as Htr.
    fold (tracked o st1 (lookupOrInvoke executor call1 args1 st1)) in Htr.
    apply tracked_memo in Htr. by rewrite Hrun in Htr. }
  destruct (lookupOrInvoke_ok_memo executor call1 args1 st1 e1) as (result & -> & Hmemo);
    [by rewrite Hrun|].
  rewrite Hrun in Hmemo. cbn [snd Parser.Name Parser.Purpose call1] in Hmemo |- *.
  pose proof (processArgsLoop_NoDup (executeFunc o) name fargs1 [] st args1 st1
                (NoDup_nil_2) Hloop1) as Hnd_args1.
  destruct (processArgsLoop_entries (executeFunc o) (fun _ _ => True) name fargs1
              (fun _ _ _ _ _ _ _ => I) Hnd1 [] st args1 st1 Hloop1) as [Hlit1 _].
  pose proof (processArgsLoop_children name fargs1 Hnd1 [] st args1 st1 Hloop1) as Hch1.
  (* the second run over the other listing *)
  destruct (processArgsLoop_relisted
              (fun key child2 => exists child1, mget key args1 = Some (FuncArg child1)
                                                /\ sameExecution child1 child2)
              (Memo st1) name fargs2 Hnd2) with (acc := @nil (string * Arg)) (st := st2)
    as (args2 & tra & Hloop2 & Hinv_a & Hch2).
  { intros key c2 Hin later Hlater.
    apply (elem_mget_Some _ _ _ Hnd2) in Hin.
    destruct (Hnest' _ _ Hin) as (c1 & Hc1 & Hrel1).
    apply mget_Some_elem in Hc1.
    destruct (Hch1 _ _ Hc1) as (child1 & sta & stb & Hrun1 & Hstb & Hkey1).
    rewrite Forall_forall in IH. pose proof (IH _ Hc1) as IHc.
    unfold Parser.onNested in IHc. simpl in IHc.
    destruct (IHc c2 Hrel1 sta child1 stb Hrun1 later) as (child2 & tr & Hrun2 & Hinv & Hsame);
      [by etrans|].
    exists child2, tr. split_and!; [done..|]. by exists child1. }
  { by etrans. }
  rewrite Hloop2.
  pose proof (processArgsLoop_NoDup (executeFunc o) name fargs2 [] st2 args2 _
                (NoDup_nil_2) Hloop2) as Hnd_args2.
  destruct (processArgsLoop_entries (executeFunc o) (fun _ _ => True) name fargs2
              (fun _ _ _ _ _ _ _ => I) Hnd2 [] st2 args2 _ Hloop2) as [Hlit2 _].
  assert (Hsame : sameArgs args1 args2).
  { split_and!.
    - intros key Hkey.
      destruct (mget key fargs1) as [[v|c1]|] eqn:Hf1.
      + apply mget_Some_elem, Hlit1 in Hf1. congruence.
      + apply mget_Some_elem, Hch1 in Hf1 as (child1 & _ & _ & _ & _ & Hf1). congruence.
      + apply Hnone, mget_None in Hf1.
        by rewrite (processArgsLoop_other (executeFunc o) name fargs2 key Hf1 _ _ _ _ Hloop2).
    - intros key v Hkey.
      destruct (mget key fargs1) as [[v1|c1]|] eqn:Hf1.
      + pose proof (Hlit _ _ Hf1) as Hf2.
        apply mget_Some_elem, Hlit1 in Hf1. apply mget_Some_elem, Hlit2 in Hf2. congruence.
      + apply mget_Some_elem, Hch1 in Hf1 as (child1 & _ & _ & _ & _ & Hf1). congruence.
      + apply mget_None in Hf1.
        rewrite (processArgsLoop_other (executeFunc o) name fargs1 key Hf1 _ _ _ _ Hloop1)
          in Hkey. done.
    - intros key child1 Hkey.
      destruct (mget key fargs1) as [[v1|c1]|] eqn:Hf1.
      + apply mget_Some_elem, Hlit1 in Hf1. congruence.
      + destruct (Hnest _ _ Hf1) as (c2 & Hf2 & _).
        apply mget_Some_elem in Hf2.
        destruct (Hch2 _ _ Hf2) as (child2 & Hkey2 & child1' & Hkey1 & Hsame).
        exists child2. split; [done|]. congruence.
      + apply mget_None in Hf1.
        rewrite (processArgsLoop_other (executeFunc o) name fargs1 key Hf1 _ _ _ _ Hloop1)
          in Hkey. done. }
  rewrite (sameArgs_checkRequiredArgs name purpose fargs1 fargs2 args1 args2 Hsame).
  fold call1. rewrite Hcheck.
  set (call2 := Parser.mkPlannedFuncCall name purpose fargs2).
  rewrite (lookupOrInvoke_hit executor call2 args2 (after st2 tra) result).
  - eexists _, (tra ++ _). rewrite after_after. split_and!; [reflexivity| |].
    + by rewrite invoked_app, Hinv_a.
    + by apply sameExecution_args.
  - cbn [Parser.Name call2 after Memo].
    rewrite <- (sameArgs_fingerprint name args1 args2 Hnd_args1 Hnd_args2 Hsame).
    eapply lookup_weaken; [exact Hmemo|done].
Qed.

(** The same for the plan: its calls are run in the order of the slice, in
    both runs. *)
Lemma executeSeqLoop_relisted (plan1 plan2 : list Parser.PlannedFuncCall) :
  Forall2 relisted plan1 plan2 ->
  forall done1 done2 st r st',
    Forall2 sameExecution done1 done2 ->
    executeSeqLoop o plan1 done1 st = (Ok r, st') ->
    forall st2, Memo st' ⊆ Memo st2 ->
      exists r2 tr,
        executeSeqLoop o plan2 done2 st2 = (Ok r2, after st2 tr)
        /\ invoked tr = []
        /\ Forall2 sameExecution (FuncCalls r) (FuncCalls r2).
Proof.
  induction 1 as [|call1 call2 plan1 plan2 Hrel _ IH]; intros done1 done2 st r st' Hdone Hrun st2 Hsub.
  - simpl in Hrun |- *. injection Hrun as <- <-. exists (mkResult done2), [].
    by rewrite after_nil.
  - simpl in Hrun |- *.
    destruct (executeFunc o call1 st) as [[e1|err] sta] eqn:Hcall; [|done].
    pose proof (executeSeqLoop_tracked o plan1 (done1 ++ [e1]) sta) as Htr.
    rewrite Hrun in Htr. apply tracked_memo in Htr. simpl in Htr.
    destruct (executeFunc_relisted call1 call2 Hrel st e1 sta Hcall st2)
      as (e2 & tra & -> & Hinv_a & Hsame); [by etrans|].
    destruct (IH (done1 ++ [e1]) (done2 ++ [e2]) sta r st') with (st2 := after st2 tra)
      as (r2 & trb & -> & Hinv_b & Hall); [|done|done|].
    { apply Forall2_app; [done|]. by constructor. }
    exists r2, (tra ++ trb). rewrite after_after. split_and!; [done| |done].
    by rewrite invoked_app, Hinv_a, Hinv_b.
Qed.

(** *** What the memo keeps of a run *)

Lemma answersKept_refl (st : State) : answersKept o st st.
Proof.
  exists []. split_and!; [by rewrite app_nil_r|done|].
  intros name args executor w r Hin. by apply elem_of_nil in Hin.
Qed.

Lemma answersKept_trans (st st1 st2 : State) :
  answersKept o st st1 -> answersKept o st1 st2 -> answersKept o st st2.
Proof.
  intros (tr1 & Ht1 & Hm1 & Hk1) (tr2 & Ht2 & Hm2 & Hk2).
  exists (tr1 ++ tr2). split_and!.
  - by rewrite Ht2, Ht1, app_assoc.
  - by etrans.
  - intros name args executor w r Hin Hexec Hout.
    rewrite invoked_app in Hin. apply elem_of_app in Hin as [Hin|Hin].
    + eapply lookup_weaken; [|exact Hm2]. by eapply Hk1.
    + by eapply Hk2.
Qed.

Section Deterministic.
Hypothesis HDet : allDeterministic o.

Lemma lookupOrInvoke_answersKept (executor : FuncExecutor) (function : Parser.PlannedFuncCall)
    (args : gomap Arg) (st : State) :
  Functions o !! Parser.Name function = Some executor ->
  answersKept o st (lookupOrInvoke executor function args st).2.
Proof.
  intros Hexec.
  destruct (Memo st !! generateFingerprint (Parser.Name function) (createProcessedArgs args))
    as [result|] eqn:Hlook.
  - rewrite (lookupOrInvoke_hit executor function args st result Hlook). simpl.
    eexists. split_and!; [reflexivity|done|].
    intros name a ex w r Hin. by apply elem_of_nil in Hin.
  - rewrite (lookupOrInvoke_miss executor function args st Hlook). cbv zeta.
    destruct (executor (createProcessedArgs args) (world st)) as [outcome w0] eqn:Hrun.
    assert (Hone : forall name a (ex : FuncExecutor) w r,
               (name, a) ∈ invoked [EvFingerprint (Parser.Name function) (createProcessedArgs args);
                                    EvInvoke (Parser.Name function) (createProcessedArgs args)] ->
               Functions o !! name = Some ex -> (ex a w).1 = Returned r ->
               outcome = Returned r
               /\ generateFingerprint name a
                  = generateFingerprint (Parser.Name function) (createProcessedArgs args)).
    { intros name a ex w r Hin Hex Hout. simpl in Hin.
      apply list_elem_of_singleton in Hin as [= -> ->].
      assert (ex = executor) as -> by congruence. split; [|done].
      rewrite <- Hout, (HDet _ _ Hexec (createProcessedArgs args) w (world st)).
      by rewrite Hrun. }
    destruct outcome as [result|err|]; simpl; eexists; (split_and!; [reflexivity| |]).
    + by apply insert_subseteq.
    + intros name a ex w r Hin Hex Hout.
      destruct (Hone name a ex w r Hin Hex Hout) as [[= ->] ->]. apply lookup_insert_eq.
    + done.
    + intros name a ex w r Hin Hex Hout. by destruct (Hone name a ex w r Hin Hex Hout).
    + done.
    + intros name a ex w r Hin Hex Hout. by destruct (Hone name a ex w r Hin Hex Hout).
Qed.

Lemma processArgsLoop_answersKept (funcName : string) (fargs : gomap Parser.ArgValue) :
  Forall (Parser.onNested (fun v => forall st, answersKept o st (executeFunc o v st).2)) fargs ->
  forall args st,
    answersKept o st (processArgsLoop (executeFunc o) funcName fargs args st).2.
Proof.
  induction 1 as [|[key value] fargs Hhead _ IH]; intros args st; simpl.
  - apply answersKept_refl.
  - destruct value as [v|v]; [apply IH|].
    unfold Parser.onNested in Hhead. simpl in Hhead. specialize (Hhead st).
    destruct (executeFunc o v st) as [[funcExe|err] st'] eqn:Hrun; simpl in Hhead.
    + eapply answersKept_trans; [exact Hhead|apply IH].
    + exact Hhead.
Qed.

Lemma executeFunc_answersKept (function : Parser.PlannedFuncCall) (st : State) :
  answersKept o st (executeFunc o function st).2.
Proof.
  revert st. induction function as [name purpose fargs IH] using Parser.PlannedFuncCall_ind.
  intros st. rewrite executeFunc_eq. unfold processArgs. cbn [Parser.Name Parser.Args].
  destruct (Functions o !! name) as [executor|] eqn:Hexec; [|apply answersKept_refl].
  pose proof (processArgsLoop_answersKept name fargs IH [] st) as Hargs.
  destruct (processArgsLoop (executeFunc o) name fargs [] st) as [[args|err] st'] eqn:Hloop;
    simpl in Hargs; [|done].
  destruct (checkRequiredArgs o (Parser.mkPlannedFuncCall name purpose fargs) args) as [err|];
    [done|].
  eapply answersKept_trans; [exact Hargs|]. by apply lookupOrInvoke_answersKept.
Qed.

Lemma executeSeqLoop_answersKept (functions : list Parser.PlannedFuncCall)
    (done_ : list ExecutedFuncCall) (st : State) :
  answersKept o st (executeSeqLoop o functions done_ st).2.
Proof.
  revert done_ st. induction functions as [|function functions IH]; intros done_ st; simpl.
  - apply answersKept_refl.
  - pose proof (executeFunc_answersKept function st) as Hhead.
    destruct (executeFunc o function st) as [[funcExe|err] st'] eqn:Hrun; simpl in Hhead.
    + eapply answersKept_trans; [exact Hhead|apply IH].
    + exact Hhead.
Qed.

End Deterministic.

(** C3, amended.  A plan is executed twice under one orchestrator whose
    executors are deterministic; the second execution may meet the arguments
    of every call in another order ([relisted]).  Then:
    - in each run an executor is invoked only for a fingerprint the memo
      does not hold, and once per fingerprint; in particular the second run
      invokes no executor for a fingerprint that has a memo entry;
    - a call whose executor was invoked in the first run and returns a
      result has that result in the memo, and its executor is not invoked
      in the second run: it is invoked at most once across both runs;
    - when the first run ends without error, the second invokes no executor
      at all, leaves the memo as it found it and returns the calls of the
      first with the same results at every depth;
    - a call whose fingerprint has a memo entry returns the memoized
      [FuncResult], and its executor is not invoked;
    - call by call: a call that [executeFunc] ran with success is served
      from the memo, with the same results at every depth and without
      invoking an executor, whenever it is run again on a memo that holds
      what that run left, whatever the order of its arguments then and
      whatever else was memoized in between.
    Nothing is said of an executor that returned an error or timed out: it
    is not memoized. *)
Theorem memoization_replay (plan plan2 : list Parser.PlannedFuncCall) (st : State) :
  allDeterministic o ->
  Forall2 relisted plan plan2 ->
  let first := executeSeq o plan st in
  let second := executeSeq o plan2 first.2 in
  (exists tr1 tr2,
      trace first.2 = trace st ++ tr1 /\
      trace second.2 = trace first.2 ++ tr2 /\
      NoDup (invokedFingerprints tr1) /\
      NoDup (invokedFingerprints tr2) /\
      (forall fp, fp ∈ invokedFingerprints tr1 -> Memo st !! fp = None) /\
      (forall fp, fp ∈ invokedFingerprints tr2 -> Memo first.2 !! fp = None) /\
      (forall name args (executor : FuncExecutor) w r,
          (name, args) ∈ invoked tr1 ->
          Functions o !! name = Some executor ->
          (executor args w).1 = Returned r ->
          Memo first.2 !! generateFingerprint name args = Some r
          /\ generateFingerprint name args ∉ invokedFingerprints tr2) /\
      (forall r, first.1 = Ok r ->
          invoked tr2 = []
          /\ Memo second.2 = Memo first.2
          /\ exists r2, second.1 = Ok r2
                        /\ Forall2 sameExecution (FuncCalls r) (FuncCalls r2)))
  /\ (forall function st0 args st1 (executor : FuncExecutor) result,
         Functions o !! Parser.Name function = Some executor ->
         processArgs o function st0 = (Ok args, st1) ->
         checkRequiredArgs o function args = None ->
         Memo st1 !! generateFingerprint (Parser.Name function) (createProcessedArgs args)
         = Some result ->
         executeFunc o function st0
         = (Ok (mkExecutedFuncCall (Parser.Name function) (Parser.Purpose function) args result),
            after st1 [EvFingerprint (Parser.Name function) (createProcessedArgs args)]))
  /\ (forall call1 call2 sta e1 stb,
         relisted call1 call2 ->
         executeFunc o call1 sta = (Ok e1, stb) ->
         forall later, Memo stb ⊆ Memo later ->
           exists e2 tr,
             executeFunc o call2 later = (Ok e2, after later tr)
             /\ invoked tr = [] /\ sameExecution e1 e2).
Proof.
  intros Hdet Hrel. cbv zeta. split_and!.
  - unfold executeSeq.
    destruct (executeSeqLoop_tracked o plan [] st) as (tr1 & Hadv1 & Hkept1).
    destruct (executeSeqLoop_answersKept Hdet plan [] st) as (tr1' & Htr1' & _ & Hanswers).
    assert (tr1' = tr1) as ->.
    { apply (app_inv_head (trace st)). rewrite <- Htr1'. apply Hadv1. }
    destruct (executeSeqLoop o plan [] st) as [res1 st1] eqn:Hfirst. cbn [fst snd] in *.
    destruct (executeSeqLoop_tracked o plan2 [] st1) as (tr2 & Hadv2 & _).
    exists tr1, tr2. split_and!; try apply Hadv1; try apply Hadv2.
    + intros name args executor w r Hin Hexec Hout.
      pose proof (Hanswers name args executor w r Hin Hexec Hout) as Hmemo.
      split; [done|]. intros Hin2. apply (adv_fresh _ _ _ _ Hadv2) in Hin2. congruence.
    + intros r ->.
      destruct (executeSeqLoop_relisted plan plan2 Hrel [] [] st r st1) with (st2 := st1)
        as (r2 & tr2' & Hsecond & Hinv & Hsame); [constructor|done|done|].
      rewrite Hsecond in Hadv2 |- *. cbn [fst snd] in *.
      assert (tr2 = tr2') as ->.
      { apply (app_inv_head (trace st1)). rewrite <- (adv_trace _ _ _ _ Hadv2). done. }
      split_and!; [done|done|]. by exists r2.
  - intros function st0 args st1 executor result Hexec Hargs Hcheck Hmemo.
    rewrite executeFunc_eq, Hexec, Hargs, Hcheck.
    by apply lookupOrInvoke_hit.
  - intros call1 call2 sta e1 stb Hcalls Hrun later Hsub.
    by eapply executeFunc_relisted.
Qed.

End Runtime.

#[local] Existing Instance Eolo.plainRuntime.

Lemma coordinatesInItaly_wellKeyed (cityFirst : bool) :
  wellKeyed (Eolo.coordinatesInItaly cityFirst).
Proof.
  constructor.
  - destruct cityFirst; compute_done.
  - intros key call Hin.
    destruct cityFirst; repeat (apply elem_of_cons in Hin as [[=]|Hin]);
      by apply elem_of_nil in Hin.
Qed.

(** The forecast for Turin in Italy, with [city] and [country] listed in
    the two orders. *)
Lemma forecastInItaly_relisted :
  relisted (Eolo.forecastInItaly true) (Eolo.forecastInItaly false).
Proof.
  constructor; [compute_done|compute_done|..].
  - intros key. simpl. by destruct (String.eqb key "coordinates").
  - intros key v. simpl. by destruct (String.eqb key "coordinates").
  - intros key call1. simpl. destruct (String.eqb key "coordinates"); [|done].
    intros [= <-]. eexists. split; [done|].
    apply relisted_Permutation; [apply (coordinatesInItaly_wellKeyed true)|].
    apply perm_swap.
Qed.

Lemma memoization_replay_witness :
  let o := Eolo.orchestratorWith (H := Eolo.plainRuntime) (Eolo.answering Eolo.found) in
  let plan := [Eolo.forecastInItaly true; Eolo.coordinatesInItaly true] in
  let plan2 := [Eolo.forecastInItaly false; Eolo.coordinatesInItaly false] in
  let first := executeSeq o plan (NewState (H := Eolo.plainRuntime) tt) in
  let second := executeSeq o plan2 first.2 in
  allDeterministic o
  /\ Forall2 relisted plan plan2
  /\ exists tr1 tr2,
       trace first.2 = [] ++ tr1 /\
       trace second.2 = trace first.2 ++ tr2 /\
       NoDup (invokedFingerprints tr1) /\
       NoDup (invokedFingerprints tr2) /\
       (forall fp, fp ∈ invokedFingerprints tr1 -> (∅ : gmap string FuncResult) !! fp = None) /\
       (forall fp, fp ∈ invokedFingerprints tr2 -> Memo first.2 !! fp = None) /\
       (forall name args (executor : FuncExecutor) w r,
           (name, args) ∈ invoked tr1 ->
           Functions o !! name = Some executor ->
           (executor args w).1 = Returned r ->
           Memo first.2 !! generateFingerprint name args = Some r
           /\ generateFingerprint name args ∉ invokedFingerprints tr2) /\
       (forall r, first.1 = Ok r ->
           invoked tr2 = []
           /\ Memo second.2 = Memo first.2
           /\ exists r2, second.1 = Ok r2
                         /\ Forall2 sameExecution (FuncCalls r) (FuncCalls r2)).
Proof.
  intros o plan plan2 first second.
  assert (Hrel : Forall2 relisted plan plan2).
  { constructor; [exact forecastInItaly_relisted|]. constructor; [|constructor].
    apply relisted_Permutation; [apply (coordinatesInItaly_wellKeyed true)|apply perm_swap]. }
  split_and!; [apply allDeterministic_plain|exact Hrel|].
  exact (proj1 (memoization_replay o plan plan2 (NewState (H := Eolo.plainRuntime) tt)
                  (allDeterministic_plain o) Hrel)).
Defined.

(** The two listings, run: two invocations in the first execution (the
    coordinates are computed once for the two calls that need them) and
    none in the second, which leaves the memo as it found it. *)
Lemma relisted_plan_is_served_from_the_memo :
  let o := Eolo.orchestratorWith (H := Eolo.plainRuntime) (Eolo.answering Eolo.found) in
  let first := executeSeq o [Eolo.forecastInItaly true; Eolo.coordinatesInItaly true]
                 (NewState (H := Eolo.plainRuntime) tt) in
  let second := executeSeq o [Eolo.forecastInItaly false; Eolo.coordinatesInItaly false]
                  first.2 in
  is_ok first.1 = true
  /\ is_ok second.1 = true
  /\ invoked (trace second.2) = invoked (trace first.2)
  /\ length (invoked (trace first.2)) = 2
  /\ Memo second.2 = Memo first.2.
Proof. cbv zeta. split_and!; reflexivity. Qed.

End ReplayFacts.

(** ** From the reply of the model to the result of the request *)

Module EndToEndFacts.
Import GoMapFacts.
Import PlanFacts.
Import RunFacts.
Import RequestFacts.
Import Execution.
Import Handler.
Import Shapes.
Import Runs.

Lemma Forall_sublist {A} (P : A -> Prop) (l1 l2 : list A) :
  sublist l1 l2 -> Forall P l2 -> Forall P l1.
Proof.
  induction 1 as [|x l1 l2 _ IH|x l1 l2 _ IH]; intros Hall; [done|..];
    apply Forall_cons in Hall as [Hx Hall]; [constructor|]; auto.
Qed.

(** The calls of a parsed plan have distinct argument names at every depth. *)
Lemma ParseJsonFunctions_wellKeyed (unmarshalMainFunctions : string -> result string (list json))
    (jsonData : string) (calls : list Parser.PlannedFuncCall) :
  Parser.ParseJsonFunctions unmarshalMainFunctions jsonData = Ok calls ->
  Forall wellKeyed calls.
Proof.
  unfold Parser.ParseJsonFunctions.
  destruct (unmarshalMainFunctions jsonData) as [[|entry rest]|]; [by intros [= <-]| |done].
  intros Hparse. apply parseMainFunctions_calls in Hparse as (new & -> & Hnew). simpl.
  induction Hnew as [|e call entries new (details & _ & Hcall) _ IH]; [constructor|].
  constructor; [by eapply parseFuncDetails_wellKeyed|done].
Qed.

Section Runtime.
Context `{GoRuntime}.
Variable CreatePromptForFuncCalls : Tools.ToolSet -> result string string.
Variable renderSchema : json -> string.
Variable unmarshalMainFunctions : string -> result string (list json).
Variable evaluationPrompt :
  string -> Parser.PlannedFuncCall -> Tools.ToolSet -> result string string.
Variable evaluationSchema : string.
Variable unmarshalSuccess : string -> result string bool.
Variable executeConcurrent :
  Orchestrator -> list Parser.PlannedFuncCall -> State -> result Execution.Error Result * State.

Abbreviation generate := (generateFunctionCalls CreatePromptForFuncCalls renderSchema
                            unmarshalMainFunctions).
Abbreviation evaluateAll := (evaluateLoop evaluationPrompt evaluationSchema unmarshalSuccess).
Abbreviation evaluate := (evaluateFuncCallsConsistency evaluationPrompt evaluationSchema
                            unmarshalSuccess).
Abbreviation process := (ProcessUserRequest CreatePromptForFuncCalls renderSchema
                           unmarshalMainFunctions evaluationPrompt evaluationSchema
                           unmarshalSuccess executeConcurrent).

Lemma generate_wellKeyed (a : RequestHandler) (message : string) (st st1 : State)
    (plan : list Parser.PlannedFuncCall) :
  generate a message st = (Ok plan, st1) -> Forall wellKeyed plan.
Proof.
  unfold generateFunctionCalls.
  destruct (CreatePromptForFuncCalls _); [|done].
  destruct (Tools.toJSONSchema _); [|done].
  destruct (Complete _ _ _ _) as [[completion|?] w]; [|done].
  destruct (Parser.ParseJsonFunctions unmarshalMainFunctions completion) as [calls|] eqn:Hparse;
    [|done].
  intros [= <- _]. by eapply ParseJsonFunctions_wellKeyed.
Qed.

Lemma evaluate_sublist (a : RequestHandler) (message : string)
    (funcCalls kept : list Parser.PlannedFuncCall) (st st' : State) :
  evaluate a message funcCalls st = (Ok kept, st') -> sublist kept funcCalls.
Proof.
  unfold evaluateFuncCallsConsistency. destruct funcCalls as [|function funcCalls].
  - intros [= <- _]. constructor.
  - intros Hrun.
    by apply (evaluateAll_kept evaluationPrompt evaluationSchema unmarshalSuccess)
      in Hrun as [(new & -> & Hsub) _].
Qed.

Lemma executeSeq_mirrors (o : Orchestrator) (plan : list Parser.PlannedFuncCall)
    (st st' : State) (r : Result) :
  Forall wellKeyed plan -> executeSeq o plan st = (Ok r, st') ->
  Forall2 mirrors plan (FuncCalls r).
Proof.
  intros Hwk Hseq. apply executeSeqLoop_calls in Hseq as (new & -> & Hnew). simpl.
  induction Hnew as [|function e plan new (sta & stb & Hrun) _ IH]; [constructor|].
  apply Forall_cons in Hwk as [Hhead Hwk].
  constructor; [by eapply executeFunc_mirrors|by apply IH].
Qed.

(** X24.  With sequential execution and no [AlterResult] hook, a request
    that returns a result has parsed a plan from the reply of the model and
    has given that plan to the validator; [kept], what the validator
    returned, is a selection of the plan in the order of the plan.  When
    [kept] is empty the result is the fixed answer for an unprocessable
    request and nothing was executed.  Otherwise the result is what
    [executeSeq] returned for [kept], run from the state the validator left,
    and each executed call has the name, the purpose and the arguments of
    its planned call in [kept]: the handler executes nothing the plan does
    not hold. *)
Theorem request_executes_a_selection_of_the_plan (a : RequestHandler) (message : string)
    (st st' : State) (result : ProcessingResult) :
  EnableConcurrentExec (orchestrator a) = false ->
  AlterResult (config a) = None ->
  process a message st = (Ok result, st') ->
  exists plan kept st1 st2,
    generate a (altered a message) st = (Ok plan, st1)
    /\ evaluate a (altered a message) plan st1 = (Ok kept, st2)
    /\ sublist kept plan
    /\ (kept = [] /\ result = mkProcessingResult UnprocessableRequestExecutions /\ st' = st2
        \/ kept ≠ []
           /\ executeSeq (orchestrator a) kept st2 = (Ok (Execution_ result), st')
           /\ Forall2 mirrors kept (FuncCalls (Execution_ result))).
Proof.
  intros Hseq Hhook. unfold ProcessUserRequest.
  destruct (generate a (altered a message) st) as [[plan|e] st1] eqn:Hplan; [|done].
  destruct (evaluate a (altered a message) plan st1) as [[kept|e] st2] eqn:Hkept; [|done].
  pose proof (evaluate_sublist _ _ _ _ _ _ Hkept) as Hsub.
  destruct kept as [|function kept].
  { intros [= <- <-]. exists plan, [], st1, st2. split_and!; [done..|]. by left. }
  unfold executeFunctionCalls, Execute. rewrite Hseq, Hhook.
  destruct (executeSeq (orchestrator a) (function :: kept) st2) as [[exec|e] st3] eqn:Hrun;
    [|done].
  intros [= <- <-]. exists plan, (function :: kept), st1, st2.
  split_and!; [done..|]. right. cbn [Execution_]. split_and!; [done|done|].
  eapply executeSeq_mirrors; [|exact Hrun].
  eapply Forall_sublist; [exact Hsub|]. by eapply generate_wellKeyed.
Qed.

End Runtime.

#[local] Existing Instance Eolo.plainRuntime.

Lemma request_executes_a_selection_of_the_plan_witness :
  let a := Eolo.handlerAnswering (H := Eolo.plainRuntime) "{}" in
  let st := NewState (H := Eolo.plainRuntime) tt in
  let reply := [JObj [("get_weather_forecast",
                       JObj [("purpose", JStr "forecast for the city");
                             ("args", JObj Eolo.e1_args)])]] in
  let run := ProcessUserRequest (fun _ => Ok "prompt") (fun _ => "schema") (fun _ => Ok reply)
               (fun _ _ _ => Ok "is this plan grounded?") "" (fun _ => Ok true)
               executeSeq a "weather in Turin?" st in
  EnableConcurrentExec (orchestrator a) = false
  /\ AlterResult (config a) = None
  /\ exists result,
       run = (Ok result, run.2)
       /\ exists plan kept st1 st2,
            generateFunctionCalls (fun _ => Ok "prompt") (fun _ => "schema")
              (fun _ => Ok reply) a (altered a "weather in Turin?") st = (Ok plan, st1)
            /\ evaluateFuncCallsConsistency (fun _ _ _ => Ok "is this plan grounded?") ""
                 (fun _ => Ok true) a (altered a "weather in Turin?") plan st1 = (Ok kept, st2)
            /\ sublist kept plan
            /\ (kept = [] /\ result = mkProcessingResult UnprocessableRequestExecutions
                /\ run.2 = st2
                \/ kept ≠ []
                   /\ executeSeq (orchestrator a) kept st2 = (Ok (Execution_ result), run.2)
                   /\ Forall2 mirrors kept (FuncCalls (Execution_ result))).
Proof.
  intros a st reply run. split_and!; [reflexivity|reflexivity|].
  eexists. split; [reflexivity|].
  exact (request_executes_a_selection_of_the_plan
           (fun _ => Ok "prompt") (fun _ => "schema") (fun _ => Ok reply)
           (fun _ _ _ => Ok "is this plan grounded?") "" (fun _ => Ok true)
           executeSeq a "weather in Turin?" st run.2 _ eq_refl eq_refl eq_refl).
Defined.

End EndToEndFacts.

(** ** How often the executors run *)

Module CountFacts.
Import RequiredFacts.
Import MemoFacts.
Import Execution.

Section Runtime.
Context `{GoRuntime}.
Variable o : Orchestrator.

Lemma lookupOrInvoke_runs (executor : FuncExecutor) (function : Parser.PlannedFuncCall)
    (args : gomap Arg) (st : State) :
  exists tr,
    trace (lookupOrInvoke executor function args st).2 = trace st ++ tr
    /\ length (invoked tr) <= 1.
Proof.
  unfold lookupOrInvoke. cbn zeta. destruct (Memo _ !! _) as [result|].
  - eexists [_]. split; [done|]. simpl. lia.
  - eexists [_; _]. split.
    + destruct (executor _ _) as [[result|err|] w]; simpl; by rewrite <- app_assoc.
    + simpl. lia.
Qed.

Lemma processArgsLoop_runs (funcName : string) (fargs : gomap Parser.ArgValue) :
  Forall (Parser.onNested
            (fun v => forall st, exists tr,
                 trace (executeFunc o v st).2 = trace st ++ tr
                 /\ length (invoked tr) <= length (Parser.CollectAllNestedFuncCalls v)))
         fargs ->
  forall args st, exists tr,
    trace (processArgsLoop (executeFunc o) funcName fargs args st).2 = trace st ++ tr
    /\ length (invoked tr)
       <= length (flat_map (fun kv => match kv.2 with
                                      | Parser.Nested v => Parser.CollectAllNestedFuncCalls v
                                      | Parser.Literal _ => []
                                      end) fargs).
Proof.
  induction 1 as [|[key value] fargs Hhead _ IH]; intros args st; cbn [processArgsLoop flat_map].
  - exists []. split; [by rewrite app_nil_r|simpl; lia].
  - destruct value as [v|v]; cbn [snd]; [apply IH|].
    unfold Parser.onNested in Hhead. simpl in Hhead.
    destruct (Hhead st) as (tr1 & Htr1 & Hlen1). rewrite length_app.
    destruct (executeFunc o v st) as [[funcExe|err] st1]; cbn [snd] in *.
    + destruct (IH (mset key (FuncArg funcExe) args) st1) as (tr2 & Htr2 & Hlen2).
      exists (tr1 ++ tr2). split; [by rewrite Htr2, Htr1, app_assoc|].
      rewrite invoked_app, length_app. lia.
    + exists tr1. split; [done|lia].
Qed.

Lemma executeFunc_runs (function : Parser.PlannedFuncCall) (st : State) :
  exists tr,
    trace (executeFunc o function st).2 = trace st ++ tr
    /\ length (invoked tr) <= length (Parser.CollectAllNestedFuncCalls function).
Proof.
  revert st. induction function as [name purpose fargs IH] using Parser.PlannedFuncCall_ind.
  intros st. rewrite executeFunc_eq. unfold processArgs.
  cbn [Parser.Name Parser.Args Parser.CollectAllNestedFuncCalls length].
  destruct (Functions o !! name) as [executor|].
  - destruct (processArgsLoop_runs name fargs IH [] st) as (tr1 & Htr1 & Hlen1).
    destruct (processArgsLoop (executeFunc o) name fargs [] st) as [[args|err] st1];
      cbn [snd] in *.
    + destruct (checkRequiredArgs o (Parser.mkPlannedFuncCall name purpose fargs) args).
      * exists tr1. split; [done|lia].
      * destruct (lookupOrInvoke_runs executor (Parser.mkPlannedFuncCall name purpose fargs)
                    args st1) as (tr2 & Htr2 & Hlen2).
        exists (tr1 ++ tr2). split; [by rewrite Htr2, Htr1, app_assoc|].
        rewrite invoked_app, length_app. lia.
    + exists tr1. split; [done|lia].
  - exists []. split; [by rewrite app_nil_r|simpl; lia].
Qed.

Lemma executeSeqLoop_runs (functions : list Parser.PlannedFuncCall) :
  forall done_ st, exists tr,
    trace (executeSeqLoop o functions done_ st).2 = trace st ++ tr
    /\ length (invoked tr) <= length (flat_map Parser.CollectAllNestedFuncCalls functions).
Proof.
  induction functions as [|function functions IH]; intros done_ st;
    cbn [executeSeqLoop flat_map].
  - exists []. split; [by rewrite app_nil_r|simpl; lia].
  - destruct (executeFunc_runs function st) as (tr1 & Htr1 & Hlen1). rewrite length_app.
    destruct (executeFunc o function st) as [[funcExe|err] st1]; cbn [snd] in *.
    + destruct (IH (done_ ++ [funcExe]) st1) as (tr2 & Htr2 & Hlen2).
      exists (tr1 ++ tr2). split; [by rewrite Htr2, Htr1, app_assoc|].
      rewrite invoked_app, length_app. lia.
    + exists tr1. split; [done|lia].
Qed.

(** X25.  A sequential execution runs the executors at most as often as
    the plan holds calls, the nested ones counted: no call of the plan makes
    an executor run twice, and none runs for anything but a call of the
    plan. *)
Theorem executors_run_at_most_once_per_call (plan : list Parser.PlannedFuncCall) (st : State) :
  exists tr,
    trace (executeSeq o plan st).2 = trace st ++ tr
    /\ length (invoked tr) <= length (flat_map Parser.CollectAllNestedFuncCalls plan).
Proof. apply executeSeqLoop_runs. Qed.

End Runtime.
End CountFacts.
